(** * Graph execution engine: variable store, nodes, dependency resolver, sweep

    A shallow embedding of the Python sources
    [app/core/state.py], [app/core/nodes.py], [app/core/node_registry.py],
    [app/solver/dag_solver.py], [app/engine/graph_engine.py],
    [app/fault/signature_store.py] and [app/fault/comparator.py].

    Conventions of the embedding:
    - a Python [float] is a binary64 number, the kernel's primitive [float];
    - a Python [int] is a [Z];
    - a Python [dict] is an association list in insertion order ([Dict.t]);
    - code that mutates a [SystemState] and may raise runs in the monad
      [Exec.M]: the store is threaded, an exception keeps the store as it
      was when it was raised;
    - what the sources take from the Python runtime, numpy and networkx
      (the parser of formulas, the whitelisted functions, the iteration
      order of sets and of subgraph views) is a parameter, [Py.PyRuntime];
      [numpy.linspace] and the part of [networkx.DiGraph] the solver uses
      are modelled after the libraries; the reductions of numpy arrays the
      comparator uses are a parameter, [Fault.NpRuntime]. *)

From Stdlib Require Import List String Ascii ZArith Bool Lia Permutation.
From Stdlib Require Import Floats.
Import ListNotations.
Open Scope string_scope.
Open Scope list_scope.

Set Implicit Arguments.
Set Warnings "-register-all,-inexact-float".

(** ** Python dictionaries *)

Module Dict.
Section WithValue.
Variable V : Type.

(** Keys are strings; the list keeps the order of first insertion, as a
      Python [dict] does. *)
Definition t := list (string * V).

Definition empty : t := [].

Fixpoint get (d : t) (k : string) : option V :=
    match d with
    | [] => None
    | (k', v) :: d' => if String.eqb k' k then Some v else get d' k
    end.

(** [d[k] = v]: overwrite in place, or append a new entry. *)
Fixpoint set (d : t) (k : string) (v : V) : t :=
    match d with
    | [] => [(k, v)]
    | (k', v') :: d' =>
        if String.eqb k' k then (k', v) :: d' else (k', v') :: set d' k v
    end.

Definition contains (d : t) (k : string) : bool :=
    match get d k with Some _ => true | None => false end.

Definition keys (d : t) : list string := map fst d.

(** [d.get(k, default)] *)
Definition get_default (d : t) (k : string) (default : V) : V :=
    match get d k with Some v => v | None => default end.

(** [d.update(other)] and [{**d, **other}] *)
Definition update (d other : t) : t :=
    fold_left (fun acc kv => set acc (fst kv) (snd kv)) other d.

(** [dict(d)]: a copy; entries with a repeated key collapse onto the
      first position, the last value winning. *)
Definition copy (d : t) : t := update empty d.
End WithValue.
End Dict.

(** Membership test on lists of identifiers ([x in xs]). *)
Definition mem (x : string) (xs : list string) : bool :=
  existsb (String.eqb x) xs.

(** ** [app/core/state.py]: SystemState *)

Module State.

Record SystemState := mkState { _variables : Dict.t float }.

(** [SystemState(initial)]: [dict(initial) if initial else {}] *)
Definition init (initial : option (Dict.t float)) : SystemState :=
    match initial with
    | Some ((_ :: _) as d) => mkState (Dict.copy d)
    | _ => mkState (Dict.empty float)
    end.

Definition get (s : SystemState) (name : string) (default : float) : float :=
    Dict.get_default (_variables s) name default.

(** [state.get(name)] with the default [0.0] *)
Definition get0 (s : SystemState) (name : string) : float := get s name 0%float.

Definition set (s : SystemState) (name : string) (value : float) : SystemState :=
    mkState (Dict.set (_variables s) name value).

Definition has (s : SystemState) (name : string) : bool :=
    Dict.contains (_variables s) name.

Definition snapshot (s : SystemState) : Dict.t float := _variables s.

Definition to_dict (s : SystemState) : Dict.t float := _variables s.

Definition update (s : SystemState) (mapping : Dict.t float) : SystemState :=
    mkState (Dict.update (_variables s) mapping).

(** One turn of the loop of [delta]: [key] is the key visited,
      [max_delta] the running maximum. [diff > max_delta] is the
      binary64 comparison. *)
Definition delta_step (s : SystemState) (previous_snapshot : Dict.t float)
      (max_delta : float) (key : string) : float :=
    match Dict.get previous_snapshot key with
    | Some prev =>
        let diff := abs (get0 s key - prev) in
        if (max_delta <? diff)%float then diff else max_delta
    | None => max_delta
    end.

Definition delta (s : SystemState) (previous_snapshot : Dict.t float) : float :=
    match previous_snapshot with
    | [] => infinity
    | _ :: _ =>
        fold_left (delta_step s previous_snapshot)
                  (Dict.keys (_variables s)) 0%float
    end.

End State.

(** ** Python values, exceptions and the services of the runtime *)

Module Py.

(** The functions of [FormulaNode._SAFE_BUILTINS]. *)
Inductive builtin :=
| b_abs | b_min | b_max | b_pow | b_round
| b_sqrt | b_sin | b_cos | b_tan | b_log | b_exp.

(** The classes of the values below. *)
Inductive pytype := t_int | t_float | t_dict | t_builtin | t_type.

(** The values an expression of the modelled fragment can have. *)
Inductive value :=
| VInt (z : Z)
| VFloat (f : float)
| VBuiltin (b : builtin)
| VType (t : pytype)
| VEmptyDict.

(** A value of a node's [params], as JSON gives it. *)
Inductive param :=
| PInt (z : Z)
| PFloat (f : float)
| PStr (s : string).

Inductive exn_kind :=
| KeyError | TypeError | ValueError | NameError | UnboundLocalError
| ZeroDivisionError | OverflowError | AttributeError | SyntaxError.

(** The pieces of a formatted message: literal text, [{x!r}] of a string,
    of a parameter or of a list of strings, and [{exc}] of the exception
    the message is raised from. *)
Inductive msg_part :=
| Lit (s : string)
| ReprStr (s : string)
| ReprParam (p : param)
| ReprList (l : list string)
| StrCause.

(** An exception: its class, its message and, for [raise ... from exc],
    its cause. The text of the messages of the interpreter itself is not
    modelled (their [message] is empty). *)
Inductive exn :=
| Exn (kind : exn_kind) (message : list msg_part) (cause : option exn).

Definition exn_kind_of (e : exn) : exn_kind :=
  match e with Exn k _ _ => k end.

Definition exn_message (e : exn) : list msg_part :=
  match e with Exn _ m _ => m end.


(** An exception of the interpreter. *)
Definition builtin_exn (k : exn_kind) : exn := Exn k [] None.

(** The outcome of code that may raise. *)
Inductive result (A : Type) :=
| Ok (a : A)
| Err (e : exn).

Arguments Ok {A} a.
Arguments Err {A} e.

Definition bind {A B} (r : result A) (k : A -> result B) : result B :=
  match r with
  | Ok a => k a
  | Err e => Err e
  end.

(** The expressions of the modelled fragment of Python. *)
Inductive binop := Add | Sub | Mult | Div.

Inductive expr :=
| IntLit (z : Z)
| FloatLit (f : float)
| Name (id : string)
| USub (e : expr)
| BinOp (l : expr) (op : binop) (r : expr)
| Call (func : expr) (args : list expr)
| ClassOf (e : expr).          (* [e.__class__] *)

(** What Python's parser makes of the text of a formula: an expression of
    the fragment, or, for any other text (a syntax error included), the
    outcome of [float(eval(text, ..., namespace))]. *)
Inductive parsed :=
| Fragment (e : expr)
| Foreign (run : Dict.t value -> result float).

(** What the embedding takes from the Python runtime and from networkx:
    the parser, the whitelisted functions, true division of integers
    beyond 2^53, the conversions of text to numbers, the order in which a
    Python set is iterated and the order in which a subgraph view is. *)
Record PyRuntime := {
  py_parse : string -> parsed;
  call_builtin : builtin -> list value -> result value;
  big_truediv : Z -> Z -> result float;
  float_of_str : string -> result float;
  int_of_str : string -> result Z;
  set_iter : list string -> list string;
  set_iter_perm : forall l, Permutation (set_iter l) l;
  view_iter : list string -> list string -> list string;
  view_iter_perm : forall atlas keep,
    Permutation (view_iter atlas keep) (filter (fun n => mem n keep) atlas)
}.

(** [float(z)] of an integer: the nearest binary64 number, or
    [OverflowError] when that is beyond the largest. *)
Definition float_of_Z (z : Z) : float :=
  SF2Prim (binary_normalize prec emax z 0 false).

Definition int_to_float (z : Z) : result float :=
  let f := float_of_Z z in
  if (abs f =? infinity)%float then Err (builtin_exn OverflowError) else Ok f.

(** [int(f)] of a float: truncation towards zero. *)
Definition float_to_int (f : float) : result Z :=
  match Prim2SF f with
  | S754_zero _ => Ok 0%Z
  | S754_infinity _ => Err (builtin_exn OverflowError)
  | S754_nan => Err (builtin_exn ValueError)
  | S754_finite s m e =>
      let v := if (0 <=? e)%Z then Z.shiftl (Zpos m) e
               else Z.shiftr (Zpos m) (- e) in
      Ok (if s then (- v)%Z else v)
  end.

(** [float(v)] *)
Definition py_float (v : value) : result float :=
  match v with
  | VInt z => int_to_float z
  | VFloat f => Ok f
  | _ => Err (builtin_exn TypeError)
  end.

(** [int(v)] *)
Definition py_int (v : value) : result Z :=
  match v with
  | VInt z => Ok z
  | VFloat f => float_to_int f
  | _ => Err (builtin_exn TypeError)
  end.

Definition type_of (v : value) : pytype :=
  match v with
  | VInt _ => t_int
  | VFloat _ => t_float
  | VBuiltin _ => t_builtin
  | VType _ => t_type
  | VEmptyDict => t_dict
  end.

Definition float_binop (op : binop) (a b : float) : result value :=
  match op with
  | Add => Ok (VFloat (a + b))
  | Sub => Ok (VFloat (a - b))
  | Mult => Ok (VFloat (a * b))
  | Div => if (b =? 0)%float then Err (builtin_exn ZeroDivisionError)
           else Ok (VFloat (a / b))
  end.

Definition two_53 : Z := 9007199254740992.

Definition int_binop (rt : PyRuntime) (op : binop) (a b : Z) : result value :=
  match op with
  | Add => Ok (VInt (a + b))
  | Sub => Ok (VInt (a - b))
  | Mult => Ok (VInt (a * b))
  | Div =>
      if (b =? 0)%Z then Err (builtin_exn ZeroDivisionError)
      else if ((Z.abs a <=? two_53) && (Z.abs b <=? two_53))%Z
           then Ok (VFloat (float_of_Z a / float_of_Z b))
           else bind (big_truediv rt a b) (fun f => Ok (VFloat f))
  end.

(** [a op b] *)
Definition py_binop (rt : PyRuntime) (op : binop) (a b : value) : result value :=
  match a, b with
  | VInt x, VInt y => int_binop rt op x y
  | VFloat x, VFloat y => float_binop op x y
  | VInt x, VFloat y => bind (int_to_float x) (fun fx => float_binop op fx y)
  | VFloat x, VInt y => bind (int_to_float y) (fun fy => float_binop op x fy)
  | _, _ => Err (builtin_exn TypeError)
  end.

(** [-a] *)
Definition py_neg (a : value) : result value :=
  match a with
  | VInt x => Ok (VInt (- x))
  | VFloat x => Ok (VFloat (- x))
  | _ => Err (builtin_exn TypeError)
  end.

(** A call of a class reached through [__class__]. *)
Definition call_type (t : pytype) (args : list value) : result value :=
  match t, args with
  | t_float, [] => Ok (VFloat 0)
  | t_float, [v] => bind (py_float v) (fun f => Ok (VFloat f))
  | t_int, [] => Ok (VInt 0)
  | t_int, [v] => bind (py_int v) (fun z => Ok (VInt z))
  | t_dict, [] => Ok VEmptyDict
  | t_dict, [VEmptyDict] => Ok VEmptyDict
  | t_type, [v] => Ok (VType (type_of v))
  | _, _ => Err (builtin_exn TypeError)
  end.

(** A call [f(args)]. *)
Definition py_call (rt : PyRuntime) (f : value) (args : list value) : result value :=
  match f with
  | VBuiltin b => call_builtin rt b args
  | VType t => call_type t args
  | _ => Err (builtin_exn TypeError)
  end.

(** A name is looked up in the locals (the namespace), then in the
    globals [{"__builtins__": {}}], then in the builtins, which are empty. *)
Definition lookup (namespace : Dict.t value) (id : string) : result value :=
  match Dict.get namespace id with
  | Some v => Ok v
  | None => if String.eqb id "__builtins__" then Ok VEmptyDict
            else Err (builtin_exn NameError)
  end.

(** [eval(e, {"__builtins__": {}}, namespace)] for an expression of the
    fragment; operands and arguments are evaluated from left to right. *)
Fixpoint eval (rt : PyRuntime) (e : expr) (namespace : Dict.t value)
    : result value :=
  match e with
  | IntLit z => Ok (VInt z)
  | FloatLit f => Ok (VFloat f)
  | Name id => lookup namespace id
  | USub e1 => bind (eval rt e1 namespace) py_neg
  | BinOp l op r =>
      bind (eval rt l namespace) (fun a =>
      bind (eval rt r namespace) (fun b => py_binop rt op a b))
  | Call func args =>
      bind (eval rt func namespace) (fun f =>
      bind ((fix eval_args (l : list expr) : result (list value) :=
               match l with
               | [] => Ok []
               | a :: l' =>
                   bind (eval rt a namespace) (fun v =>
                   bind (eval_args l') (fun vs => Ok (v :: vs)))
               end) args)
           (fun vs => py_call rt f vs))
  | ClassOf e1 => bind (eval rt e1 namespace) (fun v => Ok (VType (type_of v)))
  end.

(** [float(eval(expression, {"__builtins__": {}}, namespace))]; [eval]
    needs a string. *)
Definition eval_float (rt : PyRuntime) (expression : param)
    (namespace : Dict.t value) : result float :=
  match expression with
  | PStr text =>
      match py_parse rt text with
      | Fragment e => bind (eval rt e namespace) py_float
      | Foreign run => run namespace
      end
  | _ => Err (builtin_exn TypeError)
  end.

(** [math.pi] *)
Definition pi : float := 0x1.921fb54442d18p+1%float.

End Py.

(** ** Code that mutates a store and may raise *)

Module Exec.
Import Py State.

(** The store a solve works on, and the ids of the nodes whose [compute]
    has been invoked so far (a ghost record: the source keeps no such
    list, the properties speak about it). *)
Record Machine := mkMachine {
  store : SystemState;
  invoked : list string
}.

(** An exception leaves the machine as it was when it was raised. *)
Definition M (A : Type) := Machine -> result A * Machine.

Definition ret {A} (a : A) : M A := fun m => (Ok a, m).

Definition raise {A} (e : exn) : M A := fun m => (Err e, m).

Definition mbind {A B} (c : M A) (k : A -> M B) : M B :=
  fun m =>
    match c m with
    | (Ok a, m') => k a m'
    | (Err e, m') => (Err e, m')
    end.

(** A computation that does not touch the store. *)
Definition lift {A} (r : result A) : M A := fun m => (r, m).

(** [try: c except Exception as exc: handler(exc)] *)
Definition try_except {A} (c : M A) (handler : exn -> M A) : M A :=
  fun m =>
    match c m with
    | (Ok a, m') => (Ok a, m')
    | (Err e, m') => handler e m'
    end.

Definition state_get0 (name : string) : M float :=
  fun m => (Ok (get0 (store m) name), m).

Definition state_set (name : string) (v : float) : M unit :=
  fun m => (Ok tt, mkMachine (set (store m) name v) (invoked m)).

Definition state_to_dict : M (Dict.t float) :=
  fun m => (Ok (to_dict (store m)), m).

Definition state_snapshot : M (Dict.t float) :=
  fun m => (Ok (snapshot (store m)), m).

Definition state_delta (previous_snapshot : Dict.t float) : M float :=
  fun m => (Ok (delta (store m) previous_snapshot), m).

(** The ghost record of an invocation of [compute]. *)
Definition note_invoked (node_id : string) : M unit :=
  fun m => (Ok tt, mkMachine (store m) (invoked m ++ [node_id])).

End Exec.

Declare Scope exec_scope.
Delimit Scope exec_scope with exec.
Notation "x <- c ;; k" := (Exec.mbind c (fun x => k))
  (at level 61, c at next level, right associativity) : exec_scope.
Notation "c ;;; k" := (Exec.mbind c (fun _ => k))
  (at level 61, right associativity) : exec_scope.

Module StateSpec.
Import State.

(** The difference [delta] looks at for a key of both dictionaries. *)
Definition diff_at (s : SystemState) (k : string) (b : float) : float :=
  abs (get0 s k - b).

End StateSpec.

Module FloatSpec.

(** A specification float that is a zero or not a number. *)
Definition zero_or_nan (x : spec_float) : Prop :=
  match x with
  | S754_zero _ | S754_nan => True
  | _ => False
  end.

End FloatSpec.

Module ExecSpec.
Import Exec.

(** A computation that leaves the ghost record of invocations alone. *)
Definition silent {A} (c : M A) : Prop :=
  forall m, invoked (snd (c m)) = invoked m.

End ExecSpec.

(** ** [app/core/nodes.py] *)

Module Nodes.
Import Py State Exec.
Local Open Scope exec_scope.

Inductive NodeClass :=
| MotorNode | HeaterNode | HydraulicNode | FormulaNode | SweepNode.

(** [type(node).__name__] *)
Definition class_name (c : NodeClass) : string :=
  match c with
  | MotorNode => "MotorNode"
  | HeaterNode => "HeaterNode"
  | HydraulicNode => "HydraulicNode"
  | FormulaNode => "FormulaNode"
  | SweepNode => "SweepNode"
  end.

Record BaseNode := mkNode {
  cls : NodeClass;
  node_id : string;
  label : string;
  params : Dict.t param;
  inputs : list string;
  outputs : list string
}.

(** [BaseNode.__init__] *)
Definition new_node (c : NodeClass) (node_id label : string)
    (params : option (Dict.t param)) (inputs outputs : option (list string))
    : BaseNode :=
  mkNode c node_id
         (if String.eqb label "" then node_id else label)
         (match params with Some p => p | None => [] end)
         (match inputs with Some l => l | None => [] end)
         (match outputs with Some l => l | None => [] end).

(** [l[i] if len(l) > i else default] *)
Definition nth_or (l : list string) (i : nat) (default : string) : string :=
  nth i l default.

(** A numeric parameter as an operand. A string among the operands makes
    each of the three component formulas raise [TypeError]. *)
Definition operand (p : param) : result value :=
  match p with
  | PInt z => Ok (VInt z)
  | PFloat f => Ok (VFloat f)
  | PStr _ => Err (builtin_exn TypeError)
  end.

Definition param_or (self : BaseNode) (key : string) (default : float) : param :=
  Dict.get_default (params self) key (PFloat default).

(** [v != 0] *)
Definition nonzero (v : value) : bool :=
  match v with
  | VInt z => negb (z =? 0)%Z
  | VFloat f => negb (f =? 0)%float
  | _ => true
  end.

(** [power / (efficiency * voltage) if (efficiency * voltage) != 0 else 0.0],
    the closing step of [MotorNode] and of [HydraulicNode]. *)
Definition current_of_power (rt : PyRuntime) (power : float)
    (efficiency voltage : param) : result float :=
  bind (operand efficiency) (fun e =>
  bind (operand voltage) (fun v =>
  bind (py_binop rt Mult e v) (fun denominator =>
  if nonzero denominator
  then bind (py_binop rt Div (VFloat power) denominator) py_float
  else Ok 0%float))).

Definition motor_compute (rt : PyRuntime) (self : BaseNode) : M unit :=
  torque <- state_get0 (nth_or (inputs self) 0 "torque") ;;
  speed <- state_get0 (nth_or (inputs self) 1 "speed") ;;
  let voltage := param_or self "voltage" 230 in
  let efficiency := param_or self "efficiency" 0.85 in
  let omega := (speed * 2 * pi / 60)%float in
  let power := (torque * omega)%float in
  current <- lift (current_of_power rt power efficiency voltage) ;;
  state_set (nth_or (outputs self) 0 "motor_current") current.

Definition heater_compute (rt : PyRuntime) (self : BaseNode) : M unit :=
  temperature <- state_get0 (nth_or (inputs self) 0 "temperature") ;;
  let r0 := param_or self "r0" 10 in
  let alpha := param_or self "alpha" 0.004 in
  let t0 := param_or self "t0" 25 in
  let voltage := param_or self "voltage" 230 in
  resistance <- lift (
    bind (operand t0) (fun t0v =>
    bind (py_binop rt Sub (VFloat temperature) t0v) (fun d =>
    bind (operand alpha) (fun a =>
    bind (py_binop rt Mult a d) (fun ad =>
    bind (py_binop rt Add (VInt 1) ad) (fun s =>
    bind (operand r0) (fun r =>
    bind (py_binop rt Mult r s) py_float))))))) ;;
  current <- lift (
    if negb (resistance =? 0)%float
    then bind (operand voltage) (fun v =>
         bind (py_binop rt Div v (VFloat resistance)) py_float)
    else Ok 0%float) ;;
  state_set (nth_or (outputs self) 0 "heater_resistance") resistance ;;;
  state_set (nth_or (outputs self) 1 "heater_current") current.

Definition hydraulic_compute (rt : PyRuntime) (self : BaseNode) : M unit :=
  pressure <- state_get0 (nth_or (inputs self) 0 "pressure") ;;
  flow_rate <- state_get0 (nth_or (inputs self) 1 "flow_rate") ;;
  let voltage := param_or self "voltage" 400 in
  let efficiency := param_or self "efficiency" 0.8 in
  let power := (pressure * flow_rate)%float in
  current <- lift (current_of_power rt power efficiency voltage) ;;
  state_set (nth_or (outputs self) 0 "hydraulic_current") current.

(** [FormulaNode._SAFE_BUILTINS] *)
Definition _SAFE_BUILTINS : Dict.t value :=
  [("abs", VBuiltin b_abs); ("min", VBuiltin b_min); ("max", VBuiltin b_max);
   ("pow", VBuiltin b_pow); ("round", VBuiltin b_round);
   ("sqrt", VBuiltin b_sqrt); ("sin", VBuiltin b_sin); ("cos", VBuiltin b_cos);
   ("tan", VBuiltin b_tan); ("log", VBuiltin b_log); ("exp", VBuiltin b_exp);
   ("pi", VFloat pi)].

(** [{**state.to_dict(), **self._SAFE_BUILTINS}] *)
Definition namespace_of (vars : Dict.t float) : Dict.t value :=
  Dict.update (map (fun kv => (fst kv, VFloat (snd kv))) vars) _SAFE_BUILTINS.

(** The [ValueError] of [FormulaNode.compute], raised from [exc]. *)
Definition formula_error (node_id : string) (expression : param) (exc : exn)
    : exn :=
  Exn ValueError
      [Lit "FormulaNode "; ReprStr node_id;
       Lit ": failed to evaluate expression "; ReprParam expression;
       Lit " — "; StrCause]
      (Some exc).

Definition formula_compute (rt : PyRuntime) (self : BaseNode) : M unit :=
  let expression := Dict.get_default (params self) "expression" (PStr "0") in
  vars <- state_to_dict ;;
  let namespace := namespace_of vars in
  result <- try_except
              (lift (eval_float rt expression namespace))
              (fun exc => raise (formula_error (node_id self) expression exc)) ;;
  state_set (nth_or (outputs self) 0 "formula_result") result.

(** The properties of [SweepNode]. A variable name is a string; the model
    has no store key for a name given as a number and raises [TypeError]
    in its place. *)
Definition name_param (self : BaseNode) (key : string) : result string :=
  match Dict.get_default (params self) key (PStr "") with
  | PStr s => Ok s
  | _ => Err (builtin_exn TypeError)
  end.

Definition sweep_var (self : BaseNode) : result string :=
  name_param self "sweep_var".

Definition output_var (self : BaseNode) : result string :=
  name_param self "output_var".

(** [float(p)] and [int(p)] of a parameter *)
Definition param_float (rt : PyRuntime) (p : param) : result float :=
  match p with
  | PInt z => int_to_float z
  | PFloat f => Ok f
  | PStr s => float_of_str rt s
  end.

Definition param_int (rt : PyRuntime) (p : param) : result Z :=
  match p with
  | PInt z => Ok z
  | PFloat f => float_to_int f
  | PStr s => int_of_str rt s
  end.

Definition min_val (rt : PyRuntime) (self : BaseNode) : result float :=
  param_float rt (param_or self "min_val" 0).

Definition max_val (rt : PyRuntime) (self : BaseNode) : result float :=
  param_float rt (param_or self "max_val" 100).

Definition steps (rt : PyRuntime) (self : BaseNode) : result Z :=
  param_int rt (Dict.get_default (params self) "steps" (PInt 100)).

Definition sweep_compute (self : BaseNode) : M unit :=
  name <- lift (output_var self) ;;
  val <- state_get0 name ;;
  state_set (nth_or (outputs self) 0 "sweep_result") val.

(** [node.compute(state)], by the class of the node *)
Definition compute (rt : PyRuntime) (self : BaseNode) : M unit :=
  match cls self with
  | MotorNode => motor_compute rt self
  | HeaterNode => heater_compute rt self
  | HydraulicNode => hydraulic_compute rt self
  | FormulaNode => formula_compute rt self
  | SweepNode => sweep_compute self
  end.

End Nodes.

(** ** [networkx.DiGraph]

    The adjacency dictionary [_succ] of the graph: every node is a key, in
    the order the nodes were added, and maps to its successors in the order
    the edges were added. Parallel edges are merged, self-loops are kept. *)

Module DiGraph.

Definition t := Dict.t (list string).

Definition empty : t := [].

Definition nodes (g : t) : list string := Dict.keys g.

Definition has_node (g : t) (n : string) : bool := Dict.contains g n.

Definition successors (g : t) (n : string) : list string :=
  Dict.get_default g n [].

Definition add_node (g : t) (n : string) : t :=
  if has_node g n then g else Dict.set g n [].

Definition add_edge (g : t) (u v : string) : t :=
  let g1 := add_node (add_node g u) v in
  let vs := successors g1 u in
  if mem v vs then g1 else Dict.set g1 u (vs ++ [v]).

Definition add_nodes_from (g : t) (ns : list string) : t :=
  fold_left add_node ns g.

Definition add_edges_from (g : t) (es : list (string * string)) : t :=
  fold_left (fun acc e => add_edge acc (fst e) (snd e)) es g.

(** [graph.edges]: the out-edges of each node, node by node. *)
Definition edges (g : t) : list (string * string) :=
  flat_map (fun entry => map (pair (fst entry)) (snd entry)) g.

Definition has_edge (g : t) (u v : string) : bool := mem v (successors g u).

(** [graph.predecessors(v)]; the solver only tests its elements for
    membership and counts them, so they are listed in node order. *)
Definition predecessors (g : t) (v : string) : list string :=
  filter (fun u => has_edge g u v) (nodes g).

Definition in_degree (g : t) (v : string) : Z :=
  Z.of_nat (List.length (predecessors g v)).

(** [graph.subgraph(keep)], and its [.copy()]: the nodes of [g] that are in
    [keep] with the edges of [g] between them. networkx iterates such a view
    either in the order of the graph or in the order of the Python set
    behind [keep]; [view_iter atlas keep] is that order, a permutation of
    the members of [atlas] that are in [keep] (see [PyRuntime]). *)
Definition subgraph (view_iter : list string -> list string -> list string)
    (g : t) (keep : list string) : t :=
  map (fun n => (n, view_iter (successors g n) keep))
      (view_iter (nodes g) keep).

(** A walk of at least one and at most [k] edges leads from [u] to
    [target]. *)
Fixpoint walk_to (g : t) (k : nat) (u target : string) : bool :=
  match k with
  | O => false
  | S k' =>
      existsb (fun v => String.eqb v target || walk_to g k' v target)
              (successors g u)
  end.

(** [n] lies on a cycle: a walk leads from [n] back to [n]. In a graph of
    [List.length (nodes g)] nodes a shortest such walk has at most that many
    edges. *)
Definition on_cycle (g : t) (n : string) : bool :=
  walk_to g (List.length (nodes g)) n n.

(** The union of the node sets of [nx.simple_cycles(graph)]. The solver
    uses the enumeration of the elementary circuits in two ways only: it
    tests it for emptiness and it collects the nodes of all circuits in a
    set. A node is on an elementary circuit exactly when it is on a cycle
    (lemma [CycleFacts.on_cycle_elementary]), and the enumeration is empty
    exactly when this set is. The list is in node order; the order in
    which the Python set is iterated is applied where the solver iterates
    it. *)
Definition cycle_nodes (g : t) : list string :=
  filter (on_cycle g) (nodes g).

End DiGraph.

(** ** Kahn's algorithm ([DAGSolver._kahns_sort]) *)

Module Kahn.
Import DiGraph.

(** [in_degree[k] += by]. The key is a node of the graph whenever the
    solver runs this (networkx keeps both ends of every edge among the
    nodes), so the lookup does not miss; an absent key is left absent. *)
Definition bump (in_degree : Dict.t Z) (k : string) (by_ : Z) : Dict.t Z :=
  match Dict.get in_degree k with
  | Some x => Dict.set in_degree k (x + by_)%Z
  | None => in_degree
  end.

(** [{n: 0 for n in graph.nodes}], then [in_degree[v] += 1] over the edges *)
Definition initial_in_degree (g : t) : Dict.t Z :=
  fold_left (fun d e => bump d (snd e) 1%Z) (edges g)
            (map (fun n => (n, 0%Z)) (nodes g)).

(** [deque(node for node, deg in in_degree.items() if deg == 0)] *)
Definition initial_queue (in_degree : Dict.t Z) : list string :=
  map fst (filter (fun nd => Z.eqb (snd nd) 0) in_degree).

(** The body of [for successor in graph.successors(node)] *)
Definition visit (acc : Dict.t Z * list string) (successor : string)
    : Dict.t Z * list string :=
  let in_degree := bump (fst acc) successor (-1)%Z in
  match Dict.get in_degree successor with
  | Some 0%Z => (in_degree, snd acc ++ [successor])
  | _ => (in_degree, snd acc)
  end.

(** [while queue:]; each turn adds one node to [result], so [fuel] turns
    are enough when [fuel] is the number of nodes (lemma
    [KahnResult.loop_fuel_enough]). *)
Fixpoint loop (fuel : nat) (g : t) (in_degree : Dict.t Z)
    (queue result : list string) : list string :=
  match fuel with
  | O => result
  | S fuel' =>
      match queue with
      | [] => result
      | node :: queue' =>
          let acc := fold_left visit (successors g node) (in_degree, queue') in
          loop fuel' g (fst acc) (snd acc) (result ++ [node])
      end
  end.

Definition kahns_sort_fuel (fuel : nat) (g : t) : list string :=
  let in_degree := initial_in_degree g in
  loop fuel g in_degree (initial_queue in_degree) [].

Definition _kahns_sort (g : t) : list string :=
  kahns_sort_fuel (List.length (nodes g)) g.

End Kahn.

(** ** [app/solver/dag_solver.py]: DAGSolver *)

Module Solver.
Import Py State Exec Nodes DiGraph Kahn.
Local Open Scope exec_scope.

Definition DEFAULT_CONVERGENCE_THRESHOLD : float := 0.001.
Definition DEFAULT_MAX_ITERATIONS : Z := 100.

Record DAGSolver := mkSolver {
  convergence_threshold : float;
  max_iterations : Z
}.

(** [DAGSolver()] *)
Definition default_solver : DAGSolver :=
  mkSolver DEFAULT_CONVERGENCE_THRESHOLD DEFAULT_MAX_ITERATIONS.

Definition _build_graph (nodes : Dict.t BaseNode)
    (edges : list (string * string)) : DiGraph.t :=
  add_edges_from (add_nodes_from DiGraph.empty (Dict.keys nodes)) edges.

(** The loop the solver runs over a list of ids, appending to the log it
    is given:
    [for node_id in ids: if node_id in nodes: nodes[node_id].compute(state);
    log.append(node_id)]. *)
Fixpoint run_nodes (rt : PyRuntime) (nodes : Dict.t BaseNode)
    (ids : list string) (log : list string) : M (list string) :=
  match ids with
  | [] => ret log
  | node_id :: rest =>
      match Dict.get nodes node_id with
      | Some node =>
          note_invoked node_id ;;;
          compute rt node ;;;
          run_nodes rt nodes rest (log ++ [node_id])
      | None => run_nodes rt nodes rest log
      end
  end.

(** [sorted(xs, key=key)]: a stable sort, by insertion from the right. *)
Fixpoint insert_by (key : string -> Z) (x : string) (l : list string)
    : list string :=
  match l with
  | [] => [x]
  | y :: l' => if (key x <=? key y)%Z then x :: l else y :: insert_by key x l'
  end.

Definition sorted_by (key : string -> Z) (l : list string) : list string :=
  fold_right (insert_by key) [] l.

Definition _resolve_cycle_order (rt : PyRuntime) (graph : DiGraph.t)
    (cycle_nodes : list string) : list string :=
  let sub := subgraph (view_iter rt) graph cycle_nodes in
  sorted_by (in_degree sub) (set_iter rt cycle_nodes).

(** The [for iteration in range(1, max_iterations + 1)] loop with
    [remaining] turns to go. A turn that ends with [delta] below the
    threshold breaks out; running out of turns reaches the [else] branch,
    which logs a warning. *)
Fixpoint iterate (rt : PyRuntime) (threshold : float) (nodes : Dict.t BaseNode)
    (cycle_order : list string) (remaining : nat) (execution_log : list string)
    : M (list string) :=
  match remaining with
  | O => ret execution_log
  | S remaining' =>
      snapshot <- state_snapshot ;;
      log <- run_nodes rt nodes cycle_order execution_log ;;
      delta <- state_delta snapshot ;;
      if (delta <? threshold)%float then ret log
      else iterate rt threshold nodes cycle_order remaining' log
  end.

(** With no turn at all ([max_iterations <= 0]) the [else] branch evaluates
    [state.delta(snapshot)] for its warning while [snapshot] was never
    bound, which raises [UnboundLocalError]. *)
Definition _iterate_until_converged (rt : PyRuntime) (self : DAGSolver)
    (nodes : Dict.t BaseNode) (cycle_order : list string) : M (list string) :=
  if (max_iterations self <=? 0)%Z
  then raise (builtin_exn UnboundLocalError)
  else iterate rt (convergence_threshold self) nodes cycle_order
               (Z.to_nat (max_iterations self)) [].

(** [any(pred in cycle_node_ids for pred in graph.predecessors(nid))] *)
Definition depends_on_cycle (graph : DiGraph.t) (cycle_node_ids : list string)
    (nid : string) : bool :=
  existsb (fun pred => mem pred cycle_node_ids) (predecessors graph nid).

(** [set(graph.nodes) - cycle_node_ids] *)
Definition acyclic_nodes (graph : DiGraph.t) (cycle_node_ids : list string)
    : list string :=
  filter (fun n => negb (mem n cycle_node_ids)) (nodes graph).

Definition pre_cycle (graph : DiGraph.t) (cycle_node_ids acyclic_order : list string)
    : list string :=
  filter (fun nid => negb (depends_on_cycle graph cycle_node_ids nid))
         acyclic_order.

Definition post_cycle (graph : DiGraph.t) (cycle_node_ids acyclic_order : list string)
    : list string :=
  filter (depends_on_cycle graph cycle_node_ids) acyclic_order.

(** [DAGSolver.solve]: the store is the machine's, the value returned is
    the execution order. *)
Definition solve (rt : PyRuntime) (self : DAGSolver) (nodes : Dict.t BaseNode)
    (edges : list (string * string)) : M (list string) :=
  let graph := _build_graph nodes edges in
  let cycle_node_ids := cycle_nodes graph in
  match cycle_node_ids with
  | [] => run_nodes rt nodes (_kahns_sort graph) []
  | _ :: _ =>
      let acyclic_node_ids := acyclic_nodes graph cycle_node_ids in
      let acyclic_subgraph := subgraph (view_iter rt) graph acyclic_node_ids in
      let acyclic_order := _kahns_sort acyclic_subgraph in
      execution_order <-
        run_nodes rt nodes (pre_cycle graph cycle_node_ids acyclic_order) [] ;;
      let cycle_order := _resolve_cycle_order rt graph cycle_node_ids in
      cycle_exec <- _iterate_until_converged rt self nodes cycle_order ;;
      run_nodes rt nodes (post_cycle graph cycle_node_ids acyclic_order)
                (execution_order ++ cycle_exec)
  end.

End Solver.

(** ** [numpy.linspace(start, stop, num)] with [endpoint=True] *)

Module Numpy.
Import Py.

(** [arange(0, num)] as floats *)
Definition arange (num : Z) : list float :=
  map (fun i => float_of_Z (Z.of_nat i)) (seq 0 (Z.to_nat num)).

(** [y[-1] = stop] *)
Definition set_last (y : list float) (stop : float) : list float :=
  match y with
  | [] => []
  | _ :: _ => removelast y ++ [stop]
  end.

Definition linspace (start stop : float) (num : Z) : result (list float) :=
  if (num <? 0)%Z then Err (builtin_exn ValueError)
  else
    let div := (num - 1)%Z in
    let delta := (stop - start)%float in
    let y := arange num in
    let y :=
      if (0 <? div)%Z then
        let step := (delta / float_of_Z div)%float in
        if (step =? 0)%float
        then map (fun v => (v / float_of_Z div * delta)%float) y
        else map (fun v => (v * step)%float) y
      else map (fun v => (v * delta)%float) y in
    let y := map (fun v => (v + start)%float) y in
    Ok (if (1 <? num)%Z then set_last y stop else y).

End Numpy.

(** ** [app/core/node_registry.py] and [app/engine/graph_engine.py] *)

Module Engine.
Import Py State Exec Nodes Solver.

(** The registry of node classes. *)
Definition _REGISTRY : Dict.t NodeClass :=
  [("motor", MotorNode); ("heater", HeaterNode); ("hydraulic", HydraulicNode);
   ("formula", FormulaNode); ("sweep", SweepNode)].

Definition get_node_class (registry : Dict.t NodeClass) (type_name : string)
    : result NodeClass :=
  match Dict.get registry type_name with
  | Some c => Ok c
  | None =>
      Err (Exn KeyError
               [Lit "Unknown node type "; ReprStr type_name;
                Lit ". Registered types: "; ReprList (Dict.keys registry)]
               None)
  end.

Definition create_node (registry : Dict.t NodeClass) (type_name node_id label : string)
    (params : option (Dict.t param)) (inputs outputs : option (list string))
    : result BaseNode :=
  bind (get_node_class registry type_name) (fun c =>
  Ok (new_node c node_id label params inputs outputs)).

(** The React Flow description. A key that the parser reads with
    [d[key]] is required ([KeyError] without it), one it reads with
    [d.get(key, default)] is optional. *)
Record RawData := mkData {
  d_label : option string;
  d_params : option (Dict.t param);
  d_inputs : option (list string);
  d_outputs : option (list string)
}.

Record RawNode := mkRawNode {
  rn_id : option string;
  rn_type : option string;
  rn_data : option RawData
}.

Record RawEdge := mkRawEdge {
  re_source : option string;
  re_target : option string
}.

Record GraphJson := mkGraphJson {
  gj_nodes : option (list RawNode);
  gj_edges : option (list RawEdge)
}.

Definition required (field : option string) : result string :=
  match field with
  | Some s => Ok s
  | None => Err (builtin_exn KeyError)
  end.

Definition parse_node (registry : Dict.t NodeClass) (rn : RawNode)
    : result (string * BaseNode) :=
  bind (required (rn_id rn)) (fun node_id =>
  let node_type := match rn_type rn with Some t => t | None => "formula" end in
  let data := match rn_data rn with
              | Some d => d
              | None => mkData None None None None
              end in
  bind (create_node registry node_type node_id
          (match d_label data with Some l => l | None => "" end)
          (Some (match d_params data with Some p => p | None => [] end))
          (Some (match d_inputs data with Some l => l | None => [] end))
          (Some (match d_outputs data with Some l => l | None => [] end)))
       (fun node => Ok (node_id, node))).

Fixpoint parse_nodes (registry : Dict.t NodeClass) (raw : list RawNode)
    (nodes : Dict.t BaseNode) : result (Dict.t BaseNode) :=
  match raw with
  | [] => Ok nodes
  | rn :: raw' =>
      bind (parse_node registry rn) (fun entry =>
      parse_nodes registry raw' (Dict.set nodes (fst entry) (snd entry)))
  end.

Fixpoint parse_edges (raw : list RawEdge) (edges : list (string * string))
    : result (list (string * string)) :=
  match raw with
  | [] => Ok edges
  | re_ :: raw' =>
      bind (required (re_source re_)) (fun source =>
      bind (required (re_target re_)) (fun target =>
      parse_edges raw' (edges ++ [(source, target)])))
  end.

(** [GraphEngine._parse_graph]: the node map and the edge list it leaves
    in [self._nodes] and [self._edges]. *)
Definition _parse_graph (registry : Dict.t NodeClass) (graph_json : GraphJson)
    : result (Dict.t BaseNode * list (string * string)) :=
  let raw_nodes := match gj_nodes graph_json with Some l => l | None => [] end in
  let raw_edges := match gj_edges graph_json with Some l => l | None => [] end in
  bind (parse_nodes registry raw_nodes []) (fun nodes =>
  bind (parse_edges raw_edges []) (fun edges =>
  Ok (nodes, edges))).

(** Code of the engine: it creates its stores itself, so only the ghost
    record of invocations is threaded. *)
Definition E (A : Type) := list string -> result A * list string.

Record SolveResult := mkSolveResult {
  sr_state : Dict.t float;
  sr_execution_order : list string;
  sr_node_count : nat;
  sr_edge_count : nat
}.

(** [GraphEngine.run] *)
Definition run (rt : PyRuntime) (solver : DAGSolver) (registry : Dict.t NodeClass)
    (graph_json : GraphJson) (initial_state : option (Dict.t float))
    : E SolveResult :=
  fun inv =>
    match _parse_graph registry graph_json with
    | Err e => (Err e, inv)
    | Ok (nodes, edges) =>
        let state := State.init initial_state in
        match solve rt solver nodes edges (mkMachine state inv) with
        | (Ok execution_order, m) =>
            (Ok (mkSolveResult (to_dict (store m)) execution_order
                               (List.length nodes) (List.length edges)),
             invoked m)
        | (Err e, m) => (Err e, invoked m)
        end
    end.

(** [SweepNode.get_sweep_range] *)
Definition get_sweep_range (rt : PyRuntime) (self : BaseNode)
    : result (list float) :=
  bind (min_val rt self) (fun lo =>
  bind (max_val rt self) (fun hi =>
  bind (steps rt self) (fun n =>
  Numpy.linspace lo hi n))).

(** One turn of [for val in sweep_values]: the value to append to
    [results]. *)
Definition sweep_sample (rt : PyRuntime) (solver : DAGSolver)
    (nodes : Dict.t BaseNode) (edges : list (string * string))
    (sweep_node : BaseNode) (initial_state : option (Dict.t float))
    (val : float) : E float :=
  fun inv =>
    let state := State.init initial_state in
    match sweep_var sweep_node with
    | Err e => (Err e, inv)
    | Ok name =>
        let state := State.set state name val in
        match solve rt solver nodes edges (mkMachine state inv) with
        | (Err e, m) => (Err e, invoked m)
        | (Ok _, m) =>
            match output_var sweep_node with
            | Err e => (Err e, invoked m)
            | Ok out => (Ok (get0 (store m) out), invoked m)
            end
        end
    end.

Fixpoint sweep_loop (rt : PyRuntime) (solver : DAGSolver)
    (nodes : Dict.t BaseNode) (edges : list (string * string))
    (sweep_node : BaseNode) (initial_state : option (Dict.t float))
    (sweep_values : list float) (results : list float) : E (list float) :=
  fun inv =>
    match sweep_values with
    | [] => (Ok results, inv)
    | val :: rest =>
        match sweep_sample rt solver nodes edges sweep_node initial_state val inv with
        | (Err e, inv') => (Err e, inv')
        | (Ok output_val, inv') =>
            sweep_loop rt solver nodes edges sweep_node initial_state rest
                       (results ++ [output_val]) inv'
        end
    end.

Record SweepResult := mkSweepResult {
  sw_sweep_var : string;
  sw_output_var : string;
  sw_sweep_values : list float;
  sw_signature_vector : list float;
  sw_steps : nat
}.

Definition sweep_not_found (sweep_node_id : string) : exn :=
  Exn KeyError [Lit "Sweep node "; ReprStr sweep_node_id; Lit " not found."] None.

Definition not_a_sweep_node (sweep_node_id : string) (c : NodeClass) : exn :=
  Exn TypeError
      [Lit "Node "; ReprStr sweep_node_id; Lit " is "; Lit (class_name c);
       Lit ", not a SweepNode."]
      None.

(** [isinstance(node, SweepNode)] *)
Definition is_sweep_node (node : BaseNode) : bool :=
  match cls node with SweepNode => true | _ => false end.

(** [GraphEngine.run_sweep] *)
Definition run_sweep (rt : PyRuntime) (solver : DAGSolver)
    (registry : Dict.t NodeClass) (graph_json : GraphJson)
    (sweep_node_id : string) (initial_state : option (Dict.t float))
    : E SweepResult :=
  fun inv =>
    match _parse_graph registry graph_json with
    | Err e => (Err e, inv)
    | Ok (nodes, edges) =>
        match Dict.get nodes sweep_node_id with
        | None => (Err (sweep_not_found sweep_node_id), inv)
        | Some sweep_node =>
            if negb (is_sweep_node sweep_node)
            then (Err (not_a_sweep_node sweep_node_id (cls sweep_node)), inv)
            else
              match get_sweep_range rt sweep_node with
              | Err e => (Err e, inv)
              | Ok sweep_values =>
                  match sweep_loop rt solver nodes edges sweep_node
                                   initial_state sweep_values [] inv with
                  | (Err e, inv') => (Err e, inv')
                  | (Ok results, inv') =>
                      match sweep_var sweep_node, output_var sweep_node with
                      | Ok sv, Ok ov =>
                          (Ok (mkSweepResult sv ov sweep_values results
                                             (List.length sweep_values)), inv')
                      | Err e, _ => (Err e, inv')
                      | _, Err e => (Err e, inv')
                      end
                  end
              end
        end
    end.

End Engine.

(** ** More of the sources *)

Module StateOps.
Import State.

(** [SystemState.__len__] *)
Definition len (s : SystemState) : nat := List.length (_variables s).

(** [SystemState.__contains__] *)
Definition contains (s : SystemState) (name : string) : bool :=
  Dict.contains (_variables s) name.

End StateOps.

(** [app/core/node_registry.py]: the registry is a dictionary from type
    names to node classes; [Engine._REGISTRY] is its initial content. *)

Module Registry.
Import Py Nodes Engine.

Definition register_node_type (registry : Dict.t NodeClass)
    (type_name : string) (cls : NodeClass) : Dict.t NodeClass :=
  Dict.set registry type_name cls.

Definition list_node_types (registry : Dict.t NodeClass) : list string :=
  Dict.keys registry.

End Registry.

Module EngineMore.
Import Py Nodes DiGraph Kahn Solver Engine.

(** [GraphEngine.get_execution_order], for the [DAGSolver] the engine is
    built with: the graph is built as [_build_graph] builds it and sorted,
    nothing is computed. *)
Definition get_execution_order (registry : Dict.t NodeClass)
    (graph_json : GraphJson) : result (list string) :=
  bind (_parse_graph registry graph_json) (fun parsed =>
  let g := add_edges_from (add_nodes_from DiGraph.empty (Dict.keys (fst parsed)))
                          (snd parsed) in
  Ok (_kahns_sort g)).

End EngineMore.

Module NodeSpec.
Import Nodes.


End NodeSpec.

(** ** [app/fault/signature_store.py] and [app/fault/comparator.py] *)

Module Fault.
Import Py.

(** [d.pop(k, None)] *)
Fixpoint pop {V : Type} (d : Dict.t V) (k : string) : Dict.t V :=
  match d with
  | [] => []
  | (k', v) :: d' => if String.eqb k' k then d' else (k', v) :: pop d' k
  end.

(** The entries of [compute_residual] and of [comparisons]. *)
Record ResidualInfo := mkResidual {
  residual_vector : list float;
  max_residual : float;
  mean_residual : float;
  rms_residual : float
}.

Record Comparison := mkComparison {
  c_signature : string;
  c_euclidean_distance : float;
  c_cosine_similarity : float;
  c_max_residual : float;
  c_rms_residual : float
}.

(** What the embedding takes from numpy and from [sorted]: the
    reductions of a one-dimensional array of float64 (their results
    depend on the order in which numpy adds or compares the elements),
    the squares of its elements, and the order [sorted] gives to a list
    with float keys. [amax] and [amin] are asked for non-empty arrays
    only, [dot] for arrays of the same length. *)
Record NpRuntime := {
  linalg_norm : list float -> float;
  dot : list float -> list float -> float;
  mean : list float -> float;
  amax : list float -> float;
  amin : list float -> float;
  square : list float -> list float;
  sorted_by_distance : list Comparison -> list Comparison
}.

(** [np.max(a)] and [a.min()]: a reduction of an array without elements
    raises [ValueError]. *)
Definition np_max (np : NpRuntime) (a : list float) : result float :=
  match a with
  | [] => Err (builtin_exn ValueError)
  | _ :: _ => Ok (amax np a)
  end.

Definition np_min (np : NpRuntime) (a : list float) : result float :=
  match a with
  | [] => Err (builtin_exn ValueError)
  | _ :: _ => Ok (amin np a)
  end.

(** [a - b] of two one-dimensional arrays: element by element when the
    lengths agree, an array of one element is stretched, any other pair
    of lengths raises [ValueError]. *)
Definition np_sub (a b : list float) : result (list float) :=
  if Nat.eqb (List.length a) (List.length b)
  then Ok (map (fun p => (fst p - snd p)%float) (combine a b))
  else match a, b with
       | [x], _ => Ok (map (fun y => (x - y)%float) b)
       | _, [y] => Ok (map (fun x => (x - y)%float) a)
       | _, _ => Err (builtin_exn ValueError)
       end.

(** [np.dot(a, b)] of two one-dimensional arrays *)
Definition np_dot (np : NpRuntime) (a b : list float) : result float :=
  if Nat.eqb (List.length a) (List.length b)
  then Ok (dot np a b)
  else Err (builtin_exn ValueError).

Section WithMetadata.

(** The values of a metadata dictionary. *)
Variable Any : Type.

Record SignatureStore := mkStore {
  _library : Dict.t (list float);
  _metadata : Dict.t (Dict.t Any)
}.

(** [SignatureStore()] *)
Definition new_store : SignatureStore := mkStore [] [].

(** [add]; the vector is a list of floats, of which [np.asarray] makes
    the array of the same numbers. *)
Definition add (self : SignatureStore) (name : string) (vector : list float)
    (metadata : option (Dict.t Any)) : SignatureStore :=
  mkStore (Dict.set (_library self) name vector)
          (Dict.set (_metadata self) name
                    (match metadata with
                     | Some ((_ :: _) as d) => d
                     | _ => []
                     end)).

Definition not_in_store (name : string) : exn :=
  Exn KeyError [Lit "Signature "; ReprStr name; Lit " not in store."] None.

Definition get (self : SignatureStore) (name : string) : result (list float) :=
  match Dict.get (_library self) name with
  | Some vector => Ok vector
  | None => Err (not_in_store name)
  end.

Definition remove (self : SignatureStore) (name : string) : SignatureStore :=
  mkStore (pop (_library self) name) (pop (_metadata self) name).

Record Summary := mkSummary {
  s_name : string;
  s_length : nat;
  s_min : float;
  s_max : float;
  s_metadata : Dict.t Any
}.

(** The list comprehension of [list_all], entry by entry. *)
Fixpoint summaries (np : NpRuntime) (metadata : Dict.t (Dict.t Any))
    (items : list (string * list float)) : result (list Summary) :=
  match items with
  | [] => Ok []
  | (name, vec) :: rest =>
      bind (np_min np vec) (fun lo =>
      bind (np_max np vec) (fun hi =>
      bind (summaries np metadata rest) (fun tail =>
      Ok (mkSummary name (List.length vec) lo hi
                    (Dict.get_default metadata name []) :: tail))))
  end.

Definition list_all (np : NpRuntime) (self : SignatureStore)
    : result (list Summary) :=
  summaries np (_metadata self) (_library self).

Definition get_library (self : SignatureStore) : Dict.t (list float) :=
  Dict.copy (_library self).

(** [len(store)] and [name in store] *)
Definition len (self : SignatureStore) : nat := List.length (_library self).

Definition contains (self : SignatureStore) (name : string) : bool :=
  Dict.contains (_library self) name.

End WithMetadata.

(** [FaultComparator.euclidean_distance] *)
Definition euclidean_distance (np : NpRuntime) (a b : list float)
    : result float :=
  bind (np_sub a b) (fun d => Ok (linalg_norm np d)).

(** [FaultComparator.cosine_similarity] *)
Definition cosine_similarity (np : NpRuntime) (a b : list float)
    : result float :=
  bind (np_dot np a b) (fun d =>
  let norm_a := linalg_norm np a in
  let norm_b := linalg_norm np b in
  if (norm_a =? 0)%float || (norm_b =? 0)%float then Ok 0%float
  else Ok (d / (norm_a * norm_b))%float).

(** [FaultComparator.compute_residual] *)
Definition compute_residual (np : NpRuntime) (live predicted : list float)
    : result ResidualInfo :=
  bind (np_sub live predicted) (fun residual =>
  bind (np_max np (map abs residual)) (fun hi =>
  Ok (mkResidual residual hi (mean np (map abs residual))
                 (sqrt (mean np (square np residual)))))).

(** The response of [diagnose]: the dictionary it returns for an empty
    library, or the one it returns after the comparison. *)
Inductive Diagnosis :=
| NoSignatures
| Diagnosed (closest_signature : string) (distance : float)
            (cosine_sim : float) (residual : ResidualInfo)
            (fault_detected : bool) (all_comparisons : list Comparison).

(** The entry [fault_detected] of a response. *)
Definition fault_detected_of (d : Diagnosis) : bool :=
  match d with
  | NoSignatures => true
  | Diagnosed _ _ _ _ fault _ => fault
  end.

(** [score = euc if method == "euclidean" else (1.0 - cos)] *)
Definition score_of (method : string) (euc cos : float) : float :=
  if String.eqb method "euclidean" then euc else (1 - cos)%float.

(** [for name, stored in library.items()], with the comparisons made so
    far and the best match so far. *)
Fixpoint compare_all (np : NpRuntime) (live : list float) (method : string)
    (items : list (string * list float)) (comparisons : list Comparison)
    (best_name : option string) (best_score : float)
    : result (list Comparison * option string * float) :=
  match items with
  | [] => Ok (comparisons, best_name, best_score)
  | (name, stored) :: rest =>
      let min_len := Nat.min (List.length live) (List.length stored) in
      let l_vec := firstn min_len live in
      let s_vec := firstn min_len stored in
      bind (euclidean_distance np l_vec s_vec) (fun euc =>
      bind (cosine_similarity np l_vec s_vec) (fun cos =>
      bind (compute_residual np l_vec s_vec) (fun res =>
      let score := score_of method euc cos in
      let comparisons :=
        comparisons ++ [mkComparison name euc cos (max_residual res)
                                     (rms_residual res)] in
      if (score <? best_score)%float
      then compare_all np live method rest comparisons (Some name) score
      else compare_all np live method rest comparisons best_name best_score)))
  end.

(** [FaultComparator.diagnose]; [library[best_name]] raises [KeyError]
    when no signature was chosen. *)
Definition diagnose (Any : Type) (np : NpRuntime) (store : SignatureStore Any)
    (live_vector : list float) (threshold : float) (method : string)
    : result Diagnosis :=
  let live := live_vector in
  let library := get_library store in
  match library with
  | [] => Ok NoSignatures
  | _ :: _ =>
      bind (compare_all np live method library [] None infinity)
        (fun found =>
      let comparisons := fst (fst found) in
      let best_score := snd found in
      match snd (fst found) with
      | None => Err (builtin_exn KeyError)
      | Some best_name =>
          match Dict.get library best_name with
          | None => Err (builtin_exn KeyError)
          | Some best_stored =>
              let min_len :=
                Nat.min (List.length live) (List.length best_stored) in
              bind (compute_residual np (firstn min_len live)
                                     (firstn min_len best_stored))
                (fun residual_info =>
              let fault_detected :=
                (threshold <? max_residual residual_info)%float in
              bind (cosine_similarity np (firstn min_len live)
                                      (firstn min_len best_stored))
                (fun cos =>
              Ok (Diagnosed best_name best_score cos residual_info
                            fault_detected
                            (sorted_by_distance np comparisons))))
          end
      end)
  end.

End Fault.

Module FaultSpec.
Import Py Fault.

(** The stores that [add] and [remove] make from an empty one. *)
Inductive reachable (Any : Type) : SignatureStore Any -> Prop :=
| reach_new : reachable (new_store Any)
| reach_add self name vector metadata :
    reachable self -> reachable (add self name vector metadata)
| reach_remove self name :
    reachable self -> reachable (remove self name).

(** The score [diagnose] gives to a stored vector. *)
Definition score (np : NpRuntime) (live : list float) (method : string)
    (stored : list float) : result float :=
  let min_len := Nat.min (List.length live) (List.length stored) in
  bind (euclidean_distance np (firstn min_len live) (firstn min_len stored))
       (fun euc =>
  bind (cosine_similarity np (firstn min_len live) (firstn min_len stored))
       (fun cos => Ok (score_of method euc cos))).

End FaultSpec.

Module FaultSamples.
Import Py Fault.

(** A stable sort by the distance, by insertion from the right. *)
Fixpoint insert_by_distance (x : Comparison) (l : list Comparison)
    : list Comparison :=
  match l with
  | [] => [x]
  | y :: l' =>
      if (c_euclidean_distance y <? c_euclidean_distance x)%float
      then y :: insert_by_distance x l'
      else x :: l
  end.

(** Reductions that go through the array from left to right; a value
    that is not a number, once met, is the maximum and the minimum. *)
Definition sample_np : NpRuntime :=
  {| linalg_norm := fun a =>
       sqrt (fold_left (fun acc x => (acc + x * x)%float) a 0%float);
     dot := fun a b =>
       fold_left (fun acc p => (acc + fst p * snd p)%float) (combine a b)
                 0%float;
     mean := fun a =>
       (fold_left (fun acc x => (acc + x)%float) a 0%float
        / float_of_Z (Z.of_nat (List.length a)))%float;
     amax := fun a =>
       fold_left (fun acc x =>
                    if (acc <? x)%float || is_nan x then x else acc)
                 (tl a) (hd 0%float a);
     amin := fun a =>
       fold_left (fun acc x =>
                    if (x <? acc)%float || is_nan x then x else acc)
                 (tl a) (hd 0%float a);
     square := map (fun x => (x * x)%float);
     sorted_by_distance := fold_right insert_by_distance [] |}.

(** The store of [test_diagnose_no_fault]. *)
Definition two_signatures : SignatureStore string :=
  add (add (new_store string) "normal" [1; 2; 3; 4; 5]%float None)
      "fault_a" [10; 20; 30; 40; 50]%float None.

End FaultSamples.

(** ** Notions the properties are stated with *)

Module Spec.
Import DiGraph.

(** [u] occurs before [v] in [l] (so both occur, and [index u < index v]
    when neither is repeated). *)
Definition before (u v : string) (l : list string) : Prop :=
  exists l1 l2 l3, l = l1 ++ u :: l2 ++ v :: l3.

(** [index(x)] in a list, as Python's [list.index]. *)
Fixpoint index (x : string) (l : list string) : option nat :=
  match l with
  | [] => None
  | y :: l' => if String.eqb y x then Some O else option_map S (index x l')
  end.

(** Consecutive elements of [l] are joined by edges of [g]. *)
Fixpoint chain (g : t) (l : list string) : Prop :=
  match l with
  | [] => True
  | u :: l' =>
      match l' with
      | [] => True
      | v :: _ => has_edge g u v = true /\ chain g l'
      end
  end.

(** The adjacency dictionary is one networkx maintains: no node and no
    successor is repeated, and every successor is a node. *)
Record wf (g : t) : Prop := {
  wf_nodes : NoDup (nodes g);
  wf_succ_nodup : forall u, NoDup (successors g u);
  wf_closed : forall u v, has_edge g u v = true -> In v (nodes g)
}.

(** No closed walk of at most as many edges as the graph has nodes. *)
Definition acyclic (g : t) : Prop :=
  forall x l, chain g (x :: l ++ [x]) -> (List.length l < List.length (nodes g))%nat -> False.

(** The number of predecessors of [v] that are not in [done]. *)
Definition pending (g : t) (done : list string) (v : string) : nat :=
  List.length (filter (fun u => has_edge g u v && negb (mem u done)) (nodes g)).

(** What holds of the in-degrees, the queue and the result of Kahn's
    algorithm each time the [while] loop tests its queue. *)
Record kahn_inv (g : t) (in_degree : Dict.t Z) (queue result : list string)
    : Prop := {
  inv_deg : forall v, In v (nodes g) ->
      Dict.get in_degree v = Some (Z.of_nat (pending g result v));
  inv_queue : forall v, In v (nodes g) ->
      (In v (result ++ queue) <-> pending g result v = O);
  inv_nodup : NoDup (result ++ queue);
  inv_incl : forall v, In v (result ++ queue) -> In v (nodes g);
  inv_order : forall u v, has_edge g u v = true -> In v result ->
      before u v result
}.

End Spec.

(** ** Notions the properties of the cyclic block are stated with *)

Module BlockSpec.
Import Py State Exec Nodes DiGraph Solver.

(** The ids of a list that the node map knows: the nodes a loop of the
    solver over the list computes. *)
Definition known (nodes : Dict.t BaseNode) (ids : list string) : list string :=
  filter (Dict.contains nodes) ids.

(** One pass over the cycle: every known node of [cycle_order] once. *)
Definition pass (rt : PyRuntime) (nodes : Dict.t BaseNode)
    (cycle_order : list string) (m : Machine) : result (list string) * Machine :=
  run_nodes rt nodes cycle_order [] m.

(** The machine after [j] passes, when none of them raises. *)
Fixpoint after_passes (rt : PyRuntime) (nodes : Dict.t BaseNode)
    (cycle_order : list string) (j : nat) (m : Machine) : option Machine :=
  match j with
  | O => Some m
  | S j' =>
      match after_passes rt nodes cycle_order j' m with
      | Some mj =>
          match pass rt nodes cycle_order mj with
          | (Ok _, m') => Some m'
          | (Err _, _) => None
          end
      | None => None
      end
  end.

(** Pass number [j + 1] ended with the store within [threshold] of the
    snapshot taken before it. *)
Definition converged_at (rt : PyRuntime) (threshold : float)
    (nodes : Dict.t BaseNode) (cycle_order : list string) (j : nat)
    (m : Machine) : bool :=
  match after_passes rt nodes cycle_order j m,
        after_passes rt nodes cycle_order (S j) m with
  | Some before_, Some after_ =>
      (delta (store after_) (snapshot (store before_)) <? threshold)%float
  | _, _ => false
  end.

(** [k] copies of a list, one after the other. *)
Fixpoint repeat_list (l : list string) (k : nat) : list string :=
  match k with
  | O => []
  | S k' => l ++ repeat_list l k'
  end.

(** The number of predecessors of [n] among the nodes of [among]. *)
Definition in_degree_among (g : DiGraph.t) (among : list string) (n : string) : Z :=
  Z.of_nat (List.length
              (filter (fun u => has_edge g u n && mem u among) (nodes g))).

(** [l] is in ascending order of [key]. *)
Fixpoint ascending (key : string -> Z) (l : list string) : Prop :=
  match l with
  | [] => True
  | x :: l' => (forall y, In y l' -> (key x <= key y)%Z) /\ ascending key l'
  end.

End BlockSpec.

(** ** Notions the properties of the sweep are stated with *)

Module EngineSpec.
Import Py State Exec Nodes Solver Engine.


End EngineSpec.

(** ** Sample graphs (from the test-suite of the repository) *)

Module Samples.
Import Py State Exec Nodes Solver Engine.

(** The formulas of the samples, as Python parses them. *)
Definition sample_parse (text : string) : parsed :=
  if String.eqb text "1 + 1" then
    Fragment (BinOp (IntLit 1) Add (IntLit 1))
  else if String.eqb text "a_out * 2" then
    Fragment (BinOp (Name "a_out") Mult (IntLit 2))
  else if String.eqb text "b_out + 10" then
    Fragment (BinOp (Name "b_out") Add (IntLit 10))
  else if String.eqb text "0.5 * y_val + 1" then
    Fragment (BinOp (BinOp (FloatLit 0.5) Mult (Name "y_val")) Add (IntLit 1))
  else if String.eqb text "0.3 * x_val + 2" then
    Fragment (BinOp (BinOp (FloatLit 0.3) Mult (Name "x_val")) Add (IntLit 2))
  else if String.eqb text "42" then
    Fragment (IntLit 42)
  else if String.eqb text "0" then
    Fragment (IntLit 0)
  else if String.eqb text "sqrt(16) + pi" then
    Fragment (BinOp (Call (Name "sqrt") [IntLit 16]) Add (Name "pi"))
  else if String.eqb text "1 / 0" then
    Fragment (BinOp (IntLit 1) Div (IntLit 0))
  else if String.eqb text "undefined_name" then
    Fragment (Name "undefined_name")
  else if String.eqb text "sqrt(-1)" then
    Fragment (Call (Name "sqrt") [USub (IntLit 1)])
  else if String.eqb text "eval(1)" then
    Fragment (Call (Name "eval") [IntLit 1])
  else if String.eqb text "x_val.__class__" then
    Fragment (ClassOf (Name "x_val"))
  else if String.eqb text "x_val.__class__(7)" then
    Fragment (Call (ClassOf (Name "x_val")) [IntLit 7])
  else if String.eqb text "x_val + 10" then
    Fragment (BinOp (Name "x_val") Add (IntLit 10))
  else if String.eqb text "torque * 2" then
    Fragment (BinOp (Name "torque") Mult (IntLit 2))
  else
    Foreign (fun _ => Err (builtin_exn SyntaxError)).

(** [math.sqrt] and [abs]; the samples call no other function. *)
Definition sample_builtin (b : builtin) (args : list value) : result value :=
  match b, args with
  | b_sqrt, [v] =>
      bind (py_float v) (fun f =>
      if (f <? 0)%float then Err (builtin_exn ValueError)
      else Ok (VFloat (sqrt f)))
  | b_abs, [VInt z] => Ok (VInt (Z.abs z))
  | b_abs, [VFloat f] => Ok (VFloat (abs f))
  | _, _ => Err (builtin_exn TypeError)
  end.

Definition sample_view_perm (atlas keep : list string)
    : Permutation (filter (fun n => mem n keep) atlas)
                  (filter (fun n => mem n keep) atlas) :=
  Permutation_refl _.

(** A runtime that iterates sets and views in the order of their
    elements. *)
Definition sample_rt : PyRuntime :=
  {| py_parse := sample_parse;
     call_builtin := sample_builtin;
     big_truediv := fun _ _ => Err (builtin_exn OverflowError);
     float_of_str := fun _ => Err (builtin_exn ValueError);
     int_of_str := fun _ => Err (builtin_exn ValueError);
     set_iter := fun l => l;
     set_iter_perm := @Permutation_refl string;
     view_iter := fun atlas keep => filter (fun n => mem n keep) atlas;
     view_iter_perm := sample_view_perm |}.

Definition rev_perm (l : list string) : Permutation (rev l) l :=
  Permutation_sym (Permutation_rev l).

(** The same runtime, but one that iterates a set from its last element
    to its first. *)
Definition sample_rt_rev : PyRuntime :=
  {| py_parse := sample_parse;
     call_builtin := sample_builtin;
     big_truediv := fun _ _ => Err (builtin_exn OverflowError);
     float_of_str := fun _ => Err (builtin_exn ValueError);
     int_of_str := fun _ => Err (builtin_exn ValueError);
     set_iter := @rev string;
     set_iter_perm := rev_perm;
     view_iter := fun atlas keep => filter (fun n => mem n keep) atlas;
     view_iter_perm := sample_view_perm |}.

Definition formula (node_id expression : string) (inputs outputs : list string)
    : BaseNode :=
  new_node FormulaNode node_id "" (Some [("expression", PStr expression)])
           (Some inputs) (Some outputs).

(** [_make_simple_dag]: the chain A -> B -> C *)
Definition chain_nodes : Dict.t BaseNode :=
  [("A", formula "A" "1 + 1" [] ["a_out"]);
   ("B", formula "B" "a_out * 2" ["a_out"] ["b_out"]);
   ("C", formula "C" "b_out + 10" ["b_out"] ["c_out"])].

Definition chain_edges : list (string * string) := [("A", "B"); ("B", "C")].

(** [test_convergent_cycle]: X and Y in mutual feedback *)
Definition feedback_nodes : Dict.t BaseNode :=
  [("X", formula "X" "0.5 * y_val + 1" ["y_val"] ["x_val"]);
   ("Y", formula "Y" "0.3 * x_val + 2" ["x_val"] ["y_val"])].

Definition feedback_edges : list (string * string) := [("X", "Y"); ("Y", "X")].

Definition feedback_initial : SystemState :=
  State.init (Some [("x_val", 0%float); ("y_val", 0%float)]).



(** A node before the feedback loop of X and Y and a node after it. *)
Definition mixed_nodes : Dict.t BaseNode :=
  [("P", formula "P" "42" [] ["p_out"]);
   ("X", formula "X" "0.5 * y_val + 1" ["y_val"] ["x_val"]);
   ("Y", formula "Y" "0.3 * x_val + 2" ["x_val"] ["y_val"]);
   ("Q", formula "Q" "x_val + 10" ["x_val"] ["q_out"])].

Definition mixed_edges : list (string * string) :=
  [("P", "X"); ("X", "Y"); ("Y", "X"); ("Y", "Q")].

(** A formula node feeding a sweep node, as React Flow describes them. *)
Definition sweep_json : GraphJson :=
  mkGraphJson
    (Some
       [mkRawNode (Some "f1") (Some "formula")
          (Some (mkData (Some "Total")
                        (Some [("expression", PStr "torque * 2")])
                        (Some ["torque"]) (Some ["total_current"])));
        mkRawNode (Some "sw") (Some "sweep")
          (Some (mkData None
                        (Some [("sweep_var", PStr "torque");
                               ("output_var", PStr "total_current");
                               ("min_val", PFloat 1); ("max_val", PFloat 10);
                               ("steps", PInt 4)])
                        None None))])
    (Some [mkRawEdge (Some "f1") (Some "sw")]).

Definition start (s : SystemState) : Machine := mkMachine s [].

Definition empty_state : SystemState := State.init None.

End Samples.

Module MoreSamples.
Import Py State Exec Nodes Solver Engine Samples.




(** A node in a loop with itself that writes the value its output has. *)
Definition constant_nodes : Dict.t BaseNode :=
  [("B", formula "B" "42" [] ["b_out"])].

Definition constant_initial : SystemState :=
  State.init (Some [("b_out", 42%float)]).

(** A sweep node alone, asked for no sample at all. *)
Definition empty_sweep_json : GraphJson :=
  mkGraphJson
    (Some
       [mkRawNode (Some "sw") (Some "sweep")
          (Some (mkData None
                        (Some [("sweep_var", PStr "torque");
                               ("output_var", PStr "total_current");
                               ("steps", PInt 0)])
                        None None))])
    None.

(** Two declarations of the id [n1], the second one without a type. *)
Definition repeated_json : GraphJson :=
  mkGraphJson
    (Some
       [mkRawNode (Some "n1") (Some "motor") None;
        mkRawNode (Some "n2") (Some "heater") None;
        mkRawNode (Some "n1") None
          (Some (mkData (Some "Again") None None None))])
    (Some [mkRawEdge (Some "n1") (Some "n2");
           mkRawEdge (Some "n1") (Some "n2")]).

End MoreSamples.

Module ParseSpec.
Import Py Nodes Engine.

(** [graph_json.get("nodes", [])] and [graph_json.get("edges", [])] *)
Definition raw_nodes (graph_json : GraphJson) : list RawNode :=
  match gj_nodes graph_json with Some l => l | None => [] end.

Definition raw_edges (graph_json : GraphJson) : list RawEdge :=
  match gj_edges graph_json with Some l => l | None => [] end.

(** [rn.get("type", "formula")] *)
Definition type_of_raw (rn : RawNode) : string :=
  match rn_type rn with Some t => t | None => "formula" end.

(** A raw node with an id and a registered type; a raw edge with both
    of its ends. *)
Definition node_ok (registry : Dict.t NodeClass) (rn : RawNode) : bool :=
  match rn_id rn with
  | Some _ => Dict.contains registry (type_of_raw rn)
  | None => false
  end.

Definition edge_ok (re_ : RawEdge) : bool :=
  match re_source re_, re_target re_ with
  | Some _, Some _ => true
  | _, _ => false
  end.

End ParseSpec.

(* ================================================================== *)
(** * Properties *)
(* ================================================================== *)

Unset Implicit Arguments.

(** ** Facts on dictionaries *)

Module DictFacts.
Section WithValue.
Variable V : Type.
Implicit Types (d : Dict.t V) (k : string) (v : V).

Lemma get_some_in_keys d k v :
    Dict.get d k = Some v -> In k (Dict.keys d).
Proof.
    induction d as [|[k' v'] d IH]; simpl; [discriminate|].
    destruct (String.eqb_spec k' k) as [->|Hne]; intros H.
    - now left.
    - right. now apply IH.
Qed.

Lemma in_keys_get d k :
    In k (Dict.keys d) -> exists v, Dict.get d k = Some v.
Proof.
    induction d as [|[k' v'] d IH]; simpl; [tauto|].
    destruct (String.eqb_spec k' k) as [->|Hne]; intros H.
    - now exists v'.
    - destruct H as [H|H]; [congruence|]. now apply IH.
Qed.

Lemma get_set_same d k v : Dict.get (Dict.set d k v) k = Some v.
Proof.
    induction d as [|[k' v'] d IH]; simpl.
    - now rewrite String.eqb_refl.
    - destruct (String.eqb_spec k' k) as [->|Hne]; simpl.
      + now rewrite String.eqb_refl.
      + destruct (String.eqb_spec k' k); [congruence|]. exact IH.
Qed.

Lemma get_set_other d k k' v :
    k' <> k -> Dict.get (Dict.set d k v) k' = Dict.get d k'.
Proof.
    intros Hne. induction d as [|[k0 v0] d IH]; simpl.
    - destruct (String.eqb_spec k k'); [congruence|reflexivity].
    - destruct (String.eqb_spec k0 k) as [->|Hk]; simpl.
      + destruct (String.eqb_spec k k'); [congruence|reflexivity].
      + destruct (String.eqb_spec k0 k'); [reflexivity|exact IH].
Qed.

Lemma contains_true_iff d k :
    Dict.contains d k = true <-> In k (Dict.keys d).
Proof.
    unfold Dict.contains. split.
    - destruct (Dict.get d k) eqn:E; [|discriminate].
      intros _. eapply get_some_in_keys; eauto.
    - intros H. apply in_keys_get in H as [v ->]. reflexivity.
Qed.
End WithValue.
End DictFacts.

Lemma mem_true_iff x xs : mem x xs = true <-> In x xs.
Proof.
  unfold mem. rewrite existsb_exists. split.
  - intros [y [Hy E]]. apply String.eqb_eq in E. now subst.
  - intros H. exists x. split; [assumption|apply String.eqb_refl].
Qed.

Lemma mem_false_iff x xs : mem x xs = false <-> ~ In x xs.
Proof.
  rewrite <- mem_true_iff. destruct (mem x xs); split; congruence.
Qed.

(** ** Facts on binary64 comparison *)

Module FloatFacts.

Lemma pos_compare_cont_Eq p q : Pos.compare_cont Eq p q = Pos.compare p q.
Proof. reflexivity. Qed.

(** The strict order of the specification floats is transitive. *)
Lemma SFcompare_lt_trans x y z :
    SFcompare x y = Some Lt -> SFcompare y z = Some Lt ->
    SFcompare x z = Some Lt.
Proof.
    destruct x as [[]|[]| |[] mx ex], y as [[]|[]| |[] my ey],
             z as [[]|[]| |[] mz ez];
      simpl; try discriminate; try reflexivity; intros Hxy Hyz;
      rewrite ?pos_compare_cont_Eq in *;
      destruct (Z.compare_spec ex ey), (Z.compare_spec ey ez),
               (Z.compare_spec ex ez);
      subst; try lia; try discriminate; try reflexivity;
      destruct (Pos.compare_spec mx my), (Pos.compare_spec my mz),
               (Pos.compare_spec mx mz);
      subst; simpl in *; try lia; try discriminate; try reflexivity.
Qed.

Lemma SFcompare_lt_irrefl x : SFcompare x x <> Some Lt.
Proof.
    destruct x as [[]|[]| |[] m e]; simpl; try discriminate;
      rewrite Z.compare_refl, pos_compare_cont_Eq, Pos.compare_refl;
      discriminate.
Qed.

Lemma ltb_true_compare (x y : float) :
    (x <? y)%float = true <-> SFcompare (Prim2SF x) (Prim2SF y) = Some Lt.
Proof.
    rewrite ltb_spec. unfold SFltb.
    destruct (SFcompare (Prim2SF x) (Prim2SF y)) as [[]|]; split;
      congruence.
Qed.

Lemma ltb_trans (x y z : float) :
    (x <? y)%float = true -> (y <? z)%float = true -> (x <? z)%float = true.
Proof.
    rewrite !ltb_true_compare. apply SFcompare_lt_trans.
Qed.

Lemma ltb_irrefl (x : float) : (x <? x)%float = false.
Proof.
    destruct (x <? x)%float eqn:E; [|reflexivity].
    apply ltb_true_compare in E. now apply SFcompare_lt_irrefl in E.
Qed.

(** Nothing is above the positive infinity. *)
Lemma infinity_not_ltb (x : float) : (infinity <? x)%float = false.
Proof.
    rewrite ltb_spec. unfold SFltb.
    change (Prim2SF infinity) with (S754_infinity false).
    destruct (Prim2SF x) as [[]|[]| |[] m e]; reflexivity.
Qed.

(** Raising the running maximum keeps it above what it was above. *)
Lemma ltb_false_raise (m m' d : float) :
    (m <? d)%float = false -> (m <? m')%float = true ->
    (m' <? d)%float = false.
Proof.
    intros Hmd Hmm'. destruct (m' <? d)%float eqn:E; [|reflexivity].
    rewrite (ltb_trans _ _ _ Hmm' E) in Hmd. discriminate.
Qed.

End FloatFacts.

(** ** The variable store *)

Module StateFacts.
Import State StateSpec FloatFacts.

Section Delta.
Variables (s : SystemState) (prev : Dict.t float).

Lemma delta_step_cases m k :
      delta_step s prev m k = m \/
      exists b, Dict.get prev k = Some b /\ (m <? diff_at s k b)%float = true
                /\ delta_step s prev m k = diff_at s k b.
Proof.
      unfold delta_step, diff_at. destruct (Dict.get prev k) as [b|]; [|now left].
      destruct (m <? abs (get0 s k - b))%float eqn:E; [right|now left].
      exists b. repeat split; assumption.
Qed.

Lemma delta_step_keeps_bound m k d :
      (m <? d)%float = false -> (delta_step s prev m k <? d)%float = false.
Proof.
      intros H. destruct (delta_step_cases m k) as [->|[b [_ [Hlt ->]]]].
      - exact H.
      - exact (ltb_false_raise _ _ _ H Hlt).
Qed.

Lemma delta_fold_keeps_bound ks : forall m d,
      (m <? d)%float = false ->
      (fold_left (delta_step s prev) ks m <? d)%float = false.
Proof.
      induction ks as [|k ks IH]; simpl; intros m d H; [exact H|].
      apply IH. now apply delta_step_keeps_bound.
Qed.

Lemma delta_step_bounds_key m k b :
      Dict.get prev k = Some b ->
      (delta_step s prev m k <? diff_at s k b)%float = false.
Proof.
      intros Hb. unfold delta_step. rewrite Hb. fold (diff_at s k b).
      destruct (m <? diff_at s k b)%float eqn:E; [apply ltb_irrefl|exact E].
Qed.

Lemma delta_fold_upper ks : forall m k b,
      In k ks -> Dict.get prev k = Some b ->
      (fold_left (delta_step s prev) ks m <? diff_at s k b)%float = false.
Proof.
      induction ks as [|k0 ks IH]; simpl; intros m k b Hin Hb; [contradiction|].
      destruct Hin as [->|Hin].
      - apply delta_fold_keeps_bound. now apply delta_step_bounds_key.
      - now apply IH.
Qed.

Lemma delta_fold_attained ks : forall m,
      fold_left (delta_step s prev) ks m = m \/
      exists k b, In k ks /\ Dict.get prev k = Some b /\
                  fold_left (delta_step s prev) ks m = diff_at s k b.
Proof.
      induction ks as [|k0 ks IH]; simpl; intros m; [now left|].
      destruct (IH (delta_step s prev m k0)) as [E|[k [b [Hin [Hb E]]]]].
      - rewrite E. destruct (delta_step_cases m k0) as [->|[b [Hb [_ ->]]]].
        + now left.
        + right. exists k0, b. auto.
      - right. exists k, b. auto.
Qed.
End Delta.

Lemma get0_of_get s k a :
    Dict.get (_variables s) k = Some a -> get0 s k = a.
Proof.
    intros H. unfold get0, get, Dict.get_default. now rewrite H.
Qed.

(** C5. [delta] against an empty snapshot is the positive infinity, which
      is below no threshold; against a non-empty snapshot it is the largest
      absolute difference over the keys of both dictionaries: no such
      difference exceeds it, and it is one of them, or [0.0] when none is
      positive (or no key is shared). *)
Theorem delta_is_max_over_shared_keys (s : SystemState) (previous : Dict.t float) :
    match previous with
    | [] =>
        delta s previous = infinity /\
        forall threshold, (delta s previous <? threshold)%float = false
    | _ :: _ =>
        (forall k a b,
            Dict.get (_variables s) k = Some a ->
            Dict.get previous k = Some b ->
            (delta s previous <? abs (a - b))%float = false) /\
        (delta s previous = 0%float \/
         exists k a b,
           Dict.get (_variables s) k = Some a /\
           Dict.get previous k = Some b /\
           delta s previous = abs (a - b))
    end.
Proof.
    destruct previous as [|e p].
    - split; [reflexivity|]. intros t. apply infinity_not_ltb.
    - set (prev := e :: p). unfold delta. fold prev. split.
      + intros k a b Ha Hb.
        rewrite <- (get0_of_get _ _ _ Ha). fold (diff_at s k b).
        apply delta_fold_upper; [|exact Hb].
        eapply DictFacts.get_some_in_keys; eauto.
      + destruct (delta_fold_attained s prev (Dict.keys (_variables s)) 0%float)
          as [E|[k [b [Hin [Hb E]]]]]; [now left|right].
        destruct (DictFacts.in_keys_get _ _ _ Hin) as [a Ha].
        exists k, a, b. repeat split; try assumption.
        rewrite E. unfold diff_at. now rewrite (get0_of_get _ _ _ Ha).
Qed.

End StateFacts.

(** ** Lists *)

Module ListFacts.

Lemma length_filter_remove (l : list string) (x : string) (p : string -> bool) :
  NoDup l -> In x l ->
  (List.length (filter (fun y => p y && negb (String.eqb y x)) l)
   + (if p x then 1 else 0) = List.length (filter p l))%nat.
Proof.
  induction l as [|a l IH]; simpl; intros Hnd Hin; [contradiction|].
  inversion Hnd as [|? ? Ha Hnd']; subst.
  destruct Hin as [->|Hin].
  - rewrite String.eqb_refl, andb_false_r.
    assert (E : filter (fun y => p y && negb (String.eqb y x)) l = filter p l).
    { apply filter_ext_in. intros y Hy.
      destruct (String.eqb_spec y x) as [->|_]; [contradiction|].
      now rewrite andb_true_r. }
    rewrite E. destruct (p x); simpl; lia.
  - destruct (String.eqb_spec a x) as [->|_]; [contradiction|].
    rewrite andb_true_r. specialize (IH Hnd' Hin).
    destruct (p a); simpl; lia.
Qed.

Lemma filter_nil_iff {A} (p : A -> bool) (l : list A) :
  List.length (filter p l) = O <-> forall y, In y l -> p y = false.
Proof.
  induction l as [|a l IH]; simpl.
  - split; [intros _ y []|reflexivity].
  - destruct (p a) eqn:E; simpl.
    + split; [discriminate|]. intros H. specialize (H a (or_introl eq_refl)).
      congruence.
    + rewrite IH. split.
      * intros H y [<-|Hy]; auto.
      * intros H y Hy. apply H. now right.
Qed.

(** A list longer than the list that contains its elements repeats one. *)
Lemma repeated_element (l : list string) :
  ~ NoDup l -> exists x l1 l2 l3, l = l1 ++ x :: l2 ++ x :: l3.
Proof.
  induction l as [|a l IH]; intros H.
  - exfalso. apply H. constructor.
  - destruct (in_dec string_dec a l) as [Hin|Hnin].
    + apply in_split in Hin as [l2 [l3 ->]].
      exists a, [], l2, l3. reflexivity.
    + destruct IH as [x [l1 [l2 [l3 ->]]]].
      { intros Hnd. apply H. now constructor. }
      exists x, (a :: l1), l2, l3. reflexivity.
Qed.

Lemma pigeonhole (l universe : list string) :
  incl l universe -> (List.length universe < List.length l)%nat ->
  exists x l1 l2 l3, l = l1 ++ x :: l2 ++ x :: l3.
Proof.
  intros Hincl Hlen. apply repeated_element. intros Hnd.
  pose proof (NoDup_incl_length Hnd Hincl). lia.
Qed.

Lemma nodup_map_fst_filter {A} (p : string * A -> bool) (d : list (string * A)) :
  NoDup (map fst d) -> NoDup (map fst (filter p d)).
Proof.
  induction d as [|a d IH]; simpl; intros H; [constructor|].
  inversion H as [|? ? Ha Hd]; subst.
  destruct (p a); simpl; [constructor|]; auto.
  intros Hin. apply Ha. rewrite in_map_iff in *.
  destruct Hin as [e [He Hin]]. exists e. split; [assumption|].
  apply filter_In in Hin. tauto.
Qed.

End ListFacts.

(** ** Dictionaries of in-degrees *)

Module BumpFacts.
Import Kahn.

Lemma keys_set_present {V} (d : Dict.t V) k v :
  In k (Dict.keys d) -> Dict.keys (Dict.set d k v) = Dict.keys d.
Proof.
  induction d as [|[k0 v0] d IH]; simpl; [tauto|].
  destruct (String.eqb_spec k0 k) as [->|Hne]; simpl; [reflexivity|].
  intros [H|H]; [congruence|]. f_equal. now apply IH.
Qed.

Lemma keys_bump d k z : Dict.keys (bump d k z) = Dict.keys d.
Proof.
  unfold bump. destruct (Dict.get d k) eqn:E; [|reflexivity].
  apply keys_set_present. eapply DictFacts.get_some_in_keys; eauto.
Qed.

Lemma get_bump_same d k z :
  Dict.get (bump d k z) k = option_map (fun x => (x + z)%Z) (Dict.get d k).
Proof.
  unfold bump. destruct (Dict.get d k) eqn:E; simpl.
  - apply DictFacts.get_set_same.
  - exact E.
Qed.

Lemma get_bump_other d k k' z :
  k' <> k -> Dict.get (bump d k z) k' = Dict.get d k'.
Proof.
  intros Hne. unfold bump. destruct (Dict.get d k) eqn:E; [|reflexivity].
  now apply DictFacts.get_set_other.
Qed.

Lemma in_get_nodup {V} (d : Dict.t V) k v :
  NoDup (Dict.keys d) -> In (k, v) d -> Dict.get d k = Some v.
Proof.
  induction d as [|[k0 v0] d IH]; simpl; [tauto|].
  intros Hnd Hin. inversion Hnd as [|? ? Hk Hd]; subst.
  destruct Hin as [E|Hin].
  - inversion E; subst. now rewrite String.eqb_refl.
  - destruct (String.eqb_spec k0 k) as [->|_]; [|now apply IH].
    exfalso. apply Hk. change k with (fst (k, v)). now apply in_map.
Qed.

Lemma get_in {V} (d : Dict.t V) k v : Dict.get d k = Some v -> In (k, v) d.
Proof.
  induction d as [|[k0 v0] d IH]; simpl; [discriminate|].
  destruct (String.eqb_spec k0 k) as [->|_]; intros H.
  - inversion H; subst. now left.
  - right. now apply IH.
Qed.

End BumpFacts.

(** ** Graphs *)

Module GraphFacts.
Import DiGraph Spec.

Lemma has_edge_iff g u v : has_edge g u v = true <-> In v (successors g u).
Proof. unfold has_edge. apply mem_true_iff. Qed.

Lemma edge_source_is_node g u v : has_edge g u v = true -> In u (nodes g).
Proof.
  rewrite has_edge_iff. unfold successors, Dict.get_default, nodes.
  destruct (Dict.get g u) eqn:E; [|contradiction].
  intros _. eapply DictFacts.get_some_in_keys; eauto.
Qed.

Lemma mem_app x l1 l2 : mem x (l1 ++ l2) = mem x l1 || mem x l2.
Proof. unfold mem. apply existsb_app. Qed.

Lemma mem_single x y : mem x [y] = String.eqb x y.
Proof. unfold mem. simpl. apply orb_false_r. Qed.

(** Processing [node] removes it from the pending predecessors of its
    successors and of no other node. *)
Lemma pending_after g done node v :
  NoDup (nodes g) -> In node (nodes g) ->
  (pending g (done ++ [node]) v
   + (if has_edge g node v && negb (mem node done) then 1 else 0)
   = pending g done v)%nat.
Proof.
  intros Hnd Hin. unfold pending.
  rewrite <- (ListFacts.length_filter_remove (nodes g) node
                (fun u => has_edge g u v && negb (mem u done)) Hnd Hin).
  f_equal. f_equal. apply filter_ext. intros u.
  rewrite mem_app, mem_single, negb_orb. now rewrite andb_assoc.
Qed.

Lemma pending_zero_iff g done v :
  pending g done v = O <->
  forall u, has_edge g u v = true -> In u done.
Proof.
  unfold pending. rewrite ListFacts.filter_nil_iff. split.
  - intros H u Hu. specialize (H u (edge_source_is_node _ _ _ Hu)).
    rewrite Hu in H. simpl in H. apply negb_false_iff in H.
    now apply mem_true_iff.
  - intros H u _. destruct (has_edge g u v) eqn:E; [|reflexivity].
    simpl. apply negb_false_iff, mem_true_iff. now apply H.
Qed.

Lemma before_app_r u v l l' : before u v l -> before u v (l ++ l').
Proof.
  intros [l1 [l2 [l3 ->]]]. exists l1, l2, (l3 ++ l').
  now rewrite <- !app_assoc, <- !app_comm_cons, <- app_assoc.
Qed.

Lemma before_snoc u v l : In u l -> before u v (l ++ [v]).
Proof.
  intros H. apply in_split in H as [l1 [l2 ->]].
  exists l1, l2, []. now rewrite <- app_assoc.
Qed.

End GraphFacts.

(** ** Kahn's algorithm *)

Module KahnFacts.
Import DiGraph Spec Kahn GraphFacts BumpFacts.

(** The [for] loop over the successors of the dequeued node: each one
    loses one in-degree, and those that reach zero join the queue, in
    order. *)
Lemma visit_fold (succs : list string) : forall d q,
  NoDup succs ->
  (forall s, In s succs -> exists x, Dict.get d s = Some x) ->
  let acc := fold_left visit succs (d, q) in
  (forall v, Dict.get (fst acc) v =
             if mem v succs then option_map (fun x => (x - 1)%Z) (Dict.get d v)
             else Dict.get d v) /\
  snd acc = q ++ filter (fun s => match Dict.get d s with
                                  | Some 1%Z => true
                                  | _ => false
                                  end) succs.
Proof.
  induction succs as [|s succs IH]; intros d q Hnd Hdef; simpl.
  - split; [reflexivity|]. now rewrite app_nil_r.
  - inversion Hnd as [|? ? Hs Hnd']; subst.
    destruct (Hdef s (or_introl eq_refl)) as [x Hx].
    set (d1 := bump d s (-1)%Z).
    assert (Hd1s : Dict.get d1 s = Some (x - 1)%Z).
    { unfold d1. rewrite get_bump_same, Hx. reflexivity. }
    assert (Hd1o : forall v, v <> s -> Dict.get d1 v = Dict.get d v).
    { intros v Hv. unfold d1. now apply get_bump_other. }
    assert (Hstep : visit (d, q) s =
                    (d1, q ++ (if Z.eqb x 1 then [s] else []))).
    { unfold visit. simpl. fold d1. rewrite Hd1s.
      destruct (Z.eqb_spec x 1) as [->|Hne]; simpl; [reflexivity|].
      rewrite app_nil_r.
      destruct (x - 1)%Z eqn:E; try reflexivity. lia. }
    rewrite Hstep.
    destruct (IH d1 (q ++ (if Z.eqb x 1 then [s] else [])) Hnd') as [IHd IHq].
    { intros s' Hs'. rewrite Hd1o.
      - apply Hdef. now right.
      - intros ->. contradiction. }
    split.
    + intros v. rewrite IHd. unfold mem at 2. simpl. fold (mem v succs).
      destruct (String.eqb_spec v s) as [->|Hne]; simpl.
      * apply mem_false_iff in Hs. rewrite Hs, Hd1s, Hx. reflexivity.
      * rewrite Hd1o by assumption. reflexivity.
    + rewrite IHq, Hx, <- app_assoc. f_equal.
      assert (E : filter (fun s0 => match Dict.get d1 s0 with
                                    | Some 1%Z => true | _ => false end) succs
                  = filter (fun s0 => match Dict.get d s0 with
                                      | Some 1%Z => true | _ => false end) succs).
      { apply filter_ext_in. intros s' Hs'. rewrite Hd1o; [reflexivity|].
        intros ->. contradiction. }
      rewrite E. destruct (Z.eqb_spec x 1) as [->|Hne]; simpl; [reflexivity|].
      destruct x as [|[]|]; try reflexivity. congruence.
Qed.

Section Step.
Variable g : t.
Hypothesis Hwf : wf g.

(** One turn of the [while] loop keeps the invariant. *)
Lemma step_inv d node q r :
  kahn_inv g d (node :: q) r ->
  let acc := fold_left visit (successors g node) (d, q) in
  kahn_inv g (fst acc) (snd acc) (r ++ [node]).
Proof.
  intros [Hdeg Hq Hnd Hincl Hord] acc.
  assert (Hnode : In node (nodes g)).
  { apply Hincl. apply in_or_app. right. now left. }
  assert (Hnr : ~ In node r).
  { intros H. apply NoDup_remove_2 in Hnd. apply Hnd.
    apply in_or_app. now left. }
  assert (Hmem : mem node r = false) by now apply mem_false_iff.
  assert (Hpend : forall v,
    (pending g (r ++ [node]) v + (if has_edge g node v then 1 else 0)
     = pending g r v)%nat).
  { intros v. pose proof (pending_after g r node v (wf_nodes Hwf) Hnode) as H.
    now rewrite Hmem, andb_true_r in H. }
  destruct (visit_fold (successors g node) d q (wf_succ_nodup Hwf node))
    as [Hd' Hq'].
  { intros s Hs. eexists. apply Hdeg.
    apply (wf_closed Hwf node). now apply has_edge_iff. }
  fold acc in Hd', Hq'.
  assert (Hnew : forall v, In v (snd acc) <->
     In v q \/ (has_edge g node v = true /\ pending g (r ++ [node]) v = O)).
  { intros v. rewrite Hq', in_app_iff, filter_In, <- has_edge_iff.
    apply or_iff_compat_l. split.
    - intros [He H1]. split; [assumption|].
      pose proof (wf_closed Hwf _ _ He) as Hv.
      rewrite (Hdeg v Hv) in H1. specialize (Hpend v). rewrite He in Hpend.
      destruct (Z.of_nat (pending g r v)) as [|[]|] eqn:E; try discriminate.
      lia.
    - intros [He H0]. split; [assumption|].
      pose proof (wf_closed Hwf _ _ He) as Hv.
      rewrite (Hdeg v Hv). specialize (Hpend v). rewrite He in Hpend.
      replace (pending g r v) with 1%nat by lia. reflexivity. }
  assert (Hold : forall v, In v (r ++ node :: q) -> has_edge g node v = false).
  { intros v Hv. destruct (has_edge g node v) eqn:He; [|reflexivity].
    pose proof (wf_closed Hwf _ _ He) as Hvn.
    apply (Hq v Hvn) in Hv. specialize (Hpend v). rewrite He in Hpend. lia. }
  constructor.
  - (* in-degrees *)
    intros v Hv. rewrite Hd'. unfold has_edge in Hpend. specialize (Hpend v).
    rewrite (Hdeg v Hv). destruct (mem v (successors g node)); simpl.
    + f_equal. lia.
    + f_equal. f_equal. lia.
  - (* queue *)
    intros v Hv. rewrite <- app_assoc, in_app_iff. simpl.
    rewrite Hnew. split.
    + intros H. assert (Hcase : In v (r ++ node :: q) \/
        (has_edge g node v = true /\ pending g (r ++ [node]) v = O)).
      { rewrite in_app_iff. simpl. tauto. }
      destruct Hcase as [Hin|[_ H0]]; [|exact H0].
      pose proof (Hold v Hin) as He. apply (Hq v Hv) in Hin.
      specialize (Hpend v). rewrite He in Hpend. lia.
    + intros H0. destruct (has_edge g node v) eqn:He.
      * right. right. right. now split.
      * assert (Hin : In v (r ++ node :: q)).
        { apply (Hq v Hv). specialize (Hpend v). rewrite He in Hpend. lia. }
        apply in_app_iff in Hin. simpl in Hin. tauto.
  - (* no repetition *)
    rewrite <- app_assoc. simpl. rewrite Hq'.
    assert (Hfresh : NoDup (filter (fun s => match Dict.get d s with
                      | Some 1%Z => true | _ => false end) (successors g node))).
    { apply NoDup_filter, (wf_succ_nodup Hwf node). }
    assert (Hdisj : forall v, In v (filter (fun s => match Dict.get d s with
                      | Some 1%Z => true | _ => false end) (successors g node)) ->
                    ~ In v (r ++ node :: q)).
    { intros v Hv Hin. apply filter_In in Hv as [Hs _].
      apply has_edge_iff in Hs. rewrite (Hold v Hin) in Hs. discriminate. }
    revert Hfresh Hdisj.
    generalize (filter (fun s => match Dict.get d s with
                      | Some 1%Z => true | _ => false end) (successors g node)).
    intros new Hfresh Hdisj.
    replace (r ++ node :: q ++ new) with ((r ++ node :: q) ++ new)
      by (now rewrite <- app_assoc).
    clear - Hnd Hfresh Hdisj. induction new as [|a new IH].
    + now rewrite app_nil_r.
    + apply NoDup_Add with (a := a) (l := (r ++ node :: q) ++ new).
      * apply Add_app.
      * inversion Hfresh as [|? ? Ha Hn]; subst. split.
        -- apply IH; [assumption|]. intros v Hv. apply Hdisj. now right.
        -- rewrite in_app_iff. intros [H|H]; [|contradiction].
           apply (Hdisj a); [now left|assumption].
  - (* membership *)
    intros v. rewrite <- app_assoc, in_app_iff. simpl. rewrite Hnew.
    intros [H|[<-|[H|[He _]]]].
    + apply Hincl. apply in_or_app. now left.
    + assumption.
    + apply Hincl. apply in_or_app. right. now right.
    + apply (wf_closed Hwf _ _ He).
  - (* order *)
    intros u v He Hv. apply in_app_iff in Hv. simpl in Hv.
    destruct Hv as [Hv|[<-|[]]].
    + apply before_app_r. now apply Hord.
    + apply before_snoc.
      assert (H0 : pending g r node = O).
      { apply (Hq node Hnode). apply in_or_app. right. now left. }
      rewrite pending_zero_iff in H0. now apply H0.
Qed.

End Step.

End KahnFacts.

Module KahnResult.
Import DiGraph Spec Kahn GraphFacts BumpFacts KahnFacts.

Lemma fold_bump_count (E : list (string * string)) : forall d v,
  Dict.get (fold_left (fun d e => bump d (snd e) 1%Z) E d) v =
  option_map
    (fun x => (x + Z.of_nat (List.length
                 (filter (fun e => String.eqb (snd e) v) E)))%Z)
    (Dict.get d v).
Proof.
  induction E as [|e E IH]; intros d v; simpl.
  - destruct (Dict.get d v); simpl; [f_equal; lia|reflexivity].
  - rewrite IH. destruct (String.eqb_spec (snd e) v) as [->|Hne].
    + rewrite get_bump_same. destruct (Dict.get d v); simpl; [|reflexivity].
      f_equal. lia.
    + rewrite get_bump_other by congruence. reflexivity.
Qed.

Lemma keys_fold_bump (E : list (string * string)) : forall d,
  Dict.keys (fold_left (fun d e => bump d (snd e) 1%Z) E d) = Dict.keys d.
Proof.
  induction E as [|e E IH]; intros d; simpl; [reflexivity|].
  now rewrite IH, keys_bump.
Qed.

Lemma get_zeroes (ns : list string) v :
  In v ns -> Dict.get (map (fun n => (n, 0%Z)) ns) v = Some 0%Z.
Proof.
  induction ns as [|n ns IH]; simpl; [tauto|].
  destruct (String.eqb_spec n v) as [->|Hne]; [reflexivity|].
  intros [H|H]; [congruence|now apply IH].
Qed.

Lemma keys_zeroes (ns : list string) :
  Dict.keys (map (fun n => (n, 0%Z)) ns) = ns.
Proof.
  unfold Dict.keys. rewrite map_map. simpl. apply map_id.
Qed.

Lemma count_targets u vs v :
  NoDup vs ->
  List.length (filter (fun e : string * string => String.eqb (snd e) v)
                      (map (pair u) vs))
  = if mem v vs then 1%nat else 0%nat.
Proof.
  induction vs as [|a vs IH]; intros Hnd; [reflexivity|].
  inversion Hnd as [|? ? Ha Hnd']; subst. simpl.
  unfold mem. simpl. fold (mem v vs). specialize (IH Hnd').
  destruct (String.eqb_spec a v) as [->|Hne]; simpl; rewrite IH.
  - rewrite String.eqb_refl. simpl.
    apply mem_false_iff in Ha. now rewrite Ha.
  - destruct (String.eqb_spec v a); [congruence|]. reflexivity.
Qed.

Lemma count_edges_into g v (es : t) :
  (forall u, NoDup (successors g u)) ->
  (forall u vs, In (u, vs) es -> successors g u = vs) ->
  List.length (filter (fun e : string * string => String.eqb (snd e) v)
                 (flat_map (fun entry => map (pair (fst entry)) (snd entry)) es))
  = List.length (filter (fun u => has_edge g u v) (map fst es)).
Proof.
  intros Hnd. induction es as [|[u vs] es IH]; intros Hes; [reflexivity|].
  simpl. rewrite filter_app, length_app, IH.
  - assert (E : successors g u = vs) by (apply Hes; now left).
    rewrite count_targets by (rewrite <- E; apply Hnd).
    unfold has_edge at 2. rewrite E. destruct (mem v vs); reflexivity.
  - intros u' vs' H. apply Hes. now right.
Qed.

Section Result.
Variable g : t.
Hypothesis Hwf : wf g.

Lemma entry_successors u vs : In (u, vs) g -> successors g u = vs.
Proof.
  intros H. unfold successors, Dict.get_default.
  now rewrite (in_get_nodup g u vs (wf_nodes Hwf) H).
Qed.

Lemma initial_in_degree_spec v :
  In v (nodes g) ->
  Dict.get (initial_in_degree g) v = Some (Z.of_nat (pending g [] v)).
Proof.
  intros Hv. unfold initial_in_degree. rewrite fold_bump_count.
  rewrite (get_zeroes _ _ Hv). simpl. f_equal. f_equal.
  unfold edges. rewrite (count_edges_into g v g (wf_succ_nodup Hwf)).
  - unfold pending, nodes, Dict.keys. f_equal. apply filter_ext.
    intros u. simpl. now rewrite andb_true_r.
  - apply entry_successors.
Qed.

Lemma keys_initial_in_degree : Dict.keys (initial_in_degree g) = nodes g.
Proof.
  unfold initial_in_degree. now rewrite keys_fold_bump, keys_zeroes.
Qed.

Lemma in_initial_queue v :
  In v (initial_queue (initial_in_degree g)) <->
  Dict.get (initial_in_degree g) v = Some 0%Z.
Proof.
  unfold initial_queue. rewrite in_map_iff. split.
  - intros [[k x] [<- Hin]]. apply filter_In in Hin as [Hin Hx].
    simpl in *. apply Z.eqb_eq in Hx. subst x.
    apply in_get_nodup; [|assumption].
    rewrite keys_initial_in_degree. apply (wf_nodes Hwf).
  - intros H. exists (v, 0%Z). split; [reflexivity|].
    apply filter_In. split; [|reflexivity]. now apply get_in.
Qed.

Lemma initial_inv :
  kahn_inv g (initial_in_degree g) (initial_queue (initial_in_degree g)) [].
Proof.
  constructor; simpl.
  - apply initial_in_degree_spec.
  - intros v Hv. rewrite in_initial_queue, (initial_in_degree_spec v Hv).
    split; intros H; [inversion H; lia|now rewrite H].
  - apply ListFacts.nodup_map_fst_filter.
    fold (Dict.keys (initial_in_degree g)).
    rewrite keys_initial_in_degree. apply (wf_nodes Hwf).
  - intros v Hv. apply in_initial_queue in Hv.
    rewrite <- keys_initial_in_degree.
    eapply DictFacts.get_some_in_keys; eauto.
  - intros u v _ [].
Qed.

Lemma queue_exhausted d q r :
  kahn_inv g d q r -> (List.length (nodes g) <= List.length r)%nat -> q = [].
Proof.
  intros Hinv Hlen.
  pose proof (NoDup_incl_length (inv_nodup Hinv) (inv_incl Hinv)) as H.
  rewrite length_app in H. destruct q; [reflexivity|simpl in H; lia].
Qed.

Lemma loop_inv fuel : forall d q r,
  kahn_inv g d q r ->
  (List.length (nodes g) <= fuel + List.length r)%nat ->
  exists d', kahn_inv g d' [] (loop fuel g d q r).
Proof.
  induction fuel as [|fuel IH]; intros d q r Hinv Hlen; simpl.
  - rewrite (queue_exhausted d q r Hinv Hlen) in Hinv. now exists d.
  - destruct q as [|node q]; [now exists d|].
    apply IH.
    + now apply step_inv.
    + rewrite length_app. simpl. lia.
Qed.

(** More fuel than the number of nodes changes nothing: the loop has
    stopped on an empty queue by then. *)
Lemma loop_fuel_enough fuel : forall d q r extra,
  kahn_inv g d q r ->
  (List.length (nodes g) <= fuel + List.length r)%nat ->
  loop (fuel + extra) g d q r = loop fuel g d q r.
Proof.
  induction fuel as [|fuel IH]; intros d q r extra Hinv Hlen; simpl.
  - rewrite (queue_exhausted d q r Hinv Hlen). now destruct extra.
  - destruct q as [|node q]; [reflexivity|].
    apply IH.
    + now apply step_inv.
    + rewrite length_app. simpl. lia.
Qed.

Lemma kahns_sort_fuel_enough extra :
  kahns_sort_fuel (List.length (nodes g) + extra) g = _kahns_sort g.
Proof.
  unfold _kahns_sort, kahns_sort_fuel. apply loop_fuel_enough.
  - apply initial_inv.
  - simpl. lia.
Qed.

Lemma kahns_sort_inv : exists d, kahn_inv g d [] (_kahns_sort g).
Proof.
  unfold _kahns_sort, kahns_sort_fuel. apply loop_inv.
  - apply initial_inv.
  - simpl. lia.
Qed.

Lemma kahns_sort_nodup : NoDup (_kahns_sort g).
Proof.
  destruct kahns_sort_inv as [d H]. pose proof (inv_nodup H) as Hn.
  now rewrite app_nil_r in Hn.
Qed.

Lemma kahns_sort_incl v : In v (_kahns_sort g) -> In v (nodes g).
Proof.
  destruct kahns_sort_inv as [d H]. intros Hv. apply (inv_incl H).
  now rewrite app_nil_r.
Qed.

(** Every node of the result comes after all its predecessors. *)
Lemma kahns_sort_order u v :
  has_edge g u v = true -> In v (_kahns_sort g) -> before u v (_kahns_sort g).
Proof.
  destruct kahns_sort_inv as [d H]. apply (inv_order H).
Qed.

(** A node left out of the result has a predecessor left out. *)
Lemma left_out_has_pred v :
  In v (nodes g) -> ~ In v (_kahns_sort g) ->
  exists u, has_edge g u v = true /\ In u (nodes g) /\ ~ In u (_kahns_sort g).
Proof.
  destruct kahns_sort_inv as [d H]. intros Hv Hnot.
  pose proof (inv_queue H v Hv) as Hq. rewrite app_nil_r in Hq.
  unfold pending in Hq.
  destruct (filter (fun u => has_edge g u v && negb (mem u (_kahns_sort g)))
                   (nodes g)) as [|u l] eqn:E.
  - exfalso. apply Hnot. now apply Hq.
  - assert (Hu : In u (u :: l)) by now left.
    rewrite <- E in Hu. apply filter_In in Hu as [Hu Hp].
    apply andb_true_iff in Hp as [He Hm].
    exists u. repeat split; try assumption.
    apply negb_true_iff in Hm. now apply mem_false_iff.
Qed.

End Result.

End KahnResult.

(** ** Cycles and completeness of the sort *)

Module CycleFacts.
Import DiGraph Spec Kahn GraphFacts KahnResult.

Lemma chain_app_r g l1 : forall l2, chain g (l1 ++ l2) -> chain g l2.
Proof.
  induction l1 as [|a l1 IH]; intros l2 H; [exact H|].
  apply IH. simpl in H. destruct (l1 ++ l2) eqn:E; [|tauto].
  destruct l1; simpl in E; [subst; exact I|discriminate].
Qed.

Lemma chain_app_l g l1 : forall l2, chain g (l1 ++ l2) -> chain g l1.
Proof.
  induction l1 as [|a l1 IH]; intros l2 H; [exact I|].
  simpl in *. destruct l1 as [|b l1]; [exact I|].
  simpl in H. destruct H as [He H]. split; [assumption|].
  apply (IH l2). exact H.
Qed.

Lemma chain_cons g u v l :
  has_edge g u v = true -> chain g (v :: l) -> chain g (u :: v :: l).
Proof. intros He H. simpl. split; assumption. Qed.

(** A walk found as a list is found by [walk_to]. *)
Lemma chain_walk_to g l : forall k x y,
  chain g (x :: l ++ [y]) -> (List.length l < k)%nat ->
  walk_to g k x y = true.
Proof.
  induction l as [|a l IH]; intros k x y Hc Hk;
    (destruct k as [|k]; [lia|]); simpl in *;
    apply existsb_exists.
  - destruct Hc as [He _]. exists y. split.
    + now apply has_edge_iff.
    + now rewrite String.eqb_refl.
  - destruct Hc as [He Hc]. exists a. split.
    + now apply has_edge_iff.
    + rewrite (IH k a y Hc) by lia. apply orb_true_r.
Qed.

(** Conversely, what [walk_to] finds is a walk. *)
Lemma walk_to_chain g k : forall x y,
  walk_to g k x y = true ->
  exists l, chain g (x :: l ++ [y]) /\ (List.length l < k)%nat.
Proof.
  induction k as [|k IH]; intros x y H; simpl in H; [discriminate|].
  apply existsb_exists in H as [v [Hv H]]. apply has_edge_iff in Hv.
  apply orb_true_iff in H as [H|H].
  - apply String.eqb_eq in H. subst v. exists []. simpl. split; [tauto|lia].
  - destruct (IH v y H) as [l [Hc Hl]]. exists (v :: l). split.
    + now apply chain_cons.
    + simpl. lia.
Qed.

Lemma on_cycle_iff g x :
  on_cycle g x = true <->
  exists l, chain g (x :: l ++ [x]) /\ (List.length l < List.length (nodes g))%nat.
Proof.
  unfold on_cycle. split.
  - apply walk_to_chain.
  - intros [l [Hc Hl]]. eapply chain_walk_to; eauto.
Qed.

Lemma no_cycle_nodes_acyclic g : cycle_nodes g = [] -> acyclic g.
Proof.
  intros H x l Hc Hl.
  assert (Hx : In x (cycle_nodes g)).
  { apply filter_In. split.
    - simpl in Hc. destruct (l ++ [x]) eqn:E.
      + destruct l; discriminate.
      + eapply edge_source_is_node. apply Hc.
    - apply on_cycle_iff. eauto. }
  rewrite H in Hx. contradiction.
Qed.

Lemma acyclic_no_cycle_nodes g : acyclic g -> cycle_nodes g = [].
Proof.
  intros H. destruct (cycle_nodes g) as [|x l] eqn:E; [reflexivity|].
  assert (Hx : In x (cycle_nodes g)) by (rewrite E; now left).
  apply filter_In in Hx as [_ Hx]. apply on_cycle_iff in Hx as [l' [Hc Hl]].
  destruct (H x l' Hc Hl).
Qed.

Lemma chain_join g p : forall a r,
  chain g (p ++ [a]) -> chain g (a :: r) -> chain g (p ++ a :: r).
Proof.
  induction p as [|b p IH]; intros a r Hp Hr; [exact Hr|].
  destruct p as [|c p].
  - simpl in *. split; [apply Hp|exact Hr].
  - simpl in Hp. destruct Hp as [He Hp]. simpl. split; [exact He|].
    apply (IH a r); assumption.
Qed.

(** A walk that passes twice through [a] can skip what lies between. *)
Lemma chain_cut g p a q r :
  chain g (p ++ a :: q ++ a :: r) -> chain g (p ++ a :: r).
Proof.
  intros H. apply chain_join.
  - replace (p ++ a :: q ++ a :: r) with ((p ++ [a]) ++ q ++ a :: r) in H
      by (now rewrite <- app_assoc).
    now apply chain_app_l in H.
  - replace (p ++ a :: q ++ a :: r) with ((p ++ a :: q) ++ a :: r) in H
      by (now rewrite <- app_assoc).
    now apply chain_app_r in H.
Qed.

Lemma chain_sources g l : forall z y,
  chain g (l ++ [z]) -> In y l -> In y (nodes g).
Proof.
  induction l as [|a l IH]; intros z y Hc Hy; [contradiction|].
  destruct Hy as [<-|Hy].
  - simpl in Hc. destruct (l ++ [z]) eqn:E.
    + destruct l; discriminate.
    + eapply edge_source_is_node. apply Hc.
  - apply (IH z y); [|exact Hy]. now apply (chain_app_r g [a]).
Qed.

(** A closed walk through [x] contains an elementary circuit through
    [x]: a closed walk that repeats no node. *)
Lemma elementary_circuit g n : forall l x,
  (List.length l <= n)%nat -> chain g (x :: l ++ [x]) ->
  exists l', chain g (x :: l' ++ [x]) /\ NoDup (x :: l').
Proof.
  induction n as [|n IH]; intros l x Hlen Hc.
  - destruct l; [|simpl in Hlen; lia]. exists []. split; [exact Hc|].
    repeat constructor. intros [].
  - destruct (ListDec.NoDup_dec string_dec (x :: l)) as [Hnd|Hdup];
      [now exists l|].
    apply ListFacts.repeated_element in Hdup as [a [l1 [l2 [l3 E]]]].
    destruct l1 as [|y l1]; simpl in E; inversion E; subst.
    + apply (IH l3 a).
      * rewrite length_app in Hlen. simpl in Hlen. lia.
      * replace (a :: (l2 ++ a :: l3) ++ [a])
          with ((a :: l2) ++ a :: l3 ++ [a]) in Hc
          by (simpl; now rewrite <- app_assoc).
        now apply chain_app_r in Hc.
    + apply (IH (l1 ++ a :: l3) y).
      * rewrite !length_app in *. simpl in *. rewrite length_app in Hlen.
        simpl in Hlen. lia.
      * replace (y :: (l1 ++ a :: l2 ++ a :: l3) ++ [y])
          with ((y :: l1) ++ a :: l2 ++ a :: (l3 ++ [y])) in Hc
          by (simpl; rewrite <- !app_assoc; simpl;
              now rewrite <- !app_assoc).
        apply chain_cut in Hc.
        replace (y :: (l1 ++ a :: l3) ++ [y])
          with ((y :: l1) ++ a :: l3 ++ [y])
          by (simpl; now rewrite <- app_assoc).
        exact Hc.
Qed.

(** [on_cycle] is true of the nodes of the elementary circuits of the
    graph, the circuits [nx.simple_cycles] enumerates, and of the nodes of
    its closed walks, of any length. *)
Lemma on_cycle_elementary g x :
  on_cycle g x = true <->
  exists l, chain g (x :: l ++ [x]) /\ NoDup (x :: l).
Proof.
  split.
  - intros H. apply on_cycle_iff in H as [l [Hc _]].
    now apply (elementary_circuit g (List.length l) l x).
  - intros [l [Hc Hnd]]. apply on_cycle_iff. exists l. split; [exact Hc|].
    assert (Hincl : incl (x :: l) (nodes g)).
    { intros y Hy. apply (chain_sources g (x :: l) x y); assumption. }
    pose proof (NoDup_incl_length Hnd Hincl) as Hlen. simpl in Hlen. lia.
Qed.

Lemma on_cycle_closed_walk g x :
  on_cycle g x = true <-> exists l, chain g (x :: l ++ [x]).
Proof.
  rewrite on_cycle_elementary. split.
  - intros [l [Hc _]]. now exists l.
  - intros [l Hc]. now apply (elementary_circuit g (List.length l) l x).
Qed.

Section Complete.
Variable g : t.
Hypothesis Hwf : wf g.

(** From a node left out, a walk of any length through left-out nodes
    leads to it. *)
Lemma back_chain v k :
  In v (nodes g) -> ~ In v (_kahns_sort g) ->
  exists h t, List.length t = k /\ chain g (h :: t) /\
    (forall x, In x (h :: t) -> In x (nodes g)).
Proof.
  intros Hv Hnot.
  assert (H : exists h t, List.length t = k /\ chain g (h :: t) /\
    (forall x, In x (h :: t) -> In x (nodes g) /\ ~ In x (_kahns_sort g))).
  { induction k as [|k [h [t [Hlen [Hc Hall]]]]].
    - exists v, []. repeat split; try exact I; destruct H as [<-|[]]; assumption.
    - destruct (Hall h (or_introl eq_refl)) as [Hh Hhn].
      destruct (left_out_has_pred g Hwf h Hh Hhn) as [u [He [Hu Hun]]].
      exists u, (h :: t). repeat split.
      + simpl. now rewrite Hlen.
      + assumption.
      + assumption.
      + destruct H as [<-|H]; [assumption|]. now apply Hall.
      + destruct H as [<-|H]; [assumption|]. now apply Hall. }
  destruct H as [h [t [Hlen [Hc Hall]]]]. exists h, t.
  repeat split; try assumption. intros x Hx. now apply Hall.
Qed.

(** In a graph without cycles the sort reaches every node. *)
Lemma kahns_sort_complete v :
  acyclic g -> In v (nodes g) -> In v (_kahns_sort g).
Proof.
  intros Hac Hv.
  destruct (in_dec string_dec v (_kahns_sort g)) as [H|Hnot]; [exact H|].
  exfalso.
  destruct (back_chain v (List.length (nodes g)) Hv Hnot)
    as [h [t [Hlen [Hc Hall]]]].
  destruct (ListFacts.pigeonhole (h :: t) (nodes g)) as [x [l1 [l2 [l3 E]]]].
  - exact Hall.
  - simpl. lia.
  - rewrite E in Hc. apply chain_app_r in Hc.
    replace (x :: l2 ++ x :: l3) with ((x :: l2 ++ [x]) ++ l3) in Hc
      by (simpl; now rewrite <- app_assoc).
    apply chain_app_l in Hc. apply (Hac x l2 Hc).
    assert (Hl : List.length (h :: t) = S (List.length (nodes g)))
      by (simpl; now rewrite Hlen).
    rewrite E in Hl. rewrite !length_app in Hl. simpl in Hl.
    rewrite length_app in Hl. simpl in Hl. lia.
Qed.

Lemma kahns_sort_permutation :
  acyclic g -> Permutation (_kahns_sort g) (nodes g).
Proof.
  intros Hac. apply NoDup_Permutation.
  - now apply kahns_sort_nodup.
  - apply (wf_nodes Hwf).
  - intros v. split.
    + now apply kahns_sort_incl.
    + now apply kahns_sort_complete.
Qed.

End Complete.

End CycleFacts.

(** ** Execution: what [compute] and [run_nodes] do to the machine *)

Module ExecFacts.
Import Py State Exec ExecSpec Nodes Solver.
Local Open Scope exec_scope.

Create HintDb silent.

Lemma silent_ret {A} (a : A) : silent (ret a).
Proof. intros m. reflexivity. Qed.

Lemma silent_raise {A} (e : exn) : silent (@raise A e).
Proof. intros m. reflexivity. Qed.

Lemma silent_lift {A} (r : result A) : silent (lift r).
Proof. intros m. reflexivity. Qed.

Lemma silent_bind {A B} (c : M A) (k : A -> M B) :
  silent c -> (forall a, silent (k a)) -> silent (mbind c k).
Proof.
  intros Hc Hk m. unfold mbind. specialize (Hc m).
  destruct (c m) as [[a|e] m1]; simpl in *; [|exact Hc].
  now rewrite Hk.
Qed.

Lemma silent_try {A} (c : M A) (h : exn -> M A) :
  silent c -> (forall e, silent (h e)) -> silent (try_except c h).
Proof.
  intros Hc Hh m. unfold try_except. specialize (Hc m).
  destruct (c m) as [[a|e] m1]; simpl in *; [exact Hc|].
  now rewrite Hh.
Qed.

Lemma silent_get0 name : silent (state_get0 name).
Proof. intros m. reflexivity. Qed.

Lemma silent_set name v : silent (state_set name v).
Proof. intros m. reflexivity. Qed.

Lemma silent_to_dict : silent state_to_dict.
Proof. intros m. reflexivity. Qed.

Lemma silent_snapshot : silent state_snapshot.
Proof. intros m. reflexivity. Qed.

Lemma silent_delta snap : silent (state_delta snap).
Proof. intros m. reflexivity. Qed.

#[local] Hint Resolve silent_ret silent_raise silent_lift silent_get0
  silent_set silent_to_dict silent_snapshot silent_delta : silent.

Ltac silent_tac :=
  repeat first
    [ apply silent_bind; [|intros ?]
    | apply silent_try; [|intros ?]
    | solve [auto with silent] ].

Lemma silent_compute rt self : silent (compute rt self).
Proof.
  unfold compute.
  destruct (cls self);
    unfold motor_compute, heater_compute, hydraulic_compute,
           formula_compute, sweep_compute;
    silent_tac.
Qed.

Lemma run_nodes_known rt nodes node_id node ids log m :
  Dict.get nodes node_id = Some node ->
  run_nodes rt nodes (node_id :: ids) log m =
  match compute rt node (mkMachine (store m) (invoked m ++ [node_id])) with
  | (Ok _, m1) => run_nodes rt nodes ids (log ++ [node_id]) m1
  | (Err e, m1) => (Err e, m1)
  end.
Proof.
  intros H. simpl. rewrite H. unfold mbind, note_invoked. simpl.
  destruct (compute rt node _) as [[[]|e] m1]; reflexivity.
Qed.

Lemma run_nodes_unknown rt nodes node_id ids log m :
  Dict.get nodes node_id = None ->
  run_nodes rt nodes (node_id :: ids) log m = run_nodes rt nodes ids log m.
Proof. intros H. simpl. now rewrite H. Qed.

Lemma filter_known_cons (nodes : Dict.t BaseNode) node_id ids :
  filter (Dict.contains nodes) (node_id :: ids) =
  match Dict.get nodes node_id with
  | Some _ => node_id :: filter (Dict.contains nodes) ids
  | None => filter (Dict.contains nodes) ids
  end.
Proof.
  simpl. unfold Dict.contains at 1. now destruct (Dict.get nodes node_id).
Qed.

(** The ids of [ids] that the node map knows, in order: the nodes
    [run_nodes] computes. *)
Lemma run_nodes_ok rt nodes ids : forall log m log' m',
  run_nodes rt nodes ids log m = (Ok log', m') ->
  log' = log ++ filter (Dict.contains nodes) ids /\
  invoked m' = invoked m ++ filter (Dict.contains nodes) ids.
Proof.
  induction ids as [|node_id ids IH]; intros log m log' m' H.
  - simpl in *. unfold ret in H. inversion H; subst. now rewrite !app_nil_r.
  - rewrite filter_known_cons.
    destruct (Dict.get nodes node_id) as [node|] eqn:E.
    + rewrite (run_nodes_known _ _ _ _ _ _ _ E) in H.
      pose proof (silent_compute rt node
                    (mkMachine (store m) (invoked m ++ [node_id]))) as Hs.
      destruct (compute rt node _) as [[[]|e] m1]; simpl in *; [|discriminate].
      apply IH in H as [-> ->]. rewrite Hs.
      now rewrite <- !app_assoc.
    + rewrite (run_nodes_unknown _ _ _ _ _ _ E) in H. now apply IH.
Qed.


End ExecFacts.

(** ** Building graphs *)

Module BuildFacts.
Import DiGraph Spec GraphFacts BumpFacts.

Lemma keys_set_absent {V} (d : Dict.t V) k v :
  ~ In k (Dict.keys d) -> Dict.keys (Dict.set d k v) = Dict.keys d ++ [k].
Proof.
  induction d as [|[k0 v0] d IH]; simpl; intros H; [reflexivity|].
  destruct (String.eqb_spec k0 k) as [->|Hne]; [tauto|].
  simpl. f_equal. apply IH. tauto.
Qed.

Lemma successors_set g u vs x :
  successors (Dict.set g u vs) x =
  if String.eqb u x then vs else successors g x.
Proof.
  unfold successors, Dict.get_default.
  destruct (String.eqb_spec u x) as [->|Hne].
  - now rewrite DictFacts.get_set_same.
  - rewrite DictFacts.get_set_other by congruence. reflexivity.
Qed.

Lemma has_node_iff g n : has_node g n = true <-> In n (nodes g).
Proof. apply DictFacts.contains_true_iff. Qed.

Lemma successors_absent g n : ~ In n (nodes g) -> successors g n = [].
Proof.
  intros H. unfold successors, Dict.get_default.
  destruct (Dict.get g n) eqn:E; [|reflexivity].
  exfalso. apply H. eapply DictFacts.get_some_in_keys; eauto.
Qed.

Lemma nodes_add_node g n :
  nodes (add_node g n) = if has_node g n then nodes g else nodes g ++ [n].
Proof.
  unfold add_node. destruct (has_node g n) eqn:E; [reflexivity|].
  apply keys_set_absent. rewrite <- has_node_iff. congruence.
Qed.

Lemma successors_add_node g n x : successors (add_node g n) x = successors g x.
Proof.
  unfold add_node. destruct (has_node g n) eqn:E; [reflexivity|].
  rewrite successors_set. destruct (String.eqb_spec n x) as [->|_]; [|reflexivity].
  symmetry. apply successors_absent. rewrite <- has_node_iff. congruence.
Qed.

Lemma in_nodes_add_node g n x :
  In x (nodes (add_node g n)) <-> In x (nodes g) \/ x = n.
Proof.
  rewrite nodes_add_node. destruct (has_node g n) eqn:E.
  - apply has_node_iff in E. split; [tauto|]. intros [H| ->]; assumption.
  - rewrite in_app_iff. simpl. intuition congruence.
Qed.

Lemma nodup_add_node g n : NoDup (nodes g) -> NoDup (nodes (add_node g n)).
Proof.
  intros H. rewrite nodes_add_node. destruct (has_node g n) eqn:E; [exact H|].
  apply NoDup_Add with (a := n) (l := nodes g).
  - rewrite <- (app_nil_r (nodes g)) at 1. apply Add_app.
  - split; [exact H|]. rewrite <- has_node_iff. congruence.
Qed.

Lemma wf_add_node g n : wf g -> wf (add_node g n).
Proof.
  intros [Hn Hs Hc]. constructor.
  - now apply nodup_add_node.
  - intros u. rewrite successors_add_node. apply Hs.
  - intros u v. unfold has_edge. rewrite successors_add_node.
    intros H. apply in_nodes_add_node. left. now apply (Hc u v).
Qed.

Lemma nodes_add_edge g u v :
  nodes (add_edge g u v) = nodes (add_node (add_node g u) v).
Proof.
  unfold add_edge.
  destruct (mem v (successors (add_node (add_node g u) v) u)); [reflexivity|].
  apply keys_set_present. apply in_nodes_add_node. left.
  apply in_nodes_add_node. now right.
Qed.

Lemma in_nodes_add_edge g u v x :
  In x (nodes (add_edge g u v)) <-> In x (nodes g) \/ x = u \/ x = v.
Proof.
  rewrite nodes_add_edge, !in_nodes_add_node. tauto.
Qed.

Lemma successors_add_edge g u v x :
  successors (add_edge g u v) x =
  if String.eqb u x && negb (mem v (successors g u))
  then successors g u ++ [v] else successors g x.
Proof.
  unfold add_edge. rewrite !successors_add_node.
  destruct (mem v (successors g u)) eqn:E; simpl.
  - rewrite andb_false_r. now rewrite !successors_add_node.
  - rewrite andb_true_r, successors_set, !successors_add_node. reflexivity.
Qed.

Lemma has_edge_add_edge g u v x y :
  has_edge (add_edge g u v) x y =
  has_edge g x y || (String.eqb u x && String.eqb y v).
Proof.
  unfold has_edge. rewrite successors_add_edge.
  destruct (String.eqb_spec u x) as [->|Hne]; simpl; [|now rewrite orb_false_r].
  destruct (mem v (successors g x)) eqn:E; simpl.
  - destruct (String.eqb_spec y v) as [->|_]; [|now rewrite orb_false_r].
    now rewrite E.
  - now rewrite mem_app, mem_single.
Qed.

Lemma wf_add_edge g u v : wf g -> wf (add_edge g u v).
Proof.
  intros Hwf. pose proof Hwf as [Hn Hs Hc]. constructor.
  - rewrite nodes_add_edge. now apply nodup_add_node, nodup_add_node.
  - intros x. rewrite successors_add_edge.
    destruct (String.eqb u x && negb (mem v (successors g u))) eqn:E; [|apply Hs].
    apply andb_true_iff in E as [_ E]. apply negb_true_iff, mem_false_iff in E.
    apply NoDup_Add with (a := v) (l := successors g u).
    + rewrite <- (app_nil_r (successors g u)) at 1. apply Add_app.
    + split; [apply Hs|exact E].
  - intros x y. rewrite has_edge_add_edge, in_nodes_add_edge.
    intros H. apply orb_true_iff in H as [H|H].
    + left. now apply (Hc x y).
    + apply andb_true_iff in H as [_ H]. apply String.eqb_eq in H. tauto.
Qed.

Lemma wf_empty : wf DiGraph.empty.
Proof.
  constructor.
  - constructor.
  - intros u. constructor.
  - intros u v H. discriminate.
Qed.

Lemma wf_add_nodes_from ns : forall g, wf g -> wf (add_nodes_from g ns).
Proof.
  induction ns as [|n ns IH]; intros g H; [exact H|].
  apply IH. now apply wf_add_node.
Qed.

Lemma wf_add_edges_from es : forall g, wf g -> wf (add_edges_from g es).
Proof.
  induction es as [|e es IH]; intros g H; [exact H|].
  apply IH. now apply wf_add_edge.
Qed.

Lemma in_nodes_add_nodes_from ns : forall g x,
  In x (nodes (add_nodes_from g ns)) <-> In x (nodes g) \/ In x ns.
Proof.
  induction ns as [|n ns IH]; intros g x; simpl; [tauto|].
  unfold add_nodes_from in *. simpl. rewrite IH, in_nodes_add_node.
  intuition congruence.
Qed.

Lemma has_edge_add_nodes_from ns : forall g x y,
  has_edge (add_nodes_from g ns) x y = has_edge g x y.
Proof.
  induction ns as [|n ns IH]; intros g x y; [reflexivity|].
  unfold add_nodes_from in *. simpl. rewrite IH.
  unfold has_edge. now rewrite successors_add_node.
Qed.

Lemma has_edge_add_edges_from es : forall g x y,
  has_edge (add_edges_from g es) x y = true <->
  has_edge g x y = true \/ In (x, y) es.
Proof.
  induction es as [|[u v] es IH]; intros g x y; simpl; [tauto|].
  unfold add_edges_from in *. simpl. rewrite IH, has_edge_add_edge.
  rewrite orb_true_iff, andb_true_iff, !String.eqb_eq.
  split.
  - intros [[H|[-> ->]]|H]; auto.
  - intros [H|[H|H]]; auto. inversion H; subst. auto.
Qed.

Lemma in_nodes_add_edges_from es : forall g x,
  In x (nodes g) -> In x (nodes (add_edges_from g es)).
Proof.
  induction es as [|[u v] es IH]; intros g x H; [exact H|].
  unfold add_edges_from in *. simpl. apply IH.
  apply in_nodes_add_edge. now left.
Qed.

End BuildFacts.

(** ** The solver on graphs without cycles *)

Module AcyclicFacts.
Import Py State Exec Nodes DiGraph Kahn Solver Spec.
Import GraphFacts BuildFacts KahnResult CycleFacts ExecFacts.

Lemma build_graph_wf (nodes : Dict.t BaseNode) edges :
  wf (_build_graph nodes edges).
Proof.
  unfold _build_graph. apply wf_add_edges_from, wf_add_nodes_from, wf_empty.
Qed.

Lemma build_graph_edge (nodes : Dict.t BaseNode) edges u v :
  has_edge (_build_graph nodes edges) u v = true <-> In (u, v) edges.
Proof.
  unfold _build_graph. rewrite has_edge_add_edges_from.
  rewrite has_edge_add_nodes_from. split; [|now right].
  intros [H|H]; [discriminate|exact H].
Qed.

Lemma build_graph_known (nodes : Dict.t BaseNode) edges k :
  Dict.contains nodes k = true -> In k (DiGraph.nodes (_build_graph nodes edges)).
Proof.
  intros H. apply DictFacts.contains_true_iff in H.
  unfold _build_graph. apply in_nodes_add_edges_from.
  apply in_nodes_add_nodes_from. now right.
Qed.

Lemma build_graph_edge_ends (nodes : Dict.t BaseNode) edges u v :
  In (u, v) edges ->
  In u (DiGraph.nodes (_build_graph nodes edges)) /\
  In v (DiGraph.nodes (_build_graph nodes edges)).
Proof.
  intros H. apply (build_graph_edge nodes edges) in H. split.
  - eapply edge_source_is_node; eauto.
  - eapply (wf_closed (build_graph_wf nodes edges)); eauto.
Qed.

Lemma before_filter (p : string -> bool) u v l :
  before u v l -> p u = true -> p v = true -> before u v (filter p l).
Proof.
  intros [l1 [l2 [l3 ->]]] Hu Hv.
  exists (filter p l1), (filter p l2), (filter p l3).
  rewrite filter_app. simpl. rewrite Hu, filter_app. simpl. now rewrite Hv.
Qed.

Lemma solve_acyclic rt self nodes edges :
  cycle_nodes (_build_graph nodes edges) = [] ->
  solve rt self nodes edges =
  run_nodes rt nodes (_kahns_sort (_build_graph nodes edges)) [].
Proof. intros H. unfold solve. now rewrite H. Qed.

(** The execution order of a graph without cycles, for an edge list that
    may name ids the node map does not know. *)
Lemma acyclic_order_permutation (nodes : Dict.t BaseNode) edges :
  NoDup (Dict.keys nodes) ->
  cycle_nodes (_build_graph nodes edges) = [] ->
  Permutation
    (filter (Dict.contains nodes) (_kahns_sort (_build_graph nodes edges)))
    (Dict.keys nodes).
Proof.
  intros Hnd Hac. set (g := _build_graph nodes edges) in *.
  pose proof (build_graph_wf nodes edges) as Hwf. fold g in Hwf.
  apply NoDup_Permutation.
  - apply NoDup_filter. now apply kahns_sort_nodup.
  - exact Hnd.
  - intros x. rewrite filter_In, DictFacts.contains_true_iff. split; [tauto|].
    intros Hx. split; [|exact Hx].
    apply kahns_sort_complete; try assumption.
    + now apply no_cycle_nodes_acyclic.
    + apply build_graph_known. now apply DictFacts.contains_true_iff.
Qed.

End AcyclicFacts.

Module AcyclicClaims.
Import Py State Exec Nodes DiGraph Kahn Solver Spec Samples.
Import GraphFacts BuildFacts KahnResult CycleFacts ExecFacts AcyclicFacts.

(** C1. On a graph without cycles [solve] computes the nodes in the order
    of Kahn's sort of the dependency graph (the sort stops within as many
    turns as the graph has nodes), the order it returns is the order of
    the invocations, and for every edge [(u, v)] with both ends in the node
    map [u] comes before [v] in it. For the chain A -> B -> C the order is
    A, B, C (indices 0, 1, 2) and the values propagate: [a_out = 2],
    [b_out = 4], [c_out = 14]. *)
Theorem solve_acyclic_topological_order :
  (forall rt self nodes edges m order m',
      cycle_nodes (_build_graph nodes edges) = [] ->
      solve rt self nodes edges m = (Ok order, m') ->
      order = filter (Dict.contains nodes)
                     (_kahns_sort (_build_graph nodes edges)) /\
      invoked m' = invoked m ++ order /\
      (forall extra,
          kahns_sort_fuel
            (List.length (DiGraph.nodes (_build_graph nodes edges)) + extra)
            (_build_graph nodes edges)
          = _kahns_sort (_build_graph nodes edges)) /\
      (forall u v,
          In (u, v) edges ->
          Dict.contains nodes u = true -> Dict.contains nodes v = true ->
          before u v order)) /\
  (solve sample_rt default_solver chain_nodes chain_edges (start empty_state)
   = (Ok ["A"; "B"; "C"],
      mkMachine
        (mkState [("a_out", 2%float); ("b_out", 4%float); ("c_out", 14%float)])
        ["A"; "B"; "C"]) /\
   index "A" ["A"; "B"; "C"] = Some 0%nat /\
   index "B" ["A"; "B"; "C"] = Some 1%nat /\
   index "C" ["A"; "B"; "C"] = Some 2%nat).
Proof.
  split.
  - intros rt self nodes edges m order m' Hac H.
    rewrite (solve_acyclic rt self nodes edges Hac) in H.
    apply run_nodes_ok in H as [Ho Hi]. simpl in Ho.
    pose proof (build_graph_wf nodes edges) as Hwf.
    repeat split.
    + exact Ho.
    + now rewrite Hi, Ho.
    + intros extra. now apply kahns_sort_fuel_enough.
    + intros u v He Hu Hv. rewrite Ho. apply before_filter; try assumption.
      apply kahns_sort_order; [assumption|now apply build_graph_edge|].
      apply kahns_sort_complete; [assumption| |].
      * now apply no_cycle_nodes_acyclic.
      * now apply build_graph_known.
  - repeat split; vm_compute; reflexivity.
Qed.

(** The general part of C1 at the chain A -> B -> C. *)
Lemma solve_acyclic_topological_order_chain :
  before "A" "B" ["A"; "B"; "C"] /\ before "B" "C" ["A"; "B"; "C"].
Proof.
  destruct (proj1 solve_acyclic_topological_order
              sample_rt default_solver chain_nodes chain_edges
              (start empty_state) ["A"; "B"; "C"]
              (mkMachine
                 (mkState [("a_out", 2%float); ("b_out", 4%float);
                           ("c_out", 14%float)])
                 ["A"; "B"; "C"]))
    as [_ [_ [_ H]]].
  - vm_compute. reflexivity.
  - vm_compute. reflexivity.
  - split; apply H; vm_compute; auto.
Defined.



End AcyclicClaims.

(** ** Subgraphs *)

Module SubgraphFacts.
Import Py DiGraph Spec GraphFacts BuildFacts CycleFacts.

Section Sub.
Variable rt : PyRuntime.
Variable g : t.
Hypothesis Hwf : wf g.
Variable keep : list string.

Let sub := subgraph (view_iter rt) g keep.

Lemma nodes_sub : nodes sub = view_iter rt (nodes g) keep.
Proof.
  unfold sub, subgraph, nodes, Dict.keys. rewrite map_map. simpl.
  apply map_id.
Qed.

Lemma nodes_sub_perm :
  Permutation (nodes sub) (filter (fun n => mem n keep) (nodes g)).
Proof. rewrite nodes_sub. apply view_iter_perm. Qed.

Lemma in_nodes_sub x :
  In x (nodes sub) <-> In x (nodes g) /\ mem x keep = true.
Proof.
  split.
  - intros H. apply (Permutation_in _ nodes_sub_perm) in H.
    apply filter_In in H. exact H.
  - intros H. apply (Permutation_in _ (Permutation_sym nodes_sub_perm)).
    apply filter_In. exact H.
Qed.

Lemma get_tabulate {V} (f : string -> V) (l : list string) x :
  Dict.get (map (fun n => (n, f n)) l) x = if mem x l then Some (f x) else None.
Proof.
  induction l as [|a l IH]; [reflexivity|].
  simpl. unfold mem. simpl. fold (mem x l).
  destruct (String.eqb_spec a x) as [->|Hne].
  - now rewrite String.eqb_refl.
  - destruct (String.eqb_spec x a); [congruence|]. exact IH.
Qed.

Lemma successors_sub x :
  successors sub x =
  if mem x (nodes sub) then view_iter rt (successors g x) keep else [].
Proof.
  rewrite nodes_sub. unfold successors at 1, Dict.get_default.
  unfold sub, subgraph. rewrite get_tabulate.
  now destruct (mem x (view_iter rt (nodes g) keep)).
Qed.

Lemma has_edge_sub u v :
  has_edge sub u v = true <->
  has_edge g u v = true /\ mem u keep = true /\ mem v keep = true.
Proof.
  rewrite !has_edge_iff, successors_sub.
  destruct (mem u (nodes sub)) eqn:E.
  - apply mem_true_iff, in_nodes_sub in E as [Hu Hk].
    split.
    + intros H. apply (Permutation_in _ (view_iter_perm rt _ _)) in H.
      apply filter_In in H. tauto.
    + intros [H [_ Hv]].
      apply (Permutation_in _ (Permutation_sym (view_iter_perm rt _ _))).
      apply filter_In. tauto.
  - split; [intros []|]. intros [H [Hu _]]. exfalso.
    apply mem_false_iff in E. apply E, in_nodes_sub. split; [|exact Hu].
    apply has_edge_iff in H. eapply edge_source_is_node; eauto.
Qed.

Lemma wf_sub : wf sub.
Proof.
  constructor.
  - eapply Permutation_NoDup; [apply Permutation_sym, nodes_sub_perm|].
    apply NoDup_filter, (wf_nodes Hwf).
  - intros u. rewrite successors_sub. destruct (mem u (nodes sub)); [|constructor].
    eapply Permutation_NoDup; [apply Permutation_sym, view_iter_perm|].
    apply NoDup_filter, (wf_succ_nodup Hwf).
  - intros u v H. apply has_edge_sub in H as [H [_ Hv]].
    apply in_nodes_sub. split; [|exact Hv]. apply (wf_closed Hwf u v H).
Qed.




End Sub.

End SubgraphFacts.

(** ** The cyclic block *)

Module BlockFacts.
Import Py State Exec Nodes DiGraph Solver Spec BlockSpec.
Import GraphFacts ExecFacts SubgraphFacts.

Lemma pass_ok rt nodes order m log m' :
  pass rt nodes order m = (Ok log, m') ->
  log = known nodes order /\ invoked m' = invoked m ++ known nodes order.
Proof. intros H. now apply run_nodes_ok in H. Qed.

(** The log [run_nodes] is given only prefixes what it returns. *)
Lemma run_nodes_log rt nodes ids : forall log m,
  run_nodes rt nodes ids log m =
  match run_nodes rt nodes ids [] m with
  | (Ok l, m') => (Ok (log ++ l), m')
  | (Err e, m') => (Err e, m')
  end.
Proof.
  induction ids as [|node_id ids IH]; intros log m.
  - simpl. unfold ret. now rewrite app_nil_r.
  - destruct (Dict.get nodes node_id) as [node|] eqn:E.
    + rewrite !(run_nodes_known _ _ _ _ _ _ _ E).
      destruct (compute rt node _) as [[[]|e] m1]; [|reflexivity].
      rewrite (IH (log ++ [node_id])), (IH ([] ++ [node_id])).
      destruct (run_nodes rt nodes ids [] m1) as [[l|e] m2]; [|reflexivity].
      simpl. now rewrite <- app_assoc.
    + rewrite !(run_nodes_unknown _ _ _ _ _ _ E). apply IH.
Qed.

Lemma after_passes_front rt nodes order j : forall m,
  after_passes rt nodes order (S j) m =
  match pass rt nodes order m with
  | (Ok _, m1) => after_passes rt nodes order j m1
  | (Err _, _) => None
  end.
Proof.
  induction j as [|j IH]; intros m.
  - simpl. now destruct (pass rt nodes order m) as [[l|e] m1].
  - change (after_passes rt nodes order (S (S j)) m)
      with (match after_passes rt nodes order (S j) m with
            | Some mj => match pass rt nodes order mj with
                         | (Ok _, m') => Some m'
                         | (Err _, _) => None
                         end
            | None => None
            end).
    rewrite IH. destruct (pass rt nodes order m) as [[l|e] m1]; reflexivity.
Qed.

Lemma converged_at_shift rt thr nodes order j m l m1 :
  pass rt nodes order m = (Ok l, m1) ->
  converged_at rt thr nodes order (S j) m = converged_at rt thr nodes order j m1.
Proof.
  intros H. unfold converged_at.
  rewrite (after_passes_front rt nodes order j m).
  rewrite (after_passes_front rt nodes order (S j) m).
  now rewrite H.
Qed.

Lemma converged_at_first rt thr nodes order m l m1 :
  pass rt nodes order m = (Ok l, m1) ->
  converged_at rt thr nodes order 0 m =
  (delta (store m1) (snapshot (store m)) <? thr)%float.
Proof.
  intros H. unfold converged_at. simpl. now rewrite H.
Qed.

Lemma iterate_unfold rt thr nodes order r log m :
  iterate rt thr nodes order (S r) log m =
  match pass rt nodes order m with
  | (Ok l, m1) =>
      if (delta (store m1) (snapshot (store m)) <? thr)%float
      then (Ok (log ++ l), m1)
      else iterate rt thr nodes order r (log ++ l) m1
  | (Err e, m1) => (Err e, m1)
  end.
Proof.
  simpl. unfold mbind, state_snapshot, state_delta, pass. simpl.
  rewrite (run_nodes_log rt nodes order log m).
  destruct (run_nodes rt nodes order [] m) as [[l|e] m1]; [|reflexivity].
  now destruct (delta (store m1) (snapshot (store m)) <? thr)%float.
Qed.

(** The loop that returns has made [k] passes: [k] is at most the
    budget, no pass before the last one converged, and the last one did
    unless the budget is exhausted. *)
Lemma iterate_ok rt thr nodes order r : forall log m log' m',
  iterate rt thr nodes order r log m = (Ok log', m') ->
  exists k,
    (k <= r)%nat /\ (1 <= r -> 1 <= k)%nat /\
    after_passes rt nodes order k m = Some m' /\
    log' = log ++ repeat_list (known nodes order) k /\
    (forall j, (S j < k)%nat -> converged_at rt thr nodes order j m = false) /\
    ((k < r)%nat -> converged_at rt thr nodes order (Nat.pred k) m = true).
Proof.
  induction r as [|r IH]; intros log m log' m' H.
  - simpl in H. unfold ret in H. inversion H; subst. exists 0%nat.
    split; [|split; [|split; [|split; [|split]]]].
    + lia.
    + lia.
    + reflexivity.
    + simpl. now rewrite app_nil_r.
    + intros j Hj. lia.
    + lia.
  - rewrite iterate_unfold in H.
    destruct (pass rt nodes order m) as [[l|e] m1] eqn:Hp; [|discriminate].
    pose proof (pass_ok _ _ _ _ _ _ Hp) as [Hl _].
    pose proof (converged_at_first rt thr nodes order m l m1 Hp) as H0.
    destruct (delta (store m1) (snapshot (store m)) <? thr)%float eqn:Hd.
    + inversion H; subst. exists 1%nat.
      split; [|split; [|split; [|split; [|split]]]].
      * lia.
      * lia.
      * rewrite after_passes_front, Hp. reflexivity.
      * simpl. now rewrite app_nil_r.
      * intros j Hj. lia.
      * intros _. exact H0.
    + apply IH in H as [k [Hk [Hk1 [Ha [Hlog [Hnc Hc]]]]]].
      exists (S k).
      split; [|split; [|split; [|split; [|split]]]].
      * lia.
      * lia.
      * rewrite after_passes_front, Hp. exact Ha.
      * rewrite Hlog, Hl. simpl. now rewrite <- app_assoc.
      * intros [|j] Hj; [exact H0|].
        rewrite (converged_at_shift _ _ _ _ _ _ _ _ Hp). apply Hnc. lia.
      * intros Hlt. assert (Hk' : (k < r)%nat) by lia.
        specialize (Hc Hk'). destruct k as [|k]; [lia|].
        simpl in *. now rewrite (converged_at_shift _ _ _ _ _ _ _ _ Hp).
Qed.

(** The loop raises only what a pass raises. *)
Lemma iterate_err rt thr nodes order r : forall log m e m',
  iterate rt thr nodes order r log m = (Err e, m') ->
  exists j mj,
    (j < r)%nat /\ after_passes rt nodes order j m = Some mj /\
    pass rt nodes order mj = (Err e, m').
Proof.
  induction r as [|r IH]; intros log m e m' H.
  - simpl in H. discriminate.
  - rewrite iterate_unfold in H.
    destruct (pass rt nodes order m) as [[l|e0] m1] eqn:Hp.
    + destruct (delta (store m1) (snapshot (store m)) <? thr)%float;
        [discriminate|].
      apply IH in H as [j [mj [Hj [Ha He]]]].
      exists (S j), mj. repeat split; [lia| |exact He].
      rewrite after_passes_front, Hp. exact Ha.
    + inversion H; subst. exists 0%nat, m. repeat split; [lia|exact Hp].
Qed.

Lemma in_repeat_list l k x : In x (repeat_list l k) -> In x l.
Proof.
  induction k as [|k IH]; simpl; [tauto|].
  rewrite in_app_iff. tauto.
Qed.

(** *** The order of the cycle *)

Lemma insert_by_perm key x l : Permutation (insert_by key x l) (x :: l).
Proof.
  induction l as [|y l IH]; simpl; [reflexivity|].
  destruct (key x <=? key y)%Z; [reflexivity|].
  rewrite IH. apply perm_swap.
Qed.

Lemma sorted_by_perm key l : Permutation (sorted_by key l) l.
Proof.
  induction l as [|x l IH]; simpl; [reflexivity|].
  rewrite insert_by_perm. now constructor.
Qed.

Lemma insert_by_ascending key x l :
  ascending key l -> ascending key (insert_by key x l).
Proof.
  induction l as [|y l IH]; simpl; intros H.
  - split; [intros y []|exact I].
  - destruct H as [Hy Hl]. destruct (Z.leb_spec (key x) (key y)) as [Hle|Hgt].
    + simpl. repeat split; try assumption.
      intros z [<-|Hz]; [exact Hle|]. specialize (Hy z Hz). lia.
    + simpl. split; [|now apply IH].
      intros z Hz. apply (Permutation_in _ (insert_by_perm key x l)) in Hz.
      destruct Hz as [<-|Hz]; [lia|now apply Hy].
Qed.

Lemma sorted_by_ascending key l : ascending key (sorted_by key l).
Proof.
  induction l as [|x l IH]; simpl; [exact I|].
  now apply insert_by_ascending.
Qed.

Lemma ascending_ext key key' l :
  (forall x, In x l -> key x = key' x) -> ascending key l -> ascending key' l.
Proof.
  induction l as [|x l IH]; simpl; intros He H; [exact I|].
  destruct H as [Hx Hl]. split.
  - intros y Hy. rewrite <- !He by auto. now apply Hx.
  - apply IH; auto.
Qed.

Lemma permutation_filter (p : string -> bool) l l' :
  Permutation l l' -> Permutation (filter p l) (filter p l').
Proof.
  induction 1 as [|x l l' H IH|x y l|l l' l'' H1 IH1 H2 IH2]; simpl.
  - constructor.
  - destruct (p x); [now constructor|exact IH].
  - destruct (p x), (p y); try reflexivity. apply perm_swap.
  - now rewrite IH1.
Qed.

Lemma filter_twice (p q : string -> bool) l :
  filter p (filter q l) = filter (fun x => p x && q x) l.
Proof.
  induction l as [|x l IH]; simpl; [reflexivity|].
  destruct (q x); simpl.
  - rewrite andb_true_r. destruct (p x); now rewrite IH.
  - now rewrite andb_false_r.
Qed.

(** The in-degree within the induced subgraph counts the predecessors
    among the kept nodes. *)
Lemma in_degree_sub rt g keep n :
  mem n keep = true ->
  in_degree (subgraph (view_iter rt) g keep) n = in_degree_among g keep n.
Proof.
  intros Hn. unfold in_degree, in_degree_among, predecessors. f_equal.
  rewrite (Permutation_length
             (permutation_filter _ _ _ (nodes_sub_perm rt g keep))).
  rewrite filter_twice. f_equal. apply filter_ext_in. intros u Hu.
  destruct (has_edge (subgraph (view_iter rt) g keep) u n) eqn:E.
  - apply has_edge_sub in E as [-> [-> _]]. reflexivity.
  - destruct (has_edge g u n) eqn:E1; [|reflexivity].
    destruct (mem u keep) eqn:E2; [|reflexivity]. exfalso.
    assert (H : has_edge (subgraph (view_iter rt) g keep) u n = true)
      by (apply has_edge_sub; auto).
    congruence.
Qed.

Lemma resolve_cycle_order_perm rt g cyc :
  Permutation (_resolve_cycle_order rt g cyc) cyc.
Proof.
  unfold _resolve_cycle_order. rewrite sorted_by_perm. apply set_iter_perm.
Qed.

Lemma resolve_cycle_order_ascending rt g cyc :
  ascending (in_degree_among g cyc) (_resolve_cycle_order rt g cyc).
Proof.
  apply ascending_ext with (key := in_degree (subgraph (view_iter rt) g cyc)).
  - intros x Hx. apply in_degree_sub. apply mem_true_iff.
    apply (Permutation_in _ (resolve_cycle_order_perm rt g cyc) Hx).
  - apply sorted_by_ascending.
Qed.

Lemma cycle_nodes_nodup g : wf g -> NoDup (cycle_nodes g).
Proof. intros H. apply NoDup_filter, (wf_nodes H). Qed.

Lemma iterate_until_converged_ok rt self nodes order m log m' :
  _iterate_until_converged rt self nodes order m = (Ok log, m') ->
  (1 <= max_iterations self)%Z /\
  exists k,
    (1 <= k <= Z.to_nat (max_iterations self))%nat /\
    after_passes rt nodes order k m = Some m' /\
    log = repeat_list (known nodes order) k /\
    (forall j, (S j < k)%nat ->
        converged_at rt (convergence_threshold self) nodes order j m = false) /\
    ((k < Z.to_nat (max_iterations self))%nat ->
        converged_at rt (convergence_threshold self) nodes order (Nat.pred k) m
        = true).
Proof.
  unfold _iterate_until_converged.
  destruct (Z.leb_spec (max_iterations self) 0) as [Hle|Hgt]; [discriminate|].
  intros H. split; [lia|].
  apply iterate_ok in H as [k [Hk [Hk1 [Ha [Hlog [Hnc Hc]]]]]].
  exists k. repeat split; try assumption; lia.
Qed.

Lemma after_passes_invoked rt nodes order k : forall m m',
  after_passes rt nodes order k m = Some m' ->
  invoked m' = invoked m ++ repeat_list (known nodes order) k.
Proof.
  induction k as [|k IH]; intros m m' H.
  - simpl in *. inversion H; subst. now rewrite app_nil_r.
  - rewrite after_passes_front in H.
    destruct (pass rt nodes order m) as [[l|e] m1] eqn:Hp; [|discriminate].
    apply pass_ok in Hp as [_ Hi]. apply IH in H.
    rewrite H, Hi. simpl. now rewrite <- app_assoc.
Qed.

End BlockFacts.

Module BlockClaims.
Import Py State Exec Nodes DiGraph Kahn Solver Spec BlockSpec Samples.
Import GraphFacts BuildFacts ExecFacts AcyclicFacts SubgraphFacts BlockFacts.

(** C3. The cyclic block. The order of the cycle is a permutation of the
    cyclic nodes, without repetition, in ascending order of the number of
    cyclic predecessors (the in-degree within the induced subgraph). The
    defaults are 100 iterations and a threshold of 0.001. With a budget of
    at least one iteration the block makes [k] passes, [1 <= k <= budget]:
    each pass computes every known node of the order once, in that order
    (the log is [k] copies of it), no pass before the last ended below the
    threshold, and the last did unless the budget is exhausted, in which
    case the block returns all the same with the store of the last pass;
    the block raises only what a node's [compute] raises. With a budget of
    zero or less it raises [UnboundLocalError], as the two-node feedback
    graph shows. *)
Theorem cyclic_block_iterates_to_convergence :
  (forall rt (nodes : Dict.t BaseNode) edges,
      Permutation
        (_resolve_cycle_order rt (_build_graph nodes edges)
                              (cycle_nodes (_build_graph nodes edges)))
        (cycle_nodes (_build_graph nodes edges)) /\
      NoDup (_resolve_cycle_order rt (_build_graph nodes edges)
                                  (cycle_nodes (_build_graph nodes edges))) /\
      ascending
        (in_degree_among (_build_graph nodes edges)
                         (cycle_nodes (_build_graph nodes edges)))
        (_resolve_cycle_order rt (_build_graph nodes edges)
                              (cycle_nodes (_build_graph nodes edges)))) /\
  (max_iterations default_solver = 100%Z /\
   convergence_threshold default_solver = 0.001%float) /\
  (forall rt self nodes order m,
      (1 <= max_iterations self)%Z ->
      match _iterate_until_converged rt self nodes order m with
      | (Ok log, m') =>
          exists k,
            (1 <= k <= Z.to_nat (max_iterations self))%nat /\
            after_passes rt nodes order k m = Some m' /\
            log = repeat_list (known nodes order) k /\
            (forall j, (S j < k)%nat ->
                converged_at rt (convergence_threshold self) nodes order j m
                = false) /\
            ((k < Z.to_nat (max_iterations self))%nat ->
                converged_at rt (convergence_threshold self) nodes order
                             (Nat.pred k) m = true)
      | (Err e, m') =>
          exists j mj,
            (j < Z.to_nat (max_iterations self))%nat /\
            after_passes rt nodes order j m = Some mj /\
            pass rt nodes order mj = (Err e, m')
      end) /\
  (forall rt self nodes order m,
      (max_iterations self <= 0)%Z ->
      _iterate_until_converged rt self nodes order m
      = (Err (builtin_exn UnboundLocalError), m)) /\
  solve sample_rt (mkSolver 0.001 0) feedback_nodes feedback_edges
        (start feedback_initial)
  = (Err (builtin_exn UnboundLocalError), start feedback_initial).
Proof.
  split; [|split; [|split; [|split]]].
  - intros rt nodes edges.
    pose proof (resolve_cycle_order_perm rt (_build_graph nodes edges)
                  (cycle_nodes (_build_graph nodes edges))) as Hp.
    split; [exact Hp|split].
    + eapply Permutation_NoDup; [apply Permutation_sym, Hp|].
      apply cycle_nodes_nodup, build_graph_wf.
    + apply resolve_cycle_order_ascending.
  - split; reflexivity.
  - intros rt self nodes order m Hmax.
    destruct (_iterate_until_converged rt self nodes order m)
      as [[log|e] m'] eqn:H.
    + now apply iterate_until_converged_ok in H as [_ H].
    + unfold _iterate_until_converged in H.
      destruct (Z.leb_spec (max_iterations self) 0) as [Hle|Hgt]; [lia|].
      now apply iterate_err in H.
  - intros rt self nodes order m Hmax. unfold _iterate_until_converged.
    destruct (Z.leb_spec (max_iterations self) 0) as [Hle|Hgt]; [reflexivity|lia].
  - vm_compute. reflexivity.
Qed.

End BlockClaims.

(** ** The solver on graphs with cycles *)

Module CyclicFacts.
Import Py State Exec Nodes DiGraph Kahn Solver Spec BlockSpec.
Import GraphFacts BuildFacts KahnResult CycleFacts ExecFacts AcyclicFacts.
Import SubgraphFacts BlockFacts.
Local Open Scope exec_scope.





Section Cyclic.
Variable rt : PyRuntime.
Variable nodes : Dict.t BaseNode.
Variable edges : list (string * string).

Let g := _build_graph nodes edges.
Let cyc := cycle_nodes g.
Let sub := subgraph (view_iter rt) g (acyclic_nodes g cyc).
Let acyclic_order := _kahns_sort sub.

Lemma sub_wf : wf sub.
Proof. apply wf_sub, build_graph_wf. Qed.



Lemma acyclic_order_nodup : NoDup acyclic_order.
Proof. apply kahns_sort_nodup, sub_wf. Qed.


Lemma solve_cyclic self :
  cyc <> [] ->
  solve rt self nodes edges =
  (execution_order <-
     run_nodes rt nodes (pre_cycle g cyc acyclic_order) [] ;;
   cycle_exec <-
     _iterate_until_converged rt self nodes (_resolve_cycle_order rt g cyc) ;;
   run_nodes rt nodes (post_cycle g cyc acyclic_order)
             (execution_order ++ cycle_exec)).
Proof.
  intros H. unfold solve, acyclic_order, sub, cyc, g in *.
  destruct (cycle_nodes (_build_graph nodes edges)); [contradiction|].
  reflexivity.
Qed.

End Cyclic.

End CyclicFacts.

Module CyclicClaims.
Import Py State Exec Nodes DiGraph Kahn Solver Spec BlockSpec Samples.
Import GraphFacts BuildFacts KahnResult CycleFacts ExecFacts AcyclicFacts.
Import SubgraphFacts BlockFacts BlockClaims CyclicFacts.



(** C4. For X: [x = 0.5 y + 1] and Y: [y = 0.3 x + 2] in mutual feedback,
    started at [x = 0], [y = 0], the solve (with the default budget, and
    with the budget of 200 of the test-suite) ends within 0.01 of
    [x = 2.3529] and [y = 2.7059], after six passes, which is twelve
    invocations; the last pass moved the store by less than the threshold.
    The same holds when the set of cyclic nodes is iterated in the other
    order, Y before X. *)
Theorem feedback_converges :
  let close (a b : float) := (abs (a - b) <? 0.01)%float in
  (forall solver rt,
      In solver [default_solver; mkSolver 0.001 200] ->
      In rt [sample_rt; sample_rt_rev] ->
      exists order final,
        solve rt solver feedback_nodes feedback_edges (start feedback_initial)
        = (Ok order, final) /\
        close (get0 (store final) "x_val") 2.3529%float = true /\
        close (get0 (store final) "y_val") 2.7059%float = true /\
        (2 < List.length order)%nat /\
        List.length order = 12%nat /\
        invoked final = order) /\
  fst (solve sample_rt default_solver feedback_nodes feedback_edges
             (start feedback_initial))
  = Ok (repeat_list ["X"; "Y"] 6) /\
  fst (solve sample_rt_rev default_solver feedback_nodes feedback_edges
             (start feedback_initial))
  = Ok (repeat_list ["Y"; "X"] 6) /\
  converged_at sample_rt (convergence_threshold default_solver) feedback_nodes
               ["X"; "Y"] 5 (start feedback_initial) = true /\
  converged_at sample_rt (convergence_threshold default_solver) feedback_nodes
               ["X"; "Y"] 4 (start feedback_initial) = false.
Proof.
  intros close. split; [|repeat split; vm_compute; reflexivity].
  intros solver rt Hs Hr.
  exists (fst (match solve rt solver feedback_nodes feedback_edges
                           (start feedback_initial) with
               | (Ok o, _) => (o, tt)
               | (Err _, _) => ([], tt)
               end)),
         (snd (solve rt solver feedback_nodes feedback_edges
                     (start feedback_initial))).
  simpl in Hs, Hr.
  destruct Hs as [<-|[<-|[]]]; destruct Hr as [<-|[<-|[]]];
    repeat split; vm_compute; first [reflexivity|lia].
Qed.

End CyclicClaims.

(** ** The formula node *)

Module FormulaFacts.
Import Py State Exec Nodes.

Lemma get_update {V} (other : Dict.t V) : forall (d : Dict.t V) k,
  NoDup (Dict.keys other) ->
  Dict.get (Dict.update d other) k =
  match Dict.get other k with
  | Some v => Some v
  | None => Dict.get d k
  end.
Proof.
  unfold Dict.update.
  induction other as [|[k0 v0] other IH]; intros d k Hnd; [reflexivity|].
  inversion Hnd as [|? ? Hk Hnd']; subst. simpl. rewrite (IH _ _ Hnd').
  destruct (String.eqb_spec k0 k) as [->|Hne].
  - destruct (Dict.get other k) eqn:E.
    + exfalso. apply Hk. eapply DictFacts.get_some_in_keys; eauto.
    + apply DictFacts.get_set_same.
  - destruct (Dict.get other k); [reflexivity|].
    apply DictFacts.get_set_other. congruence.
Qed.

Lemma get_map_values {A B} (f : A -> B) (d : Dict.t A) k :
  Dict.get (map (fun kv => (fst kv, f (snd kv))) d) k
  = option_map f (Dict.get d k).
Proof.
  induction d as [|[k0 v0] d IH]; [reflexivity|]. simpl.
  destruct (String.eqb k0 k); [reflexivity|exact IH].
Qed.

Lemma safe_builtins_nodup : NoDup (Dict.keys _SAFE_BUILTINS).
Proof.
  vm_compute. repeat constructor; simpl; intuition discriminate.
Qed.

(** What a name stands for in the namespace of a formula. *)
Lemma get_namespace vars id :
  Dict.get (namespace_of vars) id =
  match Dict.get _SAFE_BUILTINS id with
  | Some v => Some v
  | None => option_map VFloat (Dict.get vars id)
  end.
Proof.
  unfold namespace_of. rewrite (get_update _ _ _ safe_builtins_nodup).
  now rewrite get_map_values.
Qed.


End FormulaFacts.

Module FormulaClaims.
Import Py State Exec Nodes Samples FormulaFacts.


(** C9. A name in a formula stands only for a variable of the store, a
    function of the whitelist, [pi], or, [__builtins__] being a key of the
    globals, the empty dictionary. But attribute access is open to the
    expression: [x_val.__class__] is the class [float], an object that is
    neither in the store nor in the whitelist, and the expression can call
    it; [compute] accepts [x_val.__class__(7)] and writes 7.0. *)
Theorem formula_names_and_reflection :
  (forall vars id v,
      lookup (namespace_of vars) id = Ok v ->
      Dict.get _SAFE_BUILTINS id = Some v \/
      (exists f, Dict.get vars id = Some f /\ v = VFloat f) \/
      (id = "__builtins__" /\ v = VEmptyDict)) /\
  (forall rt vars f,
      Dict.get vars "x_val" = Some f ->
      eval rt (ClassOf (Name "x_val")) (namespace_of vars)
      = Ok (VType t_float) /\
      eval rt (Call (ClassOf (Name "x_val")) [IntLit 7]) (namespace_of vars)
      = Ok (VFloat 7)) /\
  Dict.get _SAFE_BUILTINS "float" = None /\
  compute sample_rt (formula "F" "x_val.__class__(7)" ["x_val"] ["out"])
          (start feedback_initial)
  = (Ok tt,
     mkMachine (State.set feedback_initial "out" 7%float) []).
Proof.
  split; [|split; [|split]].
  - intros vars id v H. unfold lookup in H. rewrite get_namespace in H.
    destruct (Dict.get _SAFE_BUILTINS id) as [b|] eqn:Eb.
    + left. now inversion H.
    + destruct (Dict.get vars id) as [f|] eqn:Ev; simpl in H.
      * right. left. exists f. split; [reflexivity|now inversion H].
      * right. right. destruct (String.eqb_spec id "__builtins__");
          [|discriminate]. split; [assumption|now inversion H].
  - intros rt vars f Hf.
    assert (E : lookup (namespace_of vars) "x_val" = Ok (VFloat f)).
    { unfold lookup. rewrite get_namespace, Hf. reflexivity. }
    split; simpl; rewrite E; reflexivity.
  - reflexivity.
  - vm_compute. reflexivity.
Qed.

End FormulaClaims.

(** ** [numpy.linspace] *)

Module LinspaceFacts.
Import Py Numpy FloatSpec FloatFacts.





Lemma float_of_Z_0 : float_of_Z 0 = 0%float.
Proof. reflexivity. Qed.







Lemma linspace_negative lo hi n :
  (n < 0)%Z -> linspace lo hi n = Err (builtin_exn ValueError).
Proof.
  intros H. unfold linspace. destruct (Z.ltb_spec n 0); [reflexivity|lia].
Qed.






End LinspaceFacts.

(** ** The sweep *)

Module EngineFacts.
Import Py State Exec Nodes Solver Engine EngineSpec.



Lemma is_sweep_node_iff node : is_sweep_node node = true <-> cls node = SweepNode.
Proof. unfold is_sweep_node. destruct (cls node); split; congruence. Qed.


End EngineFacts.

Module EngineClaims.
Import Py State Exec Nodes Solver Engine EngineSpec Samples.
Import LinspaceFacts EngineFacts.



(** C7. After the graph is parsed, a sweep on an id that the node map
    does not have raises the [KeyError] "Sweep node ... not found.", and a
    sweep on the id of a node that is not a Sweep node raises the
    [TypeError] "Node ... is ..., not a SweepNode."; in both cases no
    [compute] has been invoked and there is no sweep result. *)
Theorem run_sweep_rejects_bad_target
    rt solver registry graph_json sweep_node_id initial inv nodes edges :
  _parse_graph registry graph_json = Ok (nodes, edges) ->
  (Dict.get nodes sweep_node_id = None ->
   run_sweep rt solver registry graph_json sweep_node_id initial inv
   = (Err (sweep_not_found sweep_node_id), inv)) /\
  (forall node,
      Dict.get nodes sweep_node_id = Some node -> cls node <> SweepNode ->
      run_sweep rt solver registry graph_json sweep_node_id initial inv
      = (Err (not_a_sweep_node sweep_node_id (cls node)), inv)) /\
  exn_kind_of (sweep_not_found sweep_node_id) = KeyError /\
  (forall c, exn_kind_of (not_a_sweep_node sweep_node_id c) = TypeError) /\
  (forall result inv',
      run_sweep rt solver registry graph_json sweep_node_id initial inv
      = (Ok result, inv') ->
      exists node, Dict.get nodes sweep_node_id = Some node /\
                   cls node = SweepNode).
Proof.
  intros Hp. unfold run_sweep. rewrite Hp.
  split; [|split; [|split; [|split]]].
  - intros ->. reflexivity.
  - intros node -> Hc.
    destruct (is_sweep_node node) eqn:E; [|reflexivity].
    apply is_sweep_node_iff in E. contradiction.
  - reflexivity.
  - reflexivity.
  - intros result inv'.
    destruct (Dict.get nodes sweep_node_id) as [node|]; [|discriminate].
    destruct (is_sweep_node node) eqn:E; [|discriminate].
    intros _. exists node. split; [reflexivity|now apply is_sweep_node_iff].
Qed.

(** C7 at the sample sweep: an id that is absent and the id of the
    formula node. *)
Lemma run_sweep_rejects_bad_target_sample :
  run_sweep sample_rt default_solver _REGISTRY sweep_json "absent" None []
  = (Err (sweep_not_found "absent"), []) /\
  run_sweep sample_rt default_solver _REGISTRY sweep_json "f1" None []
  = (Err (not_a_sweep_node "f1" FormulaNode), []).
Proof.
  destruct (run_sweep_rejects_bad_target sample_rt default_solver _REGISTRY
              sweep_json "absent" None []
              (match _parse_graph _REGISTRY sweep_json with
               | Ok p => fst p | Err _ => []
               end)
              [("f1", "sw")]) as [H1 _]; [vm_compute; reflexivity|].
  destruct (run_sweep_rejects_bad_target sample_rt default_solver _REGISTRY
              sweep_json "f1" None []
              (match _parse_graph _REGISTRY sweep_json with
               | Ok p => fst p | Err _ => []
               end)
              [("f1", "sw")]) as [_ [H2 _]]; [vm_compute; reflexivity|].
  split.
  - apply H1. vm_compute. reflexivity.
  - apply (H2 (mkNode FormulaNode "f1" "Total"
                      [("expression", PStr "torque * 2")]
                      ["torque"] ["total_current"])).
    + vm_compute. reflexivity.
    + vm_compute. discriminate.
Defined.

End EngineClaims.

(** ** The embedding against the test-suite of the repository *)

Module SampleChecks.
Import Py State Exec Nodes Solver Engine Samples.

(** [test_motor_node] *)
Example motor_node_current :
  fst (compute sample_rt
         (new_node MotorNode "m1" ""
            (Some [("voltage", PInt 230); ("efficiency", PFloat 0.85)])
            (Some ["torque"; "speed"]) (Some ["motor_current"]))
         (start (State.init (Some [("torque", 5%float); ("speed", 1500%float)]))))
  = Ok tt /\
  get0 (store (snd (compute sample_rt
         (new_node MotorNode "m1" ""
            (Some [("voltage", PInt 230); ("efficiency", PFloat 0.85)])
            (Some ["torque"; "speed"]) (Some ["motor_current"]))
         (start (State.init (Some [("torque", 5%float); ("speed", 1500%float)]))))))
       "motor_current"
  = (5 * (1500 * 2 * pi / 60) / (0.85 * 230))%float.
Proof. split; vm_compute; reflexivity. Qed.

(** [test_heater_node] *)
Example heater_node_outputs :
  snd (compute sample_rt
         (new_node HeaterNode "h1" ""
            (Some [("r0", PFloat 10); ("alpha", PFloat 0.004);
                   ("t0", PFloat 25); ("voltage", PInt 230)])
            (Some ["temperature"])
            (Some ["heater_resistance"; "heater_current"]))
         (start (State.init (Some [("temperature", 100%float)]))))
  = mkMachine
      (mkState [("temperature", 100%float);
                ("heater_resistance", (10 * (1 + 0.004 * (100 - 25)))%float);
                ("heater_current",
                 (230 / (10 * (1 + 0.004 * (100 - 25))))%float)])
      [].
Proof. vm_compute. reflexivity. Qed.

(** [test_hydraulic_node] *)
Example hydraulic_node_current :
  snd (compute sample_rt
         (new_node HydraulicNode "hyd1" ""
            (Some [("voltage", PInt 400); ("efficiency", PFloat 0.8)])
            (Some ["pressure"; "flow_rate"]) (Some ["hydraulic_current"]))
         (start (State.init (Some [("pressure", 1000%float);
                                   ("flow_rate", 0.5%float)]))))
  = mkMachine
      (mkState [("pressure", 1000%float); ("flow_rate", 0.5%float);
                ("hydraulic_current", (1000 * 0.5 / (0.8 * 400))%float)])
      [].
Proof. vm_compute. reflexivity. Qed.

(** [test_formula_node_with_math]: [sqrt(16) + pi] is [4 + pi] *)
Example formula_with_math :
  compute sample_rt (formula "f2" "sqrt(16) + pi" [] ["out"]) (start empty_state)
  = (Ok tt, mkMachine (mkState [("out", (4 + pi)%float)]) []).
Proof. vm_compute. reflexivity. Qed.

(** [test_single_node_no_edges] *)
Example single_node_no_edges :
  solve sample_rt default_solver
        [("alone", formula "alone" "42" [] ["val"])] [] (start empty_state)
  = (Ok ["alone"], mkMachine (mkState [("val", 42%float)]) ["alone"]).
Proof. vm_compute. reflexivity. Qed.

(** [test_snapshot_is_independent] and [test_delta] *)
Example snapshot_and_delta :
  let s := State.init (Some [("a", 10%float); ("b", 20%float)]) in
  let snap := snapshot s in
  let s' := State.set (State.set s "a" 10.5) "b" 19.8 in
  Dict.get snap "a" = Some 10%float /\
  (abs (delta s' snap - 0.5) <? 1e-9)%float = true /\
  delta s' [] = infinity.
Proof. repeat split; vm_compute; reflexivity. Qed.

(** [test_sweep_node_properties] *)
Example sweep_range_endpoints :
  Numpy.linspace 1 10 50 <> Err (builtin_exn ValueError) /\
  (match Numpy.linspace 1 10 50 with
   | Ok rng =>
       List.length rng = 50%nat /\
       hd 0%float rng = 1%float /\ last rng 0%float = 10%float
   | Err _ => False
   end).
Proof. split; [vm_compute; discriminate|vm_compute; auto]. Qed.

End SampleChecks.

(* ================================================================== *)
(** * Further properties of the sources *)
(* ================================================================== *)

(** ** The variable store *)

Module StateExtras.
Import Py State StateOps StateSpec FloatFacts StateFacts FormulaFacts.

Lemma length_set_present {V} (d : Dict.t V) k v :
  List.length (Dict.set d k v) =
  if Dict.contains d k then List.length d else S (List.length d).
Proof.
  unfold Dict.contains. induction d as [|[k0 v0] d IH]; simpl; [reflexivity|].
  destruct (String.eqb k0 k); simpl; [reflexivity|].
  rewrite IH. now destruct (Dict.get d k).
Qed.

(** X1. Writing then reading: after [set(name, value)] the store has
    [name], reads [value] for it whatever the default, reads every other
    name as before, and its length grew by one exactly when [name] was
    new. *)
Theorem set_then_get (s : SystemState) (name : string) (value : float) :
  has (State.set s name value) name = true /\
  StateOps.contains (State.set s name value) name = true /\
  (forall default, State.get (State.set s name value) name default = value) /\
  (forall other default,
      other <> name ->
      State.get (State.set s name value) other default
      = State.get s other default /\
      has (State.set s name value) other = has s other) /\
  len (State.set s name value) = (if has s name then len s else S (len s)).
Proof.
  unfold has, StateOps.contains, State.get, State.set, len, Dict.contains,
         Dict.get_default. simpl.
  rewrite DictFacts.get_set_same.
  repeat split; try reflexivity.
  - now rewrite DictFacts.get_set_other.
  - now rewrite DictFacts.get_set_other.
  - apply length_set_present.
Qed.

(** X2. Merging: after [update(mapping)] with a dictionary [mapping],
    every key of [mapping] reads the value [mapping] gives it and every
    other name reads as before. *)
Theorem update_then_get (s : SystemState) (mapping : Dict.t float)
    (name : string) (default : float) :
  NoDup (Dict.keys mapping) ->
  State.get (State.update s mapping) name default =
  match Dict.get mapping name with
  | Some v => v
  | None => State.get s name default
  end.
Proof.
  intros H. unfold State.get, State.update, Dict.get_default. simpl.
  rewrite (get_update _ _ _ H). now destruct (Dict.get mapping name).
Qed.

(** X2 at the store and the mapping of [test_update]. *)
Lemma update_then_get_sample :
  State.get (State.update (State.init (Some [("a", 1%float)]))
                          [("b", 2%float); ("c", 3%float)]) "b" 0%float
  = 2%float.
Proof.
  rewrite update_then_get.
  - reflexivity.
  - repeat constructor; simpl; intuition discriminate.
Defined.

(** X3. A store made from an initial dictionary reads the values of the
    dictionary; a store made from nothing, or from the empty dictionary,
    is empty: it has no name and reads the default for every name. *)
Theorem init_then_get :
  (forall (initial : Dict.t float) name default,
      NoDup (Dict.keys initial) ->
      State.get (State.init (Some initial)) name default
      = Dict.get_default initial name default) /\
  (forall name default,
      State.get (State.init None) name default = default /\
      State.get (State.init (Some [])) name default = default /\
      has (State.init None) name = false /\
      len (State.init None) = 0%nat /\ len (State.init (Some [])) = 0%nat).
Proof.
  split.
  - intros initial name default H. destruct initial as [|e initial];
      [reflexivity|].
    change (State.get (State.init (Some (e :: initial))) name default)
      with (Dict.get_default (Dict.update (Dict.empty float) (e :: initial))
                             name default).
    unfold Dict.get_default. rewrite (get_update _ _ _ H).
    now destruct (Dict.get (e :: initial) name).
  - intros name default. repeat split; reflexivity.
Qed.

Lemma ltb_true_not_nan (m d : float) :
  (m <? d)%float = true -> is_nan d = false.
Proof.
  intros H. apply ltb_true_compare in H. unfold is_nan.
  rewrite eqb_spec. unfold SFeqb.
  destruct (Prim2SF m) as [sm|sm| |sm mm em],
           (Prim2SF d) as [[]|[]| |[] md ed];
    simpl in *; try discriminate; try reflexivity;
    rewrite Z.compare_refl, pos_compare_cont_Eq, Pos.compare_refl;
    reflexivity.
Qed.

Section DeltaRange.
Variables (s : SystemState) (prev : Dict.t float).

Lemma delta_step_not_nan m k :
  is_nan m = false -> is_nan (delta_step s prev m k) = false.
Proof.
  intros H. destruct (delta_step_cases s prev m k) as [->|[b [_ [Hlt ->]]]].
  - exact H.
  - eapply ltb_true_not_nan; eauto.
Qed.

Lemma delta_fold_not_nan ks : forall m,
  is_nan m = false -> is_nan (fold_left (delta_step s prev) ks m) = false.
Proof.
  induction ks as [|k ks IH]; simpl; intros m H; [exact H|].
  apply IH. now apply delta_step_not_nan.
Qed.

End DeltaRange.

(** X4. [delta] is never not-a-number and never negative, whatever the
    two dictionaries hold: differences that are not numbers are passed
    over. *)
Theorem delta_is_a_distance (s : SystemState) (previous : Dict.t float) :
  is_nan (delta s previous) = false /\
  (delta s previous <? 0)%float = false.
Proof.
  unfold delta. destruct previous as [|e p].
  - split; reflexivity.
  - split.
    + now apply delta_fold_not_nan.
    + apply delta_fold_keeps_bound. reflexivity.
Qed.

Lemma sub_self_zero_or_nan (v : float) :
  FloatSpec.zero_or_nan (Prim2SF (abs (v - v))).
Proof.
  rewrite abs_spec, sub_spec. unfold SF64sub, SFsub.
  destruct (Prim2SF v) as [[]|[]| |sv mv ev]; try exact I.
  rewrite Z.sub_diag. exact I.
Qed.

Lemma zero_not_below (d : float) :
  FloatSpec.zero_or_nan (Prim2SF d) -> (0 <? d)%float = false.
Proof.
  intros H. rewrite ltb_spec. unfold SFltb.
  change (Prim2SF 0) with (S754_zero false).
  destruct (Prim2SF d) as [sd|sd| |sd md ed]; try contradiction; reflexivity.
Qed.

Lemma delta_fold_self (s : SystemState) prev ks :
  (forall k, In k ks ->
     exists v, Dict.get (_variables s) k = Some v /\ Dict.get prev k = Some v) ->
  fold_left (delta_step s prev) ks 0%float = 0%float.
Proof.
  induction ks as [|k ks IH]; intros H; [reflexivity|]. simpl.
  destruct (H k (or_introl eq_refl)) as [v [Hv Hp]].
  assert (E : delta_step s prev 0 k = 0%float).
  { unfold delta_step. rewrite Hp, (get0_of_get _ _ _ Hv).
    now rewrite zero_not_below by apply sub_self_zero_or_nan. }
  rewrite E. apply IH. intros k' Hk'. apply H. now right.
Qed.

(** X5. A store compared with its own snapshot: the distance is [0.0]
    when the store has a variable, also when values are infinite or not
    numbers, and it is the positive infinity when the store is empty. *)
Theorem delta_of_own_snapshot (s : SystemState) :
  delta s (snapshot s) =
  match _variables s with
  | [] => infinity
  | _ :: _ => 0%float
  end.
Proof.
  unfold delta, snapshot. destruct (_variables s) as [|e d] eqn:E;
    [reflexivity|].
  rewrite <- E. apply delta_fold_self. intros k Hk.
  destruct (DictFacts.in_keys_get _ _ _ Hk) as [v Hv]. eauto.
Qed.

End StateExtras.

(** ** The nodes *)

Module NodeExtras.
Import Py State Exec Nodes NodeSpec StateOps FormulaFacts.

Lemma motor_compute_eq rt self m :
  motor_compute rt self m =
  match current_of_power rt
          (get0 (store m) (nth_or (inputs self) 0 "torque")
           * (get0 (store m) (nth_or (inputs self) 1 "speed") * 2 * pi / 60))
          (param_or self "efficiency" 0.85) (param_or self "voltage" 230) with
  | Ok current =>
      (Ok tt, mkMachine (State.set (store m)
                           (nth_or (outputs self) 0 "motor_current") current)
                        (invoked m))
  | Err e => (Err e, m)
  end.
Proof.
  unfold motor_compute, mbind, state_get0, lift, state_set. simpl.
  now destruct (current_of_power rt _ _ _).
Qed.

Lemma hydraulic_compute_eq rt self m :
  hydraulic_compute rt self m =
  match current_of_power rt
          (get0 (store m) (nth_or (inputs self) 0 "pressure")
           * get0 (store m) (nth_or (inputs self) 1 "flow_rate"))
          (param_or self "efficiency" 0.8) (param_or self "voltage" 400) with
  | Ok current =>
      (Ok tt, mkMachine (State.set (store m)
                           (nth_or (outputs self) 0 "hydraulic_current") current)
                        (invoked m))
  | Err e => (Err e, m)
  end.
Proof.
  unfold hydraulic_compute, mbind, state_get0, lift, state_set. simpl.
  now destruct (current_of_power rt _ _ _).
Qed.










(** A parameter that is a float, or absent. *)
Lemma param_or_float (self : BaseNode) key default :
  (forall k p, Dict.get (params self) k = Some p -> exists f, p = PFloat f) ->
  exists f, param_or self key default = PFloat f.
Proof.
  intros H. unfold param_or, Dict.get_default.
  destruct (Dict.get (params self) key) as [p|] eqn:E; eauto.
Qed.

Lemma current_of_power_float rt power e v :
  current_of_power rt power (PFloat e) (PFloat v)
  = Ok (if (e * v =? 0)%float then 0%float else (power / (e * v))%float).
Proof.
  unfold current_of_power. simpl.
  destruct (e * v =? 0)%float; reflexivity.
Qed.

(** X8. The three component nodes cannot fail on float parameters: when
    every parameter given is a float, [compute] of a motor, a heater or a
    hydraulic node returns, for every store; the test against a zero
    denominator keeps the division from raising. *)
Theorem component_compute_returns rt (self : BaseNode) (m : Machine) :
  cls self = MotorNode \/ cls self = HeaterNode \/ cls self = HydraulicNode ->
  (forall k p, Dict.get (params self) k = Some p -> exists f, p = PFloat f) ->
  exists m', compute rt self m = (Ok tt, m').
Proof.
  intros Hc Hp. unfold compute.
  destruct Hc as [Hc|[Hc|Hc]]; rewrite Hc.
  - rewrite motor_compute_eq.
    destruct (param_or_float self "efficiency" 0.85%float Hp) as [e ->].
    destruct (param_or_float self "voltage" 230%float Hp) as [v ->].
    rewrite current_of_power_float. eauto.
  - unfold heater_compute, mbind, state_get0, lift, state_set.
    destruct (param_or_float self "r0" 10%float Hp) as [r0 ->].
    destruct (param_or_float self "alpha" 0.004%float Hp) as [al ->].
    destruct (param_or_float self "t0" 25%float Hp) as [t0 ->].
    destruct (param_or_float self "voltage" 230%float Hp) as [v ->].
    simpl.
    match goal with |- context [negb (?r =? 0)%float] =>
      destruct (r =? 0)%float end; simpl; eauto.
  - rewrite hydraulic_compute_eq.
    destruct (param_or_float self "efficiency" 0.8%float Hp) as [e ->].
    destruct (param_or_float self "voltage" 400%float Hp) as [v ->].
    rewrite current_of_power_float. eauto.
Qed.

(** X8 at a motor whose efficiency is zero: the current written is 0.0. *)
Lemma component_compute_returns_sample :
  exists m',
    compute Samples.sample_rt
      (new_node MotorNode "m1" "" (Some [("efficiency", PFloat 0)]) None None)
      (Samples.start (State.init (Some [("torque", 10%float)])))
    = (Ok tt, m').
Proof.
  apply component_compute_returns.
  - left. reflexivity.
  - intros k p H.
    change (Dict.get [("efficiency", PFloat 0)] k = Some p) in H.
    cbn [Dict.get] in H.
    destruct (String.eqb "efficiency" k); inversion H. eauto.
Defined.

(** X9. What a name of a formula stands for: an entry of the whitelist
    first, so a variable of the store that has the name of a whitelisted
    function or of [pi] cannot be read; then the variable of the store,
    as a float; then, for [__builtins__], the empty dictionary; any other
    name raises [NameError]. *)
Theorem namespace_lookup (vars : Dict.t float) (id : string) :
  lookup (namespace_of vars) id =
  match Dict.get _SAFE_BUILTINS id with
  | Some v => Ok v
  | None =>
      match Dict.get vars id with
      | Some f => Ok (VFloat f)
      | None => if String.eqb id "__builtins__" then Ok VEmptyDict
                else Err (builtin_exn NameError)
      end
  end.
Proof.
  unfold lookup. rewrite get_namespace.
  destruct (Dict.get _SAFE_BUILTINS id); [reflexivity|].
  now destruct (Dict.get vars id).
Qed.

End NodeExtras.

(** ** The solver *)

Module SolverExtras.
Import Py State Exec Nodes DiGraph Kahn Solver Spec BlockSpec.
Import FloatFacts GraphFacts BuildFacts KahnResult CycleFacts ExecFacts.
Import AcyclicFacts SubgraphFacts BlockFacts CyclicFacts.
Local Open Scope exec_scope.

Lemma nodup_split_unique (x : string) : forall p q p' q',
  NoDup (p ++ x :: q) -> p ++ x :: q = p' ++ x :: q' -> p = p' /\ q = q'.
Proof.
  induction p as [|a p IH]; intros q p' q' Hnd E.
  - destruct p' as [|b p']; simpl in E.
    + injection E as <-. auto.
    + injection E as <- ->. simpl in Hnd. inversion Hnd as [|? ? Hx _]; subst.
      exfalso. apply Hx. apply in_or_app. right. now left.
  - destruct p' as [|b p']; simpl in E.
    + injection E as -> <-. inversion Hnd as [|? ? Hx _]; subst.
      exfalso. apply Hx. apply in_or_app. right. now left.
    + injection E as <- E. inversion Hnd as [|? ? _ Hnd']; subst.
      destruct (IH _ _ _ Hnd' E) as [-> ->]. auto.
Qed.

Lemma before_trans (a b c : string) l :
  NoDup l -> before a b l -> before b c l -> before a c l.
Proof.
  intros Hnd [l1 [l2 [l3 E1]]] [k1 [k2 [k3 E2]]].
  assert (E : (l1 ++ a :: l2) ++ b :: l3 = k1 ++ b :: k2 ++ c :: k3).
  { rewrite <- E2, E1. now rewrite <- app_assoc. }
  assert (Hnd' : NoDup ((l1 ++ a :: l2) ++ b :: l3)).
  { rewrite <- app_assoc. simpl. now rewrite <- E1. }
  destruct (nodup_split_unique _ _ _ _ _ Hnd' E) as [_ ->].
  exists l1, (l2 ++ b :: k2), k3. rewrite E1. now rewrite <- app_assoc.
Qed.

Lemma before_irrefl (a : string) l : NoDup l -> ~ before a a l.
Proof.
  intros Hnd [l1 [l2 [l3 E]]]. subst l.
  apply NoDup_remove_2 in Hnd. apply Hnd.
  apply in_or_app. right. apply in_or_app. right. now left.
Qed.

Lemma before_in_l (a b : string) l : before a b l -> In a l.
Proof.
  intros [l1 [l2 [l3 ->]]]. apply in_or_app. right. now left.
Qed.

Section KahnAnyGraph.
Variable g : DiGraph.t.
Hypothesis Hwf : wf g.

(** Along a walk that ends in a listed node, every node is listed, and
    before the end. *)
Lemma chain_before l : forall a b,
  chain g (a :: l ++ [b]) -> In b (_kahns_sort g) ->
  before a b (_kahns_sort g).
Proof.
  induction l as [|a' l IH]; intros a b Hc Hb.
  - simpl in Hc. destruct Hc as [He _].
    now apply (kahns_sort_order g Hwf).
  - change (chain g (a :: a' :: l ++ [b])) in Hc.
    assert (He : has_edge g a a' = true) by (simpl in Hc; tauto).
    assert (Hc' : chain g (a' :: l ++ [b])) by (simpl in Hc; tauto).
    pose proof (IH _ _ Hc' Hb) as Hab.
    apply before_trans with (b := a'); [apply (kahns_sort_nodup g Hwf)| |exact Hab].
    apply (kahns_sort_order g Hwf); [exact He|].
    eapply before_in_l; eauto.
Qed.

Lemma kahns_sort_off_cycles v :
  In v (_kahns_sort g) -> on_cycle g v = false.
Proof.
  intros Hv. destruct (on_cycle g v) eqn:E; [|reflexivity].
  apply on_cycle_closed_walk in E as [l Hl].
  exfalso. apply (before_irrefl v (_kahns_sort g) (kahns_sort_nodup g Hwf)).
  now apply (chain_before l).
Qed.

End KahnAnyGraph.

(** X10. Kahn's sort on any graph, cyclic or not: the result repeats no
    node and lists only nodes of the graph; a listed node is on no cycle
    and comes after each of its predecessors, which are therefore listed
    too; a node that is left out has a predecessor that is left out; and
    when the graph has no cycle the result is a permutation of the
    nodes. *)
Theorem kahns_sort_sound (g : DiGraph.t) :
  wf g ->
  NoDup (_kahns_sort g) /\
  (forall v, In v (_kahns_sort g) ->
      In v (DiGraph.nodes g) /\ on_cycle g v = false /\
      forall u, has_edge g u v = true -> before u v (_kahns_sort g)) /\
  (forall v, In v (DiGraph.nodes g) -> ~ In v (_kahns_sort g) ->
      exists u, has_edge g u v = true /\ In u (DiGraph.nodes g) /\
                ~ In u (_kahns_sort g)) /\
  (cycle_nodes g = [] -> Permutation (_kahns_sort g) (DiGraph.nodes g)).
Proof.
  intros Hwf. split; [apply (kahns_sort_nodup g Hwf)|split; [|split]].
  - intros v Hv. split; [now apply (kahns_sort_incl g Hwf)|split].
    + now apply kahns_sort_off_cycles.
    + intros u He. now apply (kahns_sort_order g Hwf).
  - intros v Hv Hn. now apply (left_out_has_pred g Hwf).
  - intros Hc. apply (kahns_sort_permutation g Hwf).
    now apply no_cycle_nodes_acyclic.
Qed.

(** X10 at the graph of the mixed sample, a node before the loop of X and
    Y and a node after it: only the node before the loop is listed. *)
Lemma kahns_sort_sound_mixed :
  NoDup (_kahns_sort (_build_graph Samples.mixed_nodes Samples.mixed_edges)) /\
  _kahns_sort (_build_graph Samples.mixed_nodes Samples.mixed_edges) = ["P"].
Proof.
  destruct (kahns_sort_sound
              (_build_graph Samples.mixed_nodes Samples.mixed_edges)
              (build_graph_wf Samples.mixed_nodes Samples.mixed_edges))
    as [H _].
  split; [exact H|vm_compute; reflexivity].
Defined.




(** [delta] is not below a threshold that is zero, negative or not a
    number. *)
Lemma not_below_nonpositive (d thr : float) :
  is_nan d = false -> (d <? 0)%float = false -> (0 <? thr)%float = false ->
  (d <? thr)%float = false.
Proof.
  unfold is_nan. rewrite eqb_spec, !ltb_spec.
  change (Prim2SF 0) with (S754_zero false).
  unfold SFeqb, SFltb, SFcompare.
  destruct (Prim2SF d) as [[]|[]| |[] md ed],
           (Prim2SF thr) as [[]|[]| |[] mt et];
    simpl; intros; try reflexivity; try discriminate.
Qed.

Lemma delta_not_below s prev thr :
  (0 <? thr)%float = false -> (delta s prev <? thr)%float = false.
Proof.
  intros H. unfold delta. destruct prev as [|e p].
  - apply infinity_not_ltb.
  - apply not_below_nonpositive; [| |exact H].
    + now apply StateExtras.delta_fold_not_nan.
    + now apply StateFacts.delta_fold_keeps_bound.
Qed.

Lemma never_converged rt thr nodes order j m :
  (0 <? thr)%float = false -> converged_at rt thr nodes order j m = false.
Proof.
  intros H. unfold converged_at.
  destruct (after_passes rt nodes order j m); [|reflexivity].
  destruct (after_passes rt nodes order (S j) m); [|reflexivity].
  now apply delta_not_below.
Qed.

(** X12. With a convergence threshold that is zero, negative or not a
    number no pass counts as converged: a cyclic block that returns has
    made exactly [max_iterations] passes. *)
Theorem nonpositive_threshold_runs_all_passes
    rt self nodes order (m m' : Machine) (log : list string) :
  (0 <? convergence_threshold self)%float = false ->
  _iterate_until_converged rt self nodes order m = (Ok log, m') ->
  log = repeat_list (known nodes order) (Z.to_nat (max_iterations self)) /\
  after_passes rt nodes order (Z.to_nat (max_iterations self)) m = Some m'.
Proof.
  intros Ht H.
  apply iterate_until_converged_ok in H
    as [_ [k [Hk [Ha [Hlog [_ Hc]]]]]].
  assert (E : k = Z.to_nat (max_iterations self)).
  { destruct (Nat.eq_dec k (Z.to_nat (max_iterations self))) as [E|Hne];
      [exact E|].
    assert (Hlt : (k < Z.to_nat (max_iterations self))%nat) by lia.
    apply Hc in Hlt. rewrite never_converged in Hlt by exact Ht.
    discriminate. }
  subst k. auto.
Qed.

(** X12 at the feedback loop of X and Y with the threshold 0.0 and three
    passes allowed. *)
Lemma nonpositive_threshold_runs_all_passes_sample :
  fst (_iterate_until_converged Samples.sample_rt (mkSolver 0 3)
         Samples.feedback_nodes ["X"; "Y"]
         (Samples.start Samples.feedback_initial))
  = Ok (repeat_list (known Samples.feedback_nodes ["X"; "Y"]) 3).
Proof.
  destruct (_iterate_until_converged Samples.sample_rt (mkSolver 0 3)
              Samples.feedback_nodes ["X"; "Y"]
              (Samples.start Samples.feedback_initial))
    as [[log|e] m'] eqn:E.
  - destruct (nonpositive_threshold_runs_all_passes Samples.sample_rt
                (mkSolver 0 3) Samples.feedback_nodes ["X"; "Y"]
                (Samples.start Samples.feedback_initial) m' log
                eq_refl E) as [-> _].
    reflexivity.
  - vm_compute in E. discriminate.
Defined.

Lemma delta_unchanged s s' :
  _variables s' = _variables s -> _variables s <> [] ->
  delta s' (snapshot s) = 0%float.
Proof.
  intros E Hne. unfold delta, snapshot.
  destruct (_variables s) as [|e d] eqn:Es; [contradiction|].
  rewrite <- Es. apply StateExtras.delta_fold_self.
  intros k Hk. rewrite E, Es in *.
  destruct (DictFacts.in_keys_get _ _ _ Hk) as [v Hv]. eauto.
Qed.

(** X13. A pass over the cycle that leaves a store with at least one
    variable exactly as it was ends the iteration, whenever the threshold
    is positive and a pass is allowed: the block runs once. *)
Theorem unchanged_store_ends_iteration
    rt self nodes order (m m1 : Machine) (l : list string) :
  (0 <? convergence_threshold self)%float = true ->
  (1 <= max_iterations self)%Z ->
  pass rt nodes order m = (Ok l, m1) ->
  _variables (store m1) = _variables (store m) ->
  _variables (store m) <> [] ->
  _iterate_until_converged rt self nodes order m
  = (Ok (known nodes order), m1).
Proof.
  intros Ht Hmax Hp Hs Hne. unfold _iterate_until_converged.
  destruct (Z.leb_spec (max_iterations self) 0) as [Hle|_]; [lia|].
  destruct (Z.to_nat (max_iterations self)) as [|r] eqn:Er; [lia|].
  rewrite iterate_unfold, Hp, (delta_unchanged _ _ Hs Hne), Ht.
  apply pass_ok in Hp as [-> _]. reflexivity.
Qed.

(** X13 at a node that writes 42.0 into a store that holds it. *)
Lemma unchanged_store_ends_iteration_sample :
  _iterate_until_converged Samples.sample_rt default_solver
    MoreSamples.constant_nodes ["B"]
    (Samples.start MoreSamples.constant_initial)
  = (Ok (known MoreSamples.constant_nodes ["B"]),
     mkMachine MoreSamples.constant_initial ["B"]).
Proof.
  apply (unchanged_store_ends_iteration Samples.sample_rt default_solver
           MoreSamples.constant_nodes ["B"]
           (Samples.start MoreSamples.constant_initial)
           (mkMachine MoreSamples.constant_initial ["B"]) ["B"]).
  - vm_compute. reflexivity.
  - vm_compute. discriminate.
  - vm_compute. reflexivity.
  - vm_compute. reflexivity.
  - vm_compute. discriminate.
Defined.

(** X14. The first pass over a cycle that starts from an empty store never
    counts as converged (the distance to an empty snapshot is infinite):
    when two passes are allowed, a cyclic block that returns has made at
    least two. *)
Theorem empty_store_needs_two_passes
    rt self nodes order (m m' : Machine) (log : list string) :
  _variables (store m) = [] ->
  (2 <= max_iterations self)%Z ->
  _iterate_until_converged rt self nodes order m = (Ok log, m') ->
  exists k,
    (2 <= k <= Z.to_nat (max_iterations self))%nat /\
    log = repeat_list (known nodes order) k /\
    after_passes rt nodes order k m = Some m'.
Proof.
  intros He Hmax H.
  apply iterate_until_converged_ok in H
    as [_ [k [Hk [Ha [Hlog [_ Hc]]]]]].
  exists k. split; [|auto].
  destruct (Nat.eq_dec k 1) as [->|Hne]; [|lia].
  exfalso. assert (Hlt : (1 < Z.to_nat (max_iterations self))%nat) by lia.
  apply Hc in Hlt. simpl in Hlt. unfold converged_at in Hlt.
  simpl in Hlt.
  destruct (pass rt nodes order m) as [[l|e] m1]; [|discriminate].
  unfold delta, snapshot in Hlt. rewrite He in Hlt.
  now rewrite infinity_not_ltb in Hlt.
Qed.

(** X14 at a node that writes the constant 42.0, from the empty store:
    the first pass does not count, the second one changes nothing. *)
Lemma empty_store_needs_two_passes_sample :
  exists k,
    (2 <= k <= 100)%nat /\
    ["B"; "B"] = repeat_list (known MoreSamples.constant_nodes ["B"]) k.
Proof.
  destruct (empty_store_needs_two_passes Samples.sample_rt default_solver
              MoreSamples.constant_nodes ["B"]
              (Samples.start Samples.empty_state)
              (mkMachine MoreSamples.constant_initial ["B"; "B"]) ["B"; "B"])
    as [k [Hk [Hl _]]].
  - reflexivity.
  - vm_compute. discriminate.
  - vm_compute. reflexivity.
  - exists k. split; [exact Hk|exact Hl].
Defined.



(** The order a solve of a graph with a cycle returns. *)
Lemma solve_cyclic_order rt self nodes edges m order m' :
  cycle_nodes (_build_graph nodes edges) <> [] ->
  solve rt self nodes edges m = (Ok order, m') ->
  exists k,
    (1 <= k <= Z.to_nat (max_iterations self))%nat /\
    invoked m' = invoked m ++ order /\
    order =
    known nodes
      (pre_cycle (_build_graph nodes edges)
         (cycle_nodes (_build_graph nodes edges))
         (_kahns_sort
            (subgraph (view_iter rt) (_build_graph nodes edges)
               (acyclic_nodes (_build_graph nodes edges)
                  (cycle_nodes (_build_graph nodes edges))))))
    ++ repeat_list
         (known nodes
            (_resolve_cycle_order rt (_build_graph nodes edges)
               (cycle_nodes (_build_graph nodes edges)))) k
    ++ known nodes
         (post_cycle (_build_graph nodes edges)
            (cycle_nodes (_build_graph nodes edges))
            (_kahns_sort
               (subgraph (view_iter rt) (_build_graph nodes edges)
                  (acyclic_nodes (_build_graph nodes edges)
                     (cycle_nodes (_build_graph nodes edges)))))).
Proof.
  intros Hcyc H.
  rewrite (solve_cyclic rt nodes edges self Hcyc) in H.
  unfold mbind in H.
  destruct (run_nodes rt nodes (pre_cycle _ _ _) [] m) as [[eo|e] m1] eqn:H1;
    [|discriminate].
  destruct (_iterate_until_converged rt self nodes _ m1)
    as [[ce|e] m2] eqn:H2; [|discriminate].
  apply run_nodes_ok in H1 as [Heo Hi1]. simpl in Heo.
  apply run_nodes_ok in H as [Ho Hi3].
  apply iterate_until_converged_ok in H2 as [_ [k [Hk [Ha [Hce _]]]]].
  assert (Hi2 : invoked m2 = invoked m1 ++ ce)
    by (rewrite Hce; now apply (after_passes_invoked rt nodes _ k)).
  exists k. split; [exact Hk|split].
  - rewrite Hi3, Hi2, Hi1, Ho, Heo. unfold known.
    now rewrite <- !app_assoc.
  - rewrite Ho, Heo, Hce. unfold known. now rewrite app_assoc.
Qed.



Lemma in_nodes_add_edges_from_inv es : forall g x,
  In x (DiGraph.nodes (add_edges_from g es)) ->
  In x (DiGraph.nodes g) \/ exists e, In e es /\ (x = fst e \/ x = snd e).
Proof.
  unfold add_edges_from.
  induction es as [|[u v] es IH]; intros g x H; simpl in *; [now left|].
  apply IH in H as [H|[e [He Hx]]].
  - apply in_nodes_add_edge in H as [H|[->| ->]].
    + now left.
    + right. exists (u, v). simpl. auto.
    + right. exists (u, v). simpl. auto.
  - right. exists e. auto.
Qed.

Lemma build_graph_nodes (nodes : Dict.t BaseNode)
    (edges : list (string * string)) x :
  In x (DiGraph.nodes (_build_graph nodes edges)) <->
  In x (Dict.keys nodes) \/ exists e, In e edges /\ (x = fst e \/ x = snd e).
Proof.
  split.
  - intros H. unfold _build_graph in H.
    apply in_nodes_add_edges_from_inv in H as [H|H]; [|now right].
    apply in_nodes_add_nodes_from in H as [H|H]; [destruct H|now left].
  - intros [H|[[u v] [He [->| ->]]]].
    + apply build_graph_known. now apply DictFacts.contains_true_iff.
    + now apply (build_graph_edge_ends nodes edges u v).
    + now apply (build_graph_edge_ends nodes edges u v).
Qed.

(** X16. The graph the solver builds: its nodes are the declared ids
    together with the ends of the edges, declared or not, none listed
    twice; its edges are exactly the pairs of the edge list, a pair
    given twice counting once. *)
Theorem build_graph_shape (nodes : Dict.t BaseNode)
    (edges : list (string * string)) :
  NoDup (DiGraph.nodes (_build_graph nodes edges)) /\
  (forall x,
      In x (DiGraph.nodes (_build_graph nodes edges)) <->
      In x (Dict.keys nodes) \/
      exists e, In e edges /\ (x = fst e \/ x = snd e)) /\
  (forall u v,
      In v (successors (_build_graph nodes edges) u) <-> In (u, v) edges) /\
  (forall u, NoDup (successors (_build_graph nodes edges) u)).
Proof.
  pose proof (build_graph_wf nodes edges) as Hwf.
  split; [apply (wf_nodes Hwf)|split; [|split]].
  - intros x. apply build_graph_nodes.
  - intros u v. rewrite <- has_edge_iff. apply build_graph_edge.
  - intros u. apply (wf_succ_nodup Hwf).
Qed.

(** What a solve that returns has invoked, for any graph: the nodes of
    its execution order, in that order; all of them are declared. *)
Lemma solve_order_invoked rt self nodes edges m order m' :
  solve rt self nodes edges m = (Ok order, m') ->
  invoked m' = invoked m ++ order /\
  forall x, In x order -> Dict.contains nodes x = true.
Proof.
  intros H.
  destruct (cycle_nodes (_build_graph nodes edges)) as [|c cs] eqn:Hc.
  - rewrite (solve_acyclic rt self nodes edges Hc) in H.
    apply run_nodes_ok in H as [-> ->]. simpl. split; [reflexivity|].
    intros x Hx. now apply filter_In in Hx.
  - assert (Hne : cycle_nodes (_build_graph nodes edges) <> [])
      by (rewrite Hc; discriminate).
    destruct (solve_cyclic_order rt self nodes edges m order m' Hne H)
      as [k [_ [Hi Ho]]].
    split; [exact Hi|]. intros x Hx. rewrite Ho in Hx.
    apply in_app_or in Hx as [Hx|Hx];
      [|apply in_app_or in Hx as [Hx|Hx]].
    + unfold known in Hx. now apply filter_In in Hx.
    + apply in_repeat_list in Hx. unfold known in Hx.
      now apply filter_In in Hx.
    + unfold known in Hx. now apply filter_In in Hx.
Qed.

End SolverExtras.

(** ** The registry and the engine *)

Module EngineExtras.
Import Py State Exec Nodes DiGraph Kahn Solver Spec BlockSpec Engine.
Import Registry EngineMore ParseSpec.
Import GraphFacts BuildFacts BumpFacts KahnResult CycleFacts ExecFacts.
Import AcyclicFacts BlockFacts EngineFacts.

Lemma in_keys_set {V} (d : Dict.t V) k v x :
  In x (Dict.keys (Dict.set d k v)) <-> In x (Dict.keys d) \/ x = k.
Proof.
  destruct (in_dec String.string_dec k (Dict.keys d)) as [Hi|Hn].
  - rewrite (keys_set_present _ _ v Hi). split; [tauto|].
    intros [H| ->]; assumption.
  - rewrite (keys_set_absent _ _ v Hn), in_app_iff. simpl.
    split; intros [H|H]; auto; destruct H as [->|[]]; auto.
Qed.

Lemma nodup_keys_set {V} (d : Dict.t V) k v :
  NoDup (Dict.keys d) -> NoDup (Dict.keys (Dict.set d k v)).
Proof.
  intros H. destruct (in_dec String.string_dec k (Dict.keys d)) as [Hi|Hn].
  - now rewrite (keys_set_present _ _ v Hi).
  - rewrite (keys_set_absent _ _ v Hn). apply NoDup_app; auto.
    + repeat constructor. simpl. tauto.
    + intros x Hx [<-|[]]. contradiction.
Qed.

(** X17. Registering a class under a type name makes [get_node_class]
    return it for that name and changes what no other name resolves to;
    a name that was registered keeps its place in [list_node_types], a new
    one is added at the end. *)
Theorem register_then_get (registry : Dict.t NodeClass)
    (type_name : string) (c : NodeClass) :
  get_node_class (register_node_type registry type_name c) type_name = Ok c /\
  (forall other c',
      other <> type_name ->
      get_node_class (register_node_type registry type_name c) other = Ok c'
      <-> get_node_class registry other = Ok c') /\
  list_node_types (register_node_type registry type_name c)
  = (if Dict.contains registry type_name then list_node_types registry
     else list_node_types registry ++ [type_name]).
Proof.
  unfold get_node_class, register_node_type, list_node_types.
  split; [|split].
  - now rewrite DictFacts.get_set_same.
  - intros other c' Hne. rewrite DictFacts.get_set_other by exact Hne.
    destruct (Dict.get registry other); split; intros H;
      try discriminate; exact H.
  - destruct (Dict.contains registry type_name) eqn:E.
    + apply keys_set_present. now apply DictFacts.contains_true_iff.
    + apply keys_set_absent. intros H.
      apply DictFacts.contains_true_iff in H. congruence.
Qed.

(** X18. [get_node_class] returns exactly for the type names that
    [list_node_types] lists; for any other name it raises a [KeyError]
    that shows the name and the list of the registered types, and so
    does [create_node]. A node that [create_node] makes has the class
    registered for the type and the id given; its label is the id when
    the label given is empty. *)
Theorem get_node_class_listed (registry : Dict.t NodeClass)
    (type_name : string) :
  (In type_name (list_node_types registry) <->
   exists c, get_node_class registry type_name = Ok c) /\
  (~ In type_name (list_node_types registry) ->
   exists e,
     get_node_class registry type_name = Err e /\
     exn_kind_of e = KeyError /\
     In (ReprStr type_name) (exn_message e) /\
     In (ReprList (list_node_types registry)) (exn_message e) /\
     forall node_id label params inputs outputs,
       create_node registry type_name node_id label params inputs outputs
       = Err e) /\
  (forall node_id label params inputs outputs node,
      create_node registry type_name node_id label params inputs outputs
      = Ok node ->
      get_node_class registry type_name = Ok (cls node) /\
      Nodes.node_id node = node_id /\
      Nodes.label node = (if String.eqb label "" then node_id else label)).
Proof.
  unfold list_node_types, create_node, get_node_class.
  split; [|split].
  - split.
    + intros H. apply DictFacts.in_keys_get in H as [c Hc].
      exists c. now rewrite Hc.
    + intros [c Hc]. destruct (Dict.get registry type_name) eqn:E;
        [|discriminate].
      eapply DictFacts.get_some_in_keys; eauto.
  - intros Hn. destruct (Dict.get registry type_name) as [c|] eqn:E.
    + exfalso. apply Hn. eapply DictFacts.get_some_in_keys; eauto.
    + eexists. split; [reflexivity|]. simpl. tauto.
  - intros node_id label params inputs outputs node.
    destruct (Dict.get registry type_name) as [c|]; [|discriminate].
    simpl. intros [= <-]. auto.
Qed.

Lemma parse_node_ok registry rn k n :
  parse_node registry rn = Ok (k, n) ->
  rn_id rn = Some k /\ Nodes.node_id n = k /\
  get_node_class registry (type_of_raw rn) = Ok (cls n).
Proof.
  unfold parse_node, required, create_node, type_of_raw.
  destruct (rn_id rn) as [i|]; [|discriminate]. simpl.
  destruct (get_node_class registry _) as [c|e]; [|discriminate]. simpl.
  intros [= <- <-]. auto.
Qed.

Lemma parse_node_accepts registry rn :
  (exists entry, parse_node registry rn = Ok entry) <->
  node_ok registry rn = true.
Proof.
  unfold parse_node, node_ok, required, create_node, get_node_class,
         type_of_raw, Dict.contains.
  destruct (rn_id rn) as [i|]; simpl.
  - destruct (Dict.get registry _) as [c|]; simpl.
    + split; [reflexivity|eauto].
    + split; [intros [entry H]|]; discriminate.
  - split; [intros [entry H]|]; discriminate.
Qed.

Lemma parse_node_kind registry rn e :
  parse_node registry rn = Err e -> exn_kind_of e = KeyError.
Proof.
  unfold parse_node, required, create_node, get_node_class.
  destruct (rn_id rn) as [i|]; simpl; [|now intros [= <-]].
  destruct (Dict.get registry _) as [c|]; simpl; [discriminate|].
  now intros [= <-].
Qed.

Lemma parse_nodes_accepts registry raw : forall acc,
  (exists nodes, parse_nodes registry raw acc = Ok nodes) <->
  forallb (node_ok registry) raw = true.
Proof.
  induction raw as [|rn raw IH]; intros acc; simpl.
  - split; [reflexivity|eauto].
  - rewrite andb_true_iff, <- parse_node_accepts.
    destruct (parse_node registry rn) as [entry|e]; simpl.
    + rewrite IH. split; [eauto|tauto].
    + split; [intros [nodes H]; discriminate|].
      intros [[entry H] _]. discriminate.
Qed.

Lemma parse_nodes_kind registry raw : forall acc e,
  parse_nodes registry raw acc = Err e -> exn_kind_of e = KeyError.
Proof.
  induction raw as [|rn raw IH]; intros acc e; simpl; [discriminate|].
  destruct (parse_node registry rn) as [entry|e'] eqn:E; simpl.
  - apply IH.
  - intros [= <-]. eapply parse_node_kind; eauto.
Qed.

Lemma parse_edges_accepts raw : forall acc,
  (exists edges, parse_edges raw acc = Ok edges) <->
  forallb edge_ok raw = true.
Proof.
  induction raw as [|re_ raw IH]; intros acc; simpl.
  - split; [reflexivity|eauto].
  - unfold edge_ok at 1, required.
    destruct (re_source re_) as [u|]; simpl.
    + destruct (re_target re_) as [v|]; simpl.
      * apply IH.
      * split; [intros [edges H]|]; discriminate.
    + split; [intros [edges H]|]; discriminate.
Qed.

Lemma parse_edges_kind raw : forall acc e,
  parse_edges raw acc = Err e -> exn_kind_of e = KeyError.
Proof.
  induction raw as [|re_ raw IH]; intros acc e; simpl; [discriminate|].
  unfold required.
  destruct (re_source re_) as [u|]; simpl; [|now intros [= <-]].
  destruct (re_target re_) as [v|]; simpl; [|now intros [= <-]].
  apply IH.
Qed.

(** X19. [_parse_graph] accepts a description, whose entries have the
    types of the React Flow format, exactly when every node has an id and
    a type that is registered (the type [formula] when none is given) and
    every edge has a source and a target. Otherwise it raises a
    [KeyError], and [run], [run_sweep] and [get_execution_order] raise it
    with no [compute] invoked. *)
Theorem parse_graph_accepts (registry : Dict.t NodeClass)
    (graph_json : GraphJson) :
  ((exists parsed, _parse_graph registry graph_json = Ok parsed) <->
   forallb (node_ok registry) (raw_nodes graph_json) = true /\
   forallb edge_ok (raw_edges graph_json) = true) /\
  (forall e,
      _parse_graph registry graph_json = Err e ->
      exn_kind_of e = KeyError /\
      get_execution_order registry graph_json = Err e /\
      forall rt solver initial sweep_node_id inv,
        run rt solver registry graph_json initial inv = (Err e, inv) /\
        run_sweep rt solver registry graph_json sweep_node_id initial inv
        = (Err e, inv)).
Proof.
  split.
  - unfold _parse_graph. fold (raw_nodes graph_json) (raw_edges graph_json).
    rewrite <- (parse_nodes_accepts registry (raw_nodes graph_json) []).
    rewrite <- (parse_edges_accepts (raw_edges graph_json) []).
    destruct (parse_nodes registry _ []) as [nodes|e]; simpl.
    + destruct (parse_edges _ []) as [edges|e]; simpl.
      * split; eauto.
      * split; [intros [p H]; discriminate|].
        intros [_ [edges H]]. discriminate.
    + split; [intros [p H]; discriminate|].
      intros [[nodes H] _]. discriminate.
  - intros e H. split; [|split].
    + unfold _parse_graph in H.
      destruct (parse_nodes registry _ []) as [nodes|e'] eqn:En; simpl in H.
      * destruct (parse_edges _ []) as [edges|e''] eqn:Ee; simpl in H;
          [discriminate|].
        injection H as <-. eapply parse_edges_kind; eauto.
      * injection H as <-. eapply parse_nodes_kind; eauto.
    + unfold get_execution_order. now rewrite H.
    + intros rt solver initial sweep_node_id inv.
      unfold run, run_sweep. now rewrite H.
Qed.

Lemma parse_nodes_keys registry raw : forall acc nodes,
  parse_nodes registry raw acc = Ok nodes ->
  NoDup (Dict.keys acc) ->
  NoDup (Dict.keys nodes) /\
  forall k, In k (Dict.keys nodes) <->
            In k (Dict.keys acc) \/ exists rn, In rn raw /\ rn_id rn = Some k.
Proof.
  induction raw as [|rn raw IH]; intros acc nodes H Hnd; simpl in H.
  - injection H as <-. split; [exact Hnd|]. intros k. split; [tauto|].
    intros [Hk|[rn [[] _]]]. exact Hk.
  - destruct (parse_node registry rn) as [[k0 n0]|e] eqn:E; [|discriminate].
    simpl in H. apply parse_node_ok in E as [Eid _].
    apply IH in H as [Hn Hk]; [|now apply nodup_keys_set].
    split; [exact Hn|]. intros k. rewrite Hk, in_keys_set. split.
    + intros [[Ha| ->]|[rn' [Hin Hid]]]; [now left| |].
      * right. exists rn. split; [now left|exact Eid].
      * right. exists rn'. split; [now right|exact Hid].
    + intros [Ha|[rn' [[<-|Hin] Hid]]].
      * left. now left.
      * left. right. congruence.
      * right. exists rn'. auto.
Qed.

Lemma parse_nodes_get registry raw k n : forall acc nodes,
  parse_nodes registry raw acc = Ok nodes ->
  Dict.get nodes k = Some n ->
  Dict.get acc k = Some n \/
  exists rn, In rn raw /\ parse_node registry rn = Ok (k, n).
Proof.
  induction raw as [|rn raw IH]; intros acc nodes H Hg; simpl in H.
  - injection H as <-. now left.
  - destruct (parse_node registry rn) as [[k0 n0]|e] eqn:E; [|discriminate].
    simpl in H. destruct (IH _ _ H Hg) as [Ha|[rn' [Hin Hp]]].
    + destruct (String.string_dec k k0) as [->|Hne].
      * rewrite DictFacts.get_set_same in Ha. injection Ha as ->.
        right. exists rn. split; [now left|exact E].
      * rewrite DictFacts.get_set_other in Ha by exact Hne. now left.
    + right. exists rn'. split; [now right|exact Hp].
Qed.

Lemma parse_nodes_untouched registry raw k : forall acc nodes,
  parse_nodes registry raw acc = Ok nodes ->
  (forall rn, In rn raw -> rn_id rn <> Some k) ->
  Dict.get nodes k = Dict.get acc k.
Proof.
  induction raw as [|rn raw IH]; intros acc nodes H Hno; simpl in H.
  - now injection H as <-.
  - destruct (parse_node registry rn) as [[k0 n0]|e] eqn:E; [|discriminate].
    simpl in H. apply parse_node_ok in E as [Eid _].
    rewrite (IH _ _ H) by (intros rn' Hin; apply Hno; now right).
    apply DictFacts.get_set_other. intros ->.
    apply (Hno rn); [now left|exact Eid].
Qed.

Lemma parse_nodes_last registry l1 rn l2 k : forall acc nodes,
  parse_nodes registry (l1 ++ rn :: l2) acc = Ok nodes ->
  rn_id rn = Some k ->
  (forall rn', In rn' l2 -> rn_id rn' <> Some k) ->
  exists n, parse_node registry rn = Ok (k, n) /\ Dict.get nodes k = Some n.
Proof.
  induction l1 as [|r l1 IH]; intros acc nodes H Hid Hno; simpl in H.
  - destruct (parse_node registry rn) as [[k0 n0]|e] eqn:E; [|discriminate].
    simpl in H. pose proof (parse_node_ok _ _ _ _ E) as [Eid _].
    assert (k0 = k) by congruence. subst k0.
    exists n0. split; [reflexivity|].
    rewrite (parse_nodes_untouched _ _ _ _ _ H Hno).
    apply DictFacts.get_set_same.
  - destruct (parse_node registry r) as [entry|e]; [|discriminate].
    simpl in H. eapply IH; eauto.
Qed.

Lemma parse_edges_ok raw : forall acc edges,
  parse_edges raw acc = Ok edges ->
  exists es,
    edges = acc ++ es /\
    map re_source raw = map (fun e => Some (fst e)) es /\
    map re_target raw = map (fun e => Some (snd e)) es.
Proof.
  induction raw as [|re_ raw IH]; intros acc edges H; simpl in H.
  - injection H as <-. exists []. now rewrite app_nil_r.
  - unfold required in H.
    destruct (re_source re_) as [u|] eqn:Eu; [|discriminate].
    destruct (re_target re_) as [v|] eqn:Ev; [|discriminate].
    simpl in H. apply IH in H as [es [-> [Hs Ht]]].
    exists ((u, v) :: es). rewrite <- app_assoc. simpl.
    now rewrite Eu, Ev, Hs, Ht.
Qed.

Lemma parse_graph_parts registry graph_json nodes edges :
  _parse_graph registry graph_json = Ok (nodes, edges) ->
  parse_nodes registry (raw_nodes graph_json) [] = Ok nodes /\
  parse_edges (raw_edges graph_json) [] = Ok edges.
Proof.
  unfold _parse_graph. fold (raw_nodes graph_json) (raw_edges graph_json).
  destruct (parse_nodes registry (raw_nodes graph_json) []) as [ns|e];
    [|discriminate].
  destruct (parse_edges (raw_edges graph_json) []) as [es|e];
    [|discriminate].
  simpl. intros [= <- <-]. auto.
Qed.

(** X20. The node map and the edge list of a description that
    [_parse_graph] accepts: the keys of the map are the ids declared, each
    once; a node is stored under its own id; when an id is declared more
    than once the last declaration is the node kept, with the class
    registered for its type; the edges are those declared, in their
    order, one entry for each declaration, repeated or not. *)
Theorem parse_graph_result (registry : Dict.t NodeClass)
    (graph_json : GraphJson) (nodes : Dict.t BaseNode)
    (edges : list (string * string)) :
  _parse_graph registry graph_json = Ok (nodes, edges) ->
  NoDup (Dict.keys nodes) /\
  (forall k, In k (Dict.keys nodes) <->
             exists rn, In rn (raw_nodes graph_json) /\ rn_id rn = Some k) /\
  (forall k n, Dict.get nodes k = Some n -> Nodes.node_id n = k) /\
  (forall l1 rn l2 k,
      raw_nodes graph_json = l1 ++ rn :: l2 ->
      rn_id rn = Some k ->
      (forall rn', In rn' l2 -> rn_id rn' <> Some k) ->
      exists n,
        parse_node registry rn = Ok (k, n) /\
        Dict.get nodes k = Some n /\
        get_node_class registry (type_of_raw rn) = Ok (cls n)) /\
  map re_source (raw_edges graph_json) = map (fun e => Some (fst e)) edges /\
  map re_target (raw_edges graph_json) = map (fun e => Some (snd e)) edges.
Proof.
  intros Hp. apply parse_graph_parts in Hp as [En Ee].
  destruct (parse_nodes_keys _ _ _ _ En (NoDup_nil _)) as [Hnd Hk].
  split; [exact Hnd|split; [|split; [|split]]].
  - intros k. rewrite Hk. simpl. tauto.
  - intros k n Hg.
    destruct (parse_nodes_get _ _ _ _ _ _ En Hg) as [Ha|[rn [_ Hp]]];
      [discriminate|].
    now apply parse_node_ok in Hp.
  - intros l1 rn l2 k El Hid Hno. rewrite El in En.
    destruct (parse_nodes_last _ _ _ _ _ _ _ En Hid Hno) as [n [Hp Hg]].
    exists n. split; [exact Hp|split; [exact Hg|]].
    now apply parse_node_ok in Hp.
  - apply parse_edges_ok in Ee as [es' [-> [Hs Ht]]]. simpl. auto.
Qed.

(** X20 at a description that declares the id n1 twice, as a motor and
    then without a type, and one edge twice: two nodes, n1 a formula
    node, and two edges. *)
Lemma parse_graph_result_repeated :
  NoDup ["n1"; "n2"] /\
  map re_source (raw_edges MoreSamples.repeated_json)
  = map (fun e => Some (fst e)) [("n1", "n2"); ("n1", "n2")].
Proof.
  destruct (parse_graph_result _REGISTRY MoreSamples.repeated_json
              [("n1", new_node FormulaNode "n1" "Again" (Some []) (Some [])
                               (Some []));
               ("n2", new_node HeaterNode "n2" "" (Some []) (Some [])
                               (Some []))]
              [("n1", "n2"); ("n1", "n2")])
    as [H1 [_ [_ [_ [H2 _]]]]].
  - vm_compute. reflexivity.
  - split; [exact H1|exact H2].
Defined.

Lemma filter_all {A} (p : A -> bool) (l : list A) :
  (forall x, In x l -> p x = true) -> filter p l = l.
Proof.
  induction l as [|a l IH]; intros H; [reflexivity|]. simpl.
  rewrite (H a) by now left. f_equal. apply IH. intros x Hx. apply H.
  now right.
Qed.

(** X21. What [run] reports when it returns: [node_count] is the number
    of ids declared, each counted once, [edge_count] the number of edge
    declarations, repeated or not; [execution_order] is exactly the
    sequence of the [compute] invocations made, every entry the id of a
    declared node; [state] is the store the solve ended with; and when
    the graph has no cycle, [execution_order] is a permutation of the
    declared ids. *)
Theorem run_result rt solver (registry : Dict.t NodeClass)
    (graph_json : GraphJson) (initial : option (Dict.t float))
    (inv inv' : list string) (r : SolveResult) :
  run rt solver registry graph_json initial inv = (Ok r, inv') ->
  exists nodes edges m',
    _parse_graph registry graph_json = Ok (nodes, edges) /\
    solve rt solver nodes edges (mkMachine (State.init initial) inv)
    = (Ok (sr_execution_order r), m') /\
    sr_state r = to_dict (store m') /\
    NoDup (Dict.keys nodes) /\
    sr_node_count r = List.length (Dict.keys nodes) /\
    sr_edge_count r = List.length (raw_edges graph_json) /\
    inv' = inv ++ sr_execution_order r /\
    (forall x, In x (sr_execution_order r) -> In x (Dict.keys nodes)) /\
    (cycle_nodes (_build_graph nodes edges) = [] ->
     Permutation (sr_execution_order r) (Dict.keys nodes)).
Proof.
  unfold run.
  destruct (_parse_graph registry graph_json) as [[nodes edges]|e] eqn:Hp;
    [|discriminate].
  destruct (solve rt solver nodes edges _) as [[order|e] m'] eqn:Hs;
    [|discriminate].
  intros [= <- <-]. simpl.
  pose proof (parse_graph_parts _ _ _ _ Hp) as [En Ee].
  destruct (parse_nodes_keys _ _ _ _ En (NoDup_nil _)) as [Hnd _].
  apply parse_edges_ok in Ee as [es' [Ees [Hsrc _]]]. simpl in Ees.
  subst es'.
  destruct (SolverExtras.solve_order_invoked _ _ _ _ _ _ _ Hs) as [Hi Hk].
  exists nodes, edges, m'.
  split; [reflexivity|split; [exact Hs|split; [reflexivity|]]].
  split; [exact Hnd|split; [|split; [|split; [|split]]]].
  - unfold Dict.keys. now rewrite length_map.
  - rewrite <- (length_map re_source), Hsrc. now rewrite length_map.
  - exact Hi.
  - intros x Hx. apply DictFacts.contains_true_iff. now apply Hk.
  - intros Hc. rewrite (solve_acyclic rt solver nodes edges Hc) in Hs.
    apply run_nodes_ok in Hs as [-> _]. simpl.
    now apply acyclic_order_permutation.
Qed.

(** X21 at the description that declares n1 twice and its edge twice. *)
Lemma run_result_repeated :
  exists r,
    fst (run Samples.sample_rt default_solver _REGISTRY
           MoreSamples.repeated_json None []) = Ok r /\
    sr_node_count r = 2%nat /\ sr_edge_count r = 2%nat.
Proof.
  destruct (run Samples.sample_rt default_solver _REGISTRY
              MoreSamples.repeated_json None []) as [[r|e] inv'] eqn:E.
  - destruct (run_result _ _ _ _ _ _ _ _ E)
      as [nodes [edges [m' [Hp [_ [_ [_ [Hn [He _]]]]]]]]].
    exists r. split; [reflexivity|]. rewrite Hn, He.
    vm_compute in Hp. injection Hp as <- _. split; reflexivity.
  - vm_compute in E. discriminate.
Defined.

(** X22. [get_execution_order] returns whenever the description is
    accepted, and computes nothing. The order repeats no id; a listed id
    is on no cycle, so the nodes of a cycle, and those after them, are
    left out without an error; for a declared edge whose target is
    listed the source is listed before the target. When the graph has no
    cycle and every end of an edge is a declared node, it is the
    execution order [run] reports. *)
Theorem get_execution_order_result (registry : Dict.t NodeClass)
    (graph_json : GraphJson) (nodes : Dict.t BaseNode)
    (edges : list (string * string)) :
  _parse_graph registry graph_json = Ok (nodes, edges) ->
  exists order,
    get_execution_order registry graph_json = Ok order /\
    NoDup order /\
    (forall v, In v order ->
       on_cycle (_build_graph nodes edges) v = false /\
       (In v (Dict.keys nodes) \/
        exists e, In e edges /\ (v = fst e \/ v = snd e))) /\
    (forall u v, In (u, v) edges -> In v order -> before u v order) /\
    (forall rt solver initial inv r inv',
       cycle_nodes (_build_graph nodes edges) = [] ->
       (forall e, In e edges ->
          In (fst e) (Dict.keys nodes) /\ In (snd e) (Dict.keys nodes)) ->
       run rt solver registry graph_json initial inv = (Ok r, inv') ->
       sr_execution_order r = order).
Proof.
  intros Hp. exists (_kahns_sort (_build_graph nodes edges)).
  pose proof (build_graph_wf nodes edges) as Hwf.
  pose proof (SolverExtras.build_graph_nodes nodes edges) as Hn.
  split; [unfold get_execution_order; now rewrite Hp|].
  split; [apply (kahns_sort_nodup _ Hwf)|split; [|split]].
  - intros v Hv. split.
    + now apply SolverExtras.kahns_sort_off_cycles.
    + apply Hn. now apply (kahns_sort_incl _ Hwf).
  - intros u v He Hv. apply (kahns_sort_order _ Hwf); [|exact Hv].
    now apply build_graph_edge.
  - intros rt solver initial inv r inv' Hc Hclosed H.
    unfold run in H. rewrite Hp in H.
    destruct (solve rt solver nodes edges _) as [[order|e] m'] eqn:Hs;
      [|discriminate].
    injection H as <- _. simpl.
    rewrite (solve_acyclic rt solver nodes edges Hc) in Hs.
    apply run_nodes_ok in Hs as [-> _]. simpl.
    apply filter_all. intros x Hx.
    apply DictFacts.contains_true_iff.
    apply (kahns_sort_incl _ Hwf) in Hx. apply Hn in Hx.
    destruct Hx as [Hx|[e [He [->| ->]]]]; [exact Hx| |];
      now apply Hclosed.
Qed.

(** X22 at the sample description of a formula node that feeds a sweep
    node. *)
Lemma get_execution_order_result_sample :
  exists order,
    get_execution_order _REGISTRY Samples.sweep_json = Ok order /\
    NoDup order.
Proof.
  destruct (get_execution_order_result _REGISTRY Samples.sweep_json
              (match _parse_graph _REGISTRY Samples.sweep_json with
               | Ok p => fst p | Err _ => []
               end)
              [("f1", "sw")])
    as [order [H1 [H2 _]]].
  - vm_compute. reflexivity.
  - exists order. split; [exact H1|exact H2].
Defined.

(** X23. A sweep whose step count is negative raises the [ValueError] of
    [linspace], and one whose step count is zero returns empty lists of
    samples and of outputs and 0 steps; in both cases the graph is not
    solved and no [compute] is invoked. *)
Theorem run_sweep_without_samples rt solver (registry : Dict.t NodeClass)
    (graph_json : GraphJson) (sweep_node_id : string)
    (initial : option (Dict.t float)) (inv : list string)
    (nodes : Dict.t BaseNode) (edges : list (string * string))
    (sweep_node : BaseNode) (lo hi : float) (n : Z) :
  _parse_graph registry graph_json = Ok (nodes, edges) ->
  Dict.get nodes sweep_node_id = Some sweep_node ->
  cls sweep_node = SweepNode ->
  min_val rt sweep_node = Ok lo ->
  max_val rt sweep_node = Ok hi ->
  steps rt sweep_node = Ok n ->
  ((n < 0)%Z ->
   run_sweep rt solver registry graph_json sweep_node_id initial inv
   = (Err (builtin_exn ValueError), inv)) /\
  (n = 0%Z ->
   forall sv ov,
     sweep_var sweep_node = Ok sv -> output_var sweep_node = Ok ov ->
     run_sweep rt solver registry graph_json sweep_node_id initial inv
     = (Ok (mkSweepResult sv ov [] [] 0), inv)).
Proof.
  intros Hp Hg Hc Hlo Hhi Hn.
  unfold run_sweep. rewrite Hp, Hg.
  apply is_sweep_node_iff in Hc. rewrite Hc. simpl.
  unfold get_sweep_range. rewrite Hlo, Hhi, Hn. simpl. split.
  - intros Hneg. now rewrite LinspaceFacts.linspace_negative.
  - intros -> sv ov Hsv Hov.
    change (Numpy.linspace lo hi 0) with (@Ok (list float) []).
    simpl. now rewrite Hsv, Hov.
Qed.

(** X23 at a sweep node that asks for no sample. *)
Lemma run_sweep_without_samples_sample :
  run_sweep Samples.sample_rt default_solver _REGISTRY
    MoreSamples.empty_sweep_json "sw" None []
  = (Ok (mkSweepResult "torque" "total_current" [] [] 0), []).
Proof.
  destruct (run_sweep_without_samples Samples.sample_rt default_solver
              _REGISTRY MoreSamples.empty_sweep_json "sw" None []
              (match _parse_graph _REGISTRY MoreSamples.empty_sweep_json with
               | Ok p => fst p | Err _ => []
               end)
              []
              (new_node SweepNode "sw" ""
                 (Some [("sweep_var", PStr "torque");
                        ("output_var", PStr "total_current");
                        ("steps", PInt 0)]) (Some []) (Some []))
              0%float 100%float 0%Z) as [_ H];
    [vm_compute; reflexivity ..|].
  apply H; reflexivity.
Defined.

End EngineExtras.

(** ** The signature store and the comparator *)

Module FaultExtras.
Import Py Fault FaultSpec.
Import FloatFacts BumpFacts BuildFacts.

Lemma get_pop_other {V} (d : Dict.t V) k k' :
  k' <> k -> Dict.get (pop d k) k' = Dict.get d k'.
Proof.
  intros Hne. induction d as [|[k0 v0] d IH]; [reflexivity|]. simpl.
  destruct (String.eqb_spec k0 k) as [->|Hk].
  - destruct (String.eqb_spec k k') as [<-|_]; [contradiction|reflexivity].
  - simpl. now rewrite IH.
Qed.

Lemma get_pop_same {V} (d : Dict.t V) k :
  NoDup (Dict.keys d) -> Dict.get (pop d k) k = None.
Proof.
  induction d as [|[k0 v0] d IH]; intros Hnd; [reflexivity|]. simpl in *.
  inversion Hnd as [|? ? Hk Hnd']; subst.
  destruct (String.eqb_spec k0 k) as [->|Hne].
  - destruct (Dict.get d k) eqn:E; [|reflexivity].
    exfalso. apply Hk. eapply DictFacts.get_some_in_keys; eauto.
  - simpl. destruct (String.eqb_spec k0 k); [contradiction|]. now apply IH.
Qed.

Lemma in_keys_pop {V} (d : Dict.t V) k x :
  In x (Dict.keys (pop d k)) -> In x (Dict.keys d).
Proof.
  induction d as [|[k0 v0] d IH]; [tauto|]. simpl.
  destruct (String.eqb k0 k); simpl; tauto.
Qed.

Lemma nodup_keys_pop {V} (d : Dict.t V) k :
  NoDup (Dict.keys d) -> NoDup (Dict.keys (pop d k)).
Proof.
  induction d as [|[k0 v0] d IH]; intros Hnd; [constructor|]. simpl in *.
  inversion Hnd as [|? ? Hk Hnd']; subst.
  destruct (String.eqb k0 k); [exact Hnd'|]. simpl. constructor.
  - intros H. apply Hk. eapply in_keys_pop; eauto.
  - now apply IH.
Qed.

Lemma keys_pop_sync {V W} (d1 : Dict.t V) : forall (d2 : Dict.t W) k,
  Dict.keys d1 = Dict.keys d2 ->
  Dict.keys (pop d1 k) = Dict.keys (pop d2 k).
Proof.
  induction d1 as [|[k1 v1] d1 IH]; intros [|[k2 v2] d2] k E;
    simpl in *; try discriminate; [reflexivity|].
  injection E as -> E. destruct (String.eqb k2 k); [exact E|].
  simpl. f_equal. now apply IH.
Qed.

Lemma keys_set_sync {V W} (d1 : Dict.t V) : forall (d2 : Dict.t W) k v w,
  Dict.keys d1 = Dict.keys d2 ->
  Dict.keys (Dict.set d1 k v) = Dict.keys (Dict.set d2 k w).
Proof.
  induction d1 as [|[k1 v1] d1 IH]; intros [|[k2 v2] d2] k v w E;
    simpl in *; try discriminate; [reflexivity|].
  injection E as -> E. destruct (String.eqb k2 k); simpl.
  - now f_equal.
  - f_equal. now apply IH.
Qed.

Lemma length_pop {V} (d : Dict.t V) k :
  List.length (pop d k) =
  if Dict.contains d k then Nat.pred (List.length d) else List.length d.
Proof.
  unfold Dict.contains. induction d as [|[k0 v0] d IH]; [reflexivity|].
  simpl. destruct (String.eqb k0 k); [reflexivity|]. simpl. rewrite IH.
  destruct (Dict.get d k) eqn:E; [|reflexivity].
  destruct d; [discriminate|reflexivity].
Qed.

Section Store.
Variable Any : Type.

Lemma reachable_keys (s : SignatureStore Any) :
  reachable s ->
  NoDup (Dict.keys (_library s)) /\
  Dict.keys (_library s) = Dict.keys (_metadata s).
Proof.
  induction 1 as [|s name vector metadata _ [Hnd Hk]|s name _ [Hnd Hk]];
    simpl.
  - split; [constructor|reflexivity].
  - split; [now apply EngineExtras.nodup_keys_set|now apply keys_set_sync].
  - split; [now apply nodup_keys_pop|now apply keys_pop_sync].
Qed.

(** A dictionary without a repeated key is its own copy. *)
Lemma update_fresh {V} (d : Dict.t V) : forall acc,
  NoDup (Dict.keys acc ++ Dict.keys d) -> Dict.update acc d = acc ++ d.
Proof.
  unfold Dict.update.
  induction d as [|[k v] d IH]; intros acc Hnd; simpl.
  - now rewrite app_nil_r.
  - assert (Hk : ~ In k (Dict.keys acc)).
    { simpl in Hnd. apply NoDup_remove_2 in Hnd. intros H. apply Hnd.
      apply in_or_app. now left. }
    assert (Es : Dict.set acc k v = acc ++ [(k, v)]).
    { clear Hnd IH. induction acc as [|[k0 v0] acc IHa]; [reflexivity|].
      simpl in *. destruct (String.eqb_spec k0 k) as [->|_]; [tauto|].
      f_equal. apply IHa. tauto. }
    rewrite Es, IH.
    + now rewrite <- app_assoc.
    + unfold Dict.keys in *. rewrite map_app. simpl.
      rewrite <- app_assoc. exact Hnd.
Qed.

Lemma copy_nodup {V} (d : Dict.t V) :
  NoDup (Dict.keys d) -> Dict.copy d = d.
Proof.
  intros H. unfold Dict.copy. now rewrite update_fresh.
Qed.

(** X24. Signatures written and read back: after [add(name, vector)]
    the store holds [name], [get(name)] is the vector, the other names
    are read as before, and the length grew by one exactly when the name
    was new; after [remove(name)], in a store made by [add] and [remove],
    [get(name)] raises the [KeyError] "Signature ... not in store.", the
    other names are read as before, and the length fell by one exactly
    when the name was there. *)
Theorem signature_add_get_remove (s : SignatureStore Any) (name : string)
    (vector : list float) (metadata : option (Dict.t Any)) :
  get (add s name vector metadata) name = Ok vector /\
  contains (add s name vector metadata) name = true /\
  len (add s name vector metadata)
  = (if contains s name then len s else S (len s)) /\
  (forall other, other <> name ->
     get (add s name vector metadata) other = get s other /\
     get (remove s name) other = get s other) /\
  len (remove s name)
  = (if contains s name then Nat.pred (len s) else len s) /\
  (reachable s ->
   get (remove s name) name = Err (not_in_store name) /\
   contains (remove s name) name = false /\
   exn_kind_of (not_in_store name) = KeyError).
Proof.
  unfold get, contains, len, add, remove, Dict.contains. simpl.
  rewrite DictFacts.get_set_same.
  split; [reflexivity|split; [reflexivity|split; [apply StateExtras.length_set_present|]]].
  split; [|split; [apply length_pop|]].
  - intros other Hne.
    rewrite DictFacts.get_set_other, get_pop_other by exact Hne. auto.
  - intros Hr. apply reachable_keys in Hr as [Hnd _].
    rewrite (get_pop_same _ _ Hnd). auto.
Qed.

(** X25. In a store made by [add] and [remove] the library and the
    metadata have the same names in the same order, each once, and
    [get_library] returns the library as it is. *)
Theorem signature_store_invariant (s : SignatureStore Any) :
  reachable s ->
  NoDup (Dict.keys (_library s)) /\
  Dict.keys (_library s) = Dict.keys (_metadata s) /\
  get_library s = _library s.
Proof.
  intros Hr. destruct (reachable_keys s Hr) as [Hnd Hk].
  split; [exact Hnd|split; [exact Hk|]].
  now apply copy_nodup.
Qed.

Lemma summaries_ok np (metadata : Dict.t (Dict.t Any)) items :
  Forall (fun kv : string * list float => snd kv <> []) items ->
  exists l,
    summaries np metadata items = Ok l /\
    map (@s_name Any) l = map fst items /\
    map (@s_length Any) l = map (fun kv => List.length (snd kv)) items.
Proof.
  induction 1 as [|[name vec] items Hv _ [l [El [Hn Hl]]]]; simpl.
  - exists []. auto.
  - simpl in Hv. destruct vec as [|x vec]; [contradiction|]. simpl.
    rewrite El. simpl. eexists. split; [reflexivity|]. simpl.
    now rewrite Hn, Hl.
Qed.

Lemma summaries_err np (metadata : Dict.t (Dict.t Any)) items name :
  In (name, []) items ->
  summaries np metadata items = Err (builtin_exn ValueError).
Proof.
  induction items as [|[k vec] items IH]; intros H; [destruct H|].
  simpl. destruct vec as [|x vec]; [reflexivity|]. simpl.
  destruct H as [H|H]; [discriminate|]. now rewrite IH.
Qed.

(** X26. [list_all] returns one summary for each signature, in the
    order in which the names were first stored, with the length of its
    vector, when no stored vector is empty; a store that holds an empty
    vector, which [add] accepts, makes it raise [ValueError]. *)
Theorem list_all_result np (s : SignatureStore Any) :
  ((forall name vector,
       In (name, vector) (_library s) -> vector <> []) ->
   exists l,
     list_all np s = Ok l /\
     map (@s_name Any) l = Dict.keys (_library s) /\
     map (@s_length Any) l
     = map (fun kv => List.length (snd kv)) (_library s)) /\
  (forall name,
      In (name, []) (_library s) ->
      list_all np s = Err (builtin_exn ValueError)) /\
  (forall name metadata,
      list_all np (add s name [] metadata) = Err (builtin_exn ValueError)).
Proof.
  unfold list_all. split; [|split].
  - intros H. apply summaries_ok. apply Forall_forall.
    intros [name vec] Hin. simpl. eapply H; eauto.
  - intros name. apply summaries_err.
  - intros name metadata. apply (summaries_err _ _ _ name). simpl.
    apply get_in. apply DictFacts.get_set_same.
Qed.

End Store.

(** X25 at the store of two signatures. *)
Lemma signature_store_invariant_sample :
  NoDup (Dict.keys (_library FaultSamples.two_signatures)) /\
  get_library FaultSamples.two_signatures
  = _library FaultSamples.two_signatures.
Proof.
  destruct (signature_store_invariant string FaultSamples.two_signatures)
    as [H1 [_ H2]].
  - unfold FaultSamples.two_signatures. repeat constructor.
  - split; [exact H1|exact H2].
Defined.

Lemma nodup_keys_update {V} (d : Dict.t V) : forall acc,
  NoDup (Dict.keys acc) -> NoDup (Dict.keys (Dict.update acc d)).
Proof.
  unfold Dict.update. induction d as [|[k v] d IH]; intros acc H; simpl;
    [exact H|].
  apply IH. now apply EngineExtras.nodup_keys_set.
Qed.

Lemma nodup_keys_library Any (s : SignatureStore Any) :
  NoDup (Dict.keys (get_library s)).
Proof.
  unfold get_library, Dict.copy. apply nodup_keys_update. constructor.
Qed.

(** The three measures are defined on the common prefix of two vectors
    that are not empty. *)
Lemma measures_defined np (live stored : list float) :
  live <> [] -> stored <> [] ->
  exists euc cos res,
    euclidean_distance np
      (firstn (Nat.min (List.length live) (List.length stored)) live)
      (firstn (Nat.min (List.length live) (List.length stored)) stored)
    = Ok euc /\
    cosine_similarity np
      (firstn (Nat.min (List.length live) (List.length stored)) live)
      (firstn (Nat.min (List.length live) (List.length stored)) stored)
    = Ok cos /\
    compute_residual np
      (firstn (Nat.min (List.length live) (List.length stored)) live)
      (firstn (Nat.min (List.length live) (List.length stored)) stored)
    = Ok res.
Proof.
  intros Hl Hs.
  destruct live as [|x live]; [contradiction|].
  destruct stored as [|y stored]; [contradiction|].
  change (Nat.min (List.length (x :: live)) (List.length (y :: stored)))
    with (S (Nat.min (List.length live) (List.length stored))).
  set (n := Nat.min (List.length live) (List.length stored)).
  change (firstn (S n) (x :: live)) with (x :: firstn n live).
  change (firstn (S n) (y :: stored)) with (y :: firstn n stored).
  assert (E : Nat.eqb (List.length (x :: firstn n live))
                      (List.length (y :: firstn n stored)) = true).
  { apply Nat.eqb_eq. simpl. f_equal. rewrite !length_firstn.
    unfold n. lia. }
  unfold euclidean_distance, cosine_similarity, compute_residual,
         np_sub, np_dot.
  rewrite E. cbn [bind combine map np_max].
  destruct (_ || _);
    (eexists; eexists; eexists;
     split; [reflexivity|split; reflexivity]).
Qed.

Lemma compare_all_step np live method name stored rest comps bn bs out :
  compare_all np live method ((name, stored) :: rest) comps bn bs = Ok out ->
  exists sc comps',
    score np live method stored = Ok sc /\
    compare_all np live method rest comps'
      (if (sc <? bs)%float then Some name else bn)
      (if (sc <? bs)%float then sc else bs) = Ok out.
Proof.
  unfold score. cbn [compare_all].
  destruct (euclidean_distance np _ _) as [euc|e]; [|discriminate].
  destruct (cosine_similarity np _ _) as [cos|e]; [|discriminate].
  destruct (compute_residual np _ _) as [res|e]; [|discriminate].
  cbn [bind]. intros H. eexists. eexists. split; [reflexivity|].
  destruct (score_of method euc cos <? bs)%float; exact H.
Qed.

(** What the loop of [diagnose] leaves: the best match it was given, or
    an entry with a smaller score; no entry has a score below it. *)
Lemma compare_all_best np live method items :
  forall comps bn bs comps' bn' bs',
    compare_all np live method items comps bn bs = Ok (comps', bn', bs') ->
    ((bn' = bn /\ bs' = bs) \/
     exists name stored,
       In (name, stored) items /\ bn' = Some name /\
       score np live method stored = Ok bs' /\ (bs' <? bs)%float = true) /\
    (forall name stored sc,
        In (name, stored) items ->
        score np live method stored = Ok sc ->
        (sc <? bs')%float = false).
Proof.
  induction items as [|[name stored] rest IH];
    intros comps bn bs comps' bn' bs' H.
  - simpl in H. injection H as _ <- <-.
    split; [now left|intros ? ? ? []].
  - apply compare_all_step in H as [sc [comps1 [Hsc H]]].
    apply IH in H as [HA HB].
    assert (Hhead : (sc <? bs')%float = false).
    { destruct (sc <? bs)%float eqn:Elt.
      - destruct HA as [[_ ->]|[n2 [st2 [_ [_ [_ Hlt]]]]]].
        + apply ltb_irrefl.
        + destruct (sc <? bs')%float eqn:E; [|reflexivity].
          pose proof (ltb_trans _ _ _ E Hlt) as Hc.
          now rewrite ltb_irrefl in Hc.
      - destruct HA as [[_ ->]|[n2 [st2 [_ [_ [_ Hlt]]]]]].
        + exact Elt.
        + destruct (sc <? bs')%float eqn:E; [|reflexivity].
          pose proof (ltb_trans _ _ _ E Hlt) as Hc. congruence. }
    split.
    + destruct (sc <? bs)%float eqn:Elt.
      * right. destruct HA as [[-> ->]|[n2 [st2 [Hin [-> [Hs Hlt]]]]]].
        -- exists name, stored. split; [now left|auto].
        -- exists n2, st2. split; [now right|].
           split; [reflexivity|split; [exact Hs|]].
           eapply ltb_trans; eauto.
      * destruct HA as [[-> ->]|[n2 [st2 [Hin [-> [Hs Hlt]]]]]].
        -- now left.
        -- right. exists n2, st2. split; [now right|auto].
    + intros n st sc0 [[= <- <-]|Hin] Hs0.
      * rewrite Hsc in Hs0. injection Hs0 as <-. exact Hhead.
      * eapply HB; eauto.
Qed.

Lemma compare_all_none np live method items :
  live <> [] ->
  (forall name stored,
      In (name, stored) items ->
      stored <> [] /\
      forall sc, score np live method stored = Ok sc ->
                 (sc <? infinity)%float = false) ->
  forall comps,
    exists comps',
      compare_all np live method items comps None infinity
      = Ok (comps', None, infinity).
Proof.
  intros Hl. induction items as [|[name stored] rest IH]; intros H comps.
  - exists comps. reflexivity.
  - destruct (H name stored (or_introl eq_refl)) as [Hs Hsc].
    destruct (measures_defined np live stored Hl Hs)
      as [euc [cos [res [He [Hc Hr]]]]].
    assert (Hn : (score_of method euc cos <? infinity)%float = false).
    { apply Hsc. unfold score. now rewrite He, Hc. }
    cbn [compare_all]. rewrite He, Hc, Hr. cbn [bind]. rewrite Hn.
    apply IH. intros n st Hin. apply (H n). now right.
Qed.

(** X27. Where [diagnose] finds no match. With an empty library it
    returns the response without a closest signature, whose
    [fault_detected] is true, whatever the vector, the threshold and the
    method. With a library that is not empty, an empty live vector makes
    it raise [ValueError]; and when the vectors are not empty but no
    signature has a score below the positive infinity (the scores are
    infinite or not numbers), it raises [KeyError]. *)
Theorem diagnose_without_match Any np (s : SignatureStore Any)
    (live : list float) (threshold : float) (method : string) :
  (get_library s = [] ->
   diagnose np s live threshold method = Ok NoSignatures /\
   fault_detected_of NoSignatures = true) /\
  (get_library s <> [] ->
   diagnose np s [] threshold method = Err (builtin_exn ValueError)) /\
  (get_library s <> [] ->
   live <> [] ->
   (forall name stored,
       In (name, stored) (get_library s) ->
       stored <> [] /\
       forall sc, score np live method stored = Ok sc ->
                  (sc <? infinity)%float = false) ->
   diagnose np s live threshold method = Err (builtin_exn KeyError)).
Proof.
  unfold diagnose. split; [|split].
  - intros ->. auto.
  - intros Hne. destruct (get_library s) as [|[name stored] rest];
      [contradiction|].
    cbn [compare_all]. unfold euclidean_distance, cosine_similarity,
      compute_residual, np_sub, np_dot. simpl.
    destruct (_ || _); reflexivity.
  - intros Hne Hl H. destruct (get_library s) as [|e rest] eqn:E;
      [contradiction|].
    destruct (compare_all_none np live method (e :: rest) Hl H [])
      as [comps' ->].
    reflexivity.
Qed.

(** X27 at the store of two signatures and a live vector that is not a
    number. *)
Lemma diagnose_without_match_sample :
  diagnose FaultSamples.sample_np FaultSamples.two_signatures [nan]
           5%float "euclidean"
  = Err (builtin_exn KeyError).
Proof.
  destruct (diagnose_without_match string FaultSamples.sample_np
              FaultSamples.two_signatures [nan] 5%float "euclidean")
    as [_ [_ H]].
  apply H.
  - vm_compute. discriminate.
  - discriminate.
  - intros name stored Hin. vm_compute in Hin.
    destruct Hin as [Hin|[Hin|[]]]; injection Hin as <- <-;
      (split; [discriminate|]); intros sc Hsc; vm_compute in Hsc;
      injection Hsc as <-; reflexivity.
Defined.

(** X28. The match [diagnose] returns: the closest signature is a stored
    name whose score, the distance returned, is below the positive
    infinity, and no stored signature has a score below it; the residual
    is the one between the live vector and the closest signature, over
    their common length; and [fault_detected] is true exactly when the
    largest residual is above the threshold. *)
Theorem diagnose_best_match Any np (s : SignatureStore Any)
    (live : list float) (threshold : float) (method : string)
    (name : string) (distance cos : float) (res : ResidualInfo)
    (fault : bool) (all : list Comparison) :
  diagnose np s live threshold method
  = Ok (Diagnosed name distance cos res fault all) ->
  exists stored,
    Dict.get (get_library s) name = Some stored /\
    score np live method stored = Ok distance /\
    (distance <? infinity)%float = true /\
    (forall name' stored' sc,
        In (name', stored') (get_library s) ->
        score np live method stored' = Ok sc ->
        (sc <? distance)%float = false) /\
    compute_residual np
      (firstn (Nat.min (List.length live) (List.length stored)) live)
      (firstn (Nat.min (List.length live) (List.length stored)) stored)
    = Ok res /\
    fault = (threshold <? max_residual res)%float.
Proof.
  unfold diagnose. pose proof (nodup_keys_library Any s) as Hnd.
  destruct (get_library s) as [|e rest] eqn:E; [discriminate|].
  destruct (compare_all np live method (e :: rest) [] None infinity)
    as [[[comps bn] bs]|err] eqn:Hc; [|discriminate].
  cbn [bind fst snd].
  destruct bn as [best_name|]; [|discriminate].
  destruct (Dict.get (e :: rest) best_name) as [best_stored|] eqn:Hg;
    [|discriminate].
  destruct (compute_residual np _ _) as [residual_info|err] eqn:Hr;
    [|discriminate].
  cbn [bind].
  destruct (cosine_similarity np _ _) as [c|err]; [|discriminate].
  cbn [bind]. intros [= <- <- <- <- <- <-].
  apply compare_all_best in Hc as [HA HB].
  destruct HA as [[Hn _]|[n [st [Hin [Hn [Hs Hlt]]]]]]; [discriminate|].
  injection Hn as <-.
  assert (st = best_stored).
  { apply (in_get_nodup _ _ _ Hnd) in Hin. congruence. }
  subst st. exists best_stored.
  split; [exact Hg|split; [exact Hs|split; [exact Hlt|]]].
  split; [exact HB|split; [exact Hr|reflexivity]].
Qed.

(** X28 at the store of two signatures and a live vector near the first
    of them. *)
Lemma diagnose_best_match_sample :
  exists stored distance,
    Dict.get (get_library FaultSamples.two_signatures) "normal" = Some stored /\
    score FaultSamples.sample_np [1.5; 2.5; 3.5; 4.5; 5.5]%float
          "euclidean" stored = Ok distance /\
    (distance <? infinity)%float = true.
Proof.
  destruct (diagnose FaultSamples.sample_np FaultSamples.two_signatures
              [1.5; 2.5; 3.5; 4.5; 5.5]%float 5%float "euclidean")
    as [[|name distance cos res fault all]|e] eqn:E.
  - vm_compute in E. discriminate.
  - destruct (diagnose_best_match string FaultSamples.sample_np
                FaultSamples.two_signatures
                [1.5; 2.5; 3.5; 4.5; 5.5]%float 5%float "euclidean"
                name distance cos res fault all E)
      as [stored [H1 [H2 [H3 _]]]].
    vm_compute in E. injection E as <- _ _ _ _ _.
    exists stored, distance. auto.
  - vm_compute in E. discriminate.
Defined.

End FaultExtras.
